(** * unnamed-note-app: the library model (model.ts) and the navigation
    tree builder (renderer/tree.ts), embedded and verified.

    Layout of the development:
    - [JsString]: JavaScript strings as sequences of UTF-16 code units,
      with [split], [join] and the collator test that [findTag] and
      [findDirectory] use;
    - the data model of model.ts ([Node], [File], [Tag], [Model]);
    - the run time around the class: the host bridge, promises, the
      microtask queue and timers ([Runtime]), and a state-and-exception
      monad [Js] in which the methods are written;
    - the methods of [Model], under their source names;
    - [createTree] of tree.ts;
    - the properties. *)

From Stdlib Require Import ZArith NArith List String Ascii Lia Permutation.
From stdpp Require Import base option list.
Import ListNotations.

Local Open Scope Z_scope.

(** ** JavaScript strings *)

(** A string is its sequence of UTF-16 code units. *)
Definition jsstring := list N.

(** ASCII literals. *)
Definition lit (s : string) : jsstring :=
  map N_of_ascii (list_ascii_of_string s).

Definition str_eqb (a b : jsstring) : bool := bool_decide (a = b).

(** [a == b] on values that are a string or [undefined]. *)
Definition opt_str_eqb (a b : option jsstring) : bool := bool_decide (a = b).

Module JsString.

(** [s.split(sep)] for a one-unit separator: the pieces between the
    separators, empty pieces kept; the empty string gives one empty
    piece. *)
Fixpoint split (sep : N) (s : jsstring) : list jsstring :=
  match s with
  | [] => [[]]
  | c :: rest =>
      if N.eqb c sep then [] :: split sep rest
      else match split sep rest with
           | [] => [[c]]
           | piece :: pieces => (c :: piece) :: pieces
           end
  end.

(** [xs.join(sep)]; an [undefined] element is rendered as the empty
    string. *)
Fixpoint join (sep : jsstring) (xs : list (option jsstring)) : jsstring :=
  match xs with
  | [] => []
  | [x] => default [] x
  | x :: rest => default [] x ++ sep ++ join sep rest
  end.

(** *** Collation at sensitivity 'accent'

    [a.localeCompare(b, undefined, { sensitivity: 'accent' })] compares
    with a collator of strength two: base letters (primary weights) and
    diacritics (secondary weights) are significant, case (a tertiary
    weight) is not.  The model follows the Unicode collation algorithm on
    the root collation for the Basic Latin and Latin-1 blocks: every code
    unit contributes collation elements (primary, secondary); a
    precomposed letter contributes those of its base letter followed by
    those of its combining mark; the sort key is the sequence of the
    non-zero primaries followed by the sequence of the non-zero
    secondaries; two strings compare as 0 exactly when their keys are
    equal.  White space and punctuation are not ignorable (the default
    [ignorePunctuation: false]); control characters other than white
    space, and the soft hyphen, are.  The no-break space, the ordinal
    indicators and the superscript digits differ from the space, the
    letters a and o and the digits only by a tertiary weight.  Code units
    outside the two blocks, other than the combining marks, are taken as
    base letters of their own.  The locale is the root one: the code
    passes [undefined], the default locale of the host, whose tailoring,
    if any, is not modelled. *)

Definition common : N := 32.   (* secondary weight of an unaccented letter *)

Definition grave : N := 768.
Definition acute : N := 769.
Definition circumflex : N := 770.
Definition tilde : N := 771.
Definition diaeresis : N := 776.
Definition ring : N := 778.
Definition cedilla : N := 807.

Definition is_combining (c : N) : bool := (768 <=? c)%N && (c <=? 879)%N.

(** Completely ignorable: the control characters, but for the white
    space among them (U+0009 to U+000D and U+0085), and the soft hyphen
    (U+00AD). *)
Definition is_control (c : N) : bool :=
  (c <=? 8)%N || ((14 <=? c)%N && (c <=? 31)%N)
  || ((127 <=? c)%N && (c <=? 159)%N && negb (c =? 133)%N)
  || (c =? 173)%N.

(** The character that a Latin-1 compatibility character equals up to a
    tertiary weight. *)
Definition fold_compat (c : N) : N :=
  match c with
  | 160 => 32     (* no-break space *)
  | 170 => 97     (* feminine ordinal indicator *)
  | 186 => 111    (* masculine ordinal indicator *)
  | 178 => 50 | 179 => 51 | 185 => 49   (* superscript digits *)
  | _ => c
  end%N.

(** Lower-case form of a Basic Latin or Latin-1 letter. *)
Definition fold_case (c : N) : N :=
  if (65 <=? c)%N && (c <=? 90)%N then (c + 32)%N
  else if (192 <=? c)%N && (c <=? 222)%N && negb (c =? 215)%N then (c + 32)%N
  else c.

(** Base letter and mark of a lower-case precomposed Latin-1 letter. *)
Definition decompose (c : N) : option (N * N) :=
  let a := 97%N in let e := 101%N in let i := 105%N in
  let o := 111%N in let u := 117%N in
  match c with
  | 224 => Some (a, grave) | 225 => Some (a, acute)
  | 226 => Some (a, circumflex) | 227 => Some (a, tilde)
  | 228 => Some (a, diaeresis) | 229 => Some (a, ring)
  | 231 => Some (99, cedilla)
  | 232 => Some (e, grave) | 233 => Some (e, acute)
  | 234 => Some (e, circumflex) | 235 => Some (e, diaeresis)
  | 236 => Some (i, grave) | 237 => Some (i, acute)
  | 238 => Some (i, circumflex) | 239 => Some (i, diaeresis)
  | 241 => Some (110, tilde)
  | 242 => Some (o, grave) | 243 => Some (o, acute)
  | 244 => Some (o, circumflex) | 245 => Some (o, tilde)
  | 246 => Some (o, diaeresis)
  | 249 => Some (u, grave) | 250 => Some (u, acute)
  | 251 => Some (u, circumflex) | 252 => Some (u, diaeresis)
  | 253 => Some (121, acute) | 255 => Some (121, diaeresis)
  | _ => None
  end%N.

(** Collation elements (primary, secondary) of one code unit. *)
Definition elements (c : N) : list (N * N) :=
  if is_control c then []
  else if is_combining c then [(0, c)]%N
  else match decompose (fold_case c) with
       | Some (base, mark) => [(base, common); (0%N, mark)]
       | None => [(fold_compat (fold_case c), common)]
       end.

Definition non_zero (ws : list N) : list N := filter (fun w => w <> 0%N) ws.

(** Sort key at strength two. *)
Definition sort_key (s : jsstring) : list N * list N :=
  let ces := flat_map elements s in
  (non_zero (map fst ces), non_zero (map snd ces)).

(** [a.localeCompare(b, undefined, { sensitivity: 'accent' }) == 0]. *)
Definition equal_accent (a b : jsstring) : bool :=
  bool_decide (sort_key a = sort_key b).

(** ASCII upper-casing, used to state case-insensitivity. *)
Definition to_upper_ascii (s : jsstring) : jsstring :=
  map (fun c => if (97 <=? c)%N && (c <=? 122)%N then (c - 32)%N else c) s.

End JsString.

(** ** Data model (model.ts) *)

Definition ID := jsstring.

(** [Timestamp] (timestamp.ts): nanoseconds. *)
Definition Timestamp := Z.

Definition LIBRARY_VERSION : Z := 3.

Inductive NodeType := Text | Image | Anchor | Directory.

#[global] Instance NodeType_eq_dec : EqDecision NodeType.
Proof. solve_decision. Defined.

(** The fields [addAnchorNode] receives as its [anchor] argument. *)
Record AnchorContent := {
  contentURL : jsstring;
  contentType : jsstring;
  contentTitle : option jsstring;
  contentDescription : option jsstring;
  contentImageFileID : option ID;
  contentModified : option Timestamp;
  contentAccessed : Timestamp
}.

(** The fields that the four interfaces add to [Node]. *)
Inductive Variant :=
| TextNode (content : jsstring)
| ImageNode (fileID : ID) (description : option jsstring)
| AnchorNode (anchor : AnchorContent)
| DirectoryNode (name : jsstring).

(** [depth] is the property of the [Depth] interface, which tree.ts adds
    to node objects; model.ts never sets it. *)
Record Node := {
  node_id : ID;
  variant : Variant;
  created : Timestamp;
  modified : Timestamp;
  node_tags : option (list jsstring);
  index : Z;
  parentID : option ID;
  depth : option Z
}.

Definition type (n : Node) : NodeType :=
  match variant n with
  | TextNode _ => Text
  | ImageNode _ _ => Image
  | AnchorNode _ => Anchor
  | DirectoryNode _ => Directory
  end.

(** [(n as DirectoryNode).name]: [undefined] on the other variants. *)
Definition name (n : Node) : option jsstring :=
  match variant n with
  | DirectoryNode s => Some s
  | _ => None
  end.

Record File := {
  file_id : ID;
  file_type : jsstring;
  file_name : option jsstring;
  file_url : option jsstring;
  file_modified : option Timestamp;
  file_accessed : Timestamp
}.

Record Tag := {
  tag_id : ID;
  tag_name : jsstring
}.

(** The document [save] writes. *)
Record Library := {
  lib_nodes : list Node;
  lib_files : list File;
  lib_tags : list Tag;
  lib_version : Z
}.

Inductive Message :=
| Saving                   (* 'Saving...' *)
| Saved (elapsed : Z).     (* `Saved! (${round(elapsed, 2)} ms)` *)

Record Status := {
  status_id : ID;
  message : Message
}.

Module ReservedID.
Definition Trash : ID := lit "trash".
End ReservedID.

(** The fields of class [Model] that its node, file, tag, persistence and
    status methods use.  [savePromise] names the promise by the number of
    the host write it was chained on.

    [nodes_frozen] tells whether the objects of the array that
    [nodes.get()] returns are frozen.  [produce] freezes the tree it
    returns, deeply (immer's default, which the sources never switch
    off): the objects of every snapshot published by [addNode],
    [removeNode] and [setParent] are frozen, those of a snapshot that
    [loadLibrary] set are not. *)
Record Model := {
  nodes : list Node;
  files : list File;
  tags : list Tag;
  saving : bool;
  savePromise : option nat;
  status : option Status;
  nodes_frozen : bool
}.

Definition initial_model : Model :=
  {| nodes := []; files := []; tags := []; saving := false;
     savePromise := None; status := None; nodes_frozen := false |}.

(** ** Arrays *)

(** [l.findIndex(p)]: -1 when no element satisfies [p]. *)
Fixpoint findIndex {A} (p : A -> bool) (l : list A) : Z :=
  match l with
  | [] => -1
  | x :: rest =>
      if p x then 0
      else let i := findIndex p rest in
           if i <? 0 then -1 else i + 1
  end.

(** [l[i]]: [undefined] outside the array. *)
Definition at_index {A} (l : list A) (i : Z) : option A :=
  if i <? 0 then None else l !! Z.to_nat i.

(** [l.splice(start, 1)]: a negative [start] counts from the end. *)
Definition splice1 {A} (start : Z) (l : list A) : list A :=
  let len := Z.of_nat (length l) in
  let s := if start <? 0 then Z.max (len + start) 0 else Z.min start len in
  take (Z.to_nat s) l ++ drop (S (Z.to_nat s)) l.

(** ** The run time around the model *)

(** What the host supplies: the identifiers [uuidv4()] draws, the clock
    of [bridge.now()] and the readings of [performance.now()], each as
    the sequence of its successive results. *)
Record Host := {
  uuid_src : nat -> ID;
  bridge_now : nat -> Timestamp;
  performance_now : nat -> Z
}.

(** Jobs of the microtask queue. *)
Inductive Task :=
| WriteSettled (w : nat)   (* the [then] callback chained on write [w] *)
| SaveResumed.             (* a [save()] resuming after its [await] *)

(** What the observers, the bridge and the handle see, in order. *)
Inductive Event :=
| SavingSet (b : bool)                 (* saving.set(b) *)
| StatusSet (s : option Status)        (* status.set(s) *)
| WriteStart (w : nat) (doc : Library) (* bridge.writeLibrary called *)
| WriteEnd (w : nat)                   (* the host completed write w *)
| PromiseSet (p : option nat)          (* assignment to savePromise *)
| BlobRemoved (f : ID).                (* bridge.removeFile called *)

Record Runtime := {
  model : Model;
  uuid_draws : nat;        (* calls of uuidv4() so far *)
  now_reads : nat;         (* calls of bridge.now() so far *)
  perf_reads : nat;        (* calls of performance.now() so far *)
  writes_issued : nat;     (* calls of bridge.writeLibrary so far *)
  in_flight : list nat;    (* host writes started and not completed *)
  suspended : list nat;    (* per suspended save(): the promise it awaits *)
  microtasks : list Task;
  timers : list ID;        (* pending status timeouts, by status id *)
  trace : list Event
}.

Definition initial : Runtime :=
  {| model := initial_model; uuid_draws := 0; now_reads := 0; perf_reads := 0;
     writes_issued := 0; in_flight := []; suspended := []; microtasks := [];
     timers := []; trace := [] |}.

(** Field updates. *)
Definition with_model (f : Model -> Model) (rt : Runtime) : Runtime :=
  {| model := f (model rt); uuid_draws := uuid_draws rt; now_reads := now_reads rt;
     perf_reads := perf_reads rt; writes_issued := writes_issued rt;
     in_flight := in_flight rt; suspended := suspended rt;
     microtasks := microtasks rt; timers := timers rt; trace := trace rt |}.

Definition log (e : Event) (rt : Runtime) : Runtime :=
  {| model := model rt; uuid_draws := uuid_draws rt; now_reads := now_reads rt;
     perf_reads := perf_reads rt; writes_issued := writes_issued rt;
     in_flight := in_flight rt; suspended := suspended rt;
     microtasks := microtasks rt; timers := timers rt; trace := trace rt ++ [e] |}.

(** [this.nodes.set(newNodes)] with [newNodes] the result of [produce]:
    the snapshot is replaced, and its objects are frozen. *)
Definition with_nodes (ns : list Node) (m : Model) : Model :=
  {| nodes := ns; files := files m; tags := tags m; saving := saving m;
     savePromise := savePromise m; status := status m; nodes_frozen := true |}.

(** A write to objects of the snapshot that [nodes.get()] returns: the
    objects are changed in place, nothing is published. *)
Definition mutate_nodes (ns : list Node) (m : Model) : Model :=
  {| nodes := ns; files := files m; tags := tags m; saving := saving m;
     savePromise := savePromise m; status := status m;
     nodes_frozen := nodes_frozen m |}.

(** [this.nodes.set(data.nodes)] with objects that [JSON.parse] has just
    built: the snapshot is replaced, its objects are not frozen. *)
Definition set_nodes (ns : list Node) (m : Model) : Model :=
  {| nodes := ns; files := files m; tags := tags m; saving := saving m;
     savePromise := savePromise m; status := status m; nodes_frozen := false |}.

Definition with_files (fs : list File) (m : Model) : Model :=
  {| nodes := nodes m; files := fs; tags := tags m; saving := saving m;
     savePromise := savePromise m; status := status m;
     nodes_frozen := nodes_frozen m |}.

Definition with_tags (ts : list Tag) (m : Model) : Model :=
  {| nodes := nodes m; files := files m; tags := ts; saving := saving m;
     savePromise := savePromise m; status := status m;
     nodes_frozen := nodes_frozen m |}.

Definition with_saving (b : bool) (m : Model) : Model :=
  {| nodes := nodes m; files := files m; tags := tags m; saving := b;
     savePromise := savePromise m; status := status m;
     nodes_frozen := nodes_frozen m |}.

Definition with_savePromise (p : option nat) (m : Model) : Model :=
  {| nodes := nodes m; files := files m; tags := tags m; saving := saving m;
     savePromise := p; status := status m;
     nodes_frozen := nodes_frozen m |}.

Definition with_status (s : option Status) (m : Model) : Model :=
  {| nodes := nodes m; files := files m; tags := tags m; saving := saving m;
     savePromise := savePromise m; status := s;
     nodes_frozen := nodes_frozen m |}.

Definition with_depth (d : option Z) (n : Node) : Node :=
  {| node_id := node_id n; variant := variant n; created := created n;
     modified := modified n; node_tags := node_tags n; index := index n;
     parentID := parentID n; depth := d |}.

Definition with_index (i : Z) (n : Node) : Node :=
  {| node_id := node_id n; variant := variant n; created := created n;
     modified := modified n; node_tags := node_tags n; index := i;
     parentID := parentID n; depth := depth n |}.

Definition with_parentID (p : option ID) (n : Node) : Node :=
  {| node_id := node_id n; variant := variant n; created := created n;
     modified := modified n; node_tags := node_tags n; index := index n;
     parentID := p; depth := depth n |}.

(** ** The monad of method bodies

    A method runs on the run-time state and completes normally, or
    abruptly with an exception; the state reached is kept in both cases.
    [OutOfFuel] is the completion of a bounded run of a loop or recursion
    that needed more steps than it was given. *)

Inductive Exn := TypeError | Error.

Inductive Completion (A : Type) :=
| Normal (a : A)
| Throw (e : Exn)
| OutOfFuel.
Arguments Normal {A} a.
Arguments Throw {A} e.
Arguments OutOfFuel {A}.

Definition Js (A : Type) : Type := Runtime -> Runtime * Completion A.

#[global] Instance Js_ret : MRet Js := fun A a rt => (rt, Normal a).

#[global] Instance Js_bind : MBind Js := fun A B k m rt =>
  match m rt with
  | (rt', Normal a) => k a rt'
  | (rt', Throw e) => (rt', Throw e)
  | (rt', OutOfFuel) => (rt', OutOfFuel)
  end.

Definition throw {A} (e : Exn) : Js A := fun rt => (rt, Throw e).

Definition get {A} (f : Model -> A) : Js A := fun rt => (rt, Normal (f (model rt))).

Definition update (f : Runtime -> Runtime) : Js unit := fun rt => (f rt, Normal tt).

(** State reached and completion of a run. *)
Definition state_of {A} (r : Runtime * Completion A) : Runtime := fst r.
Definition completion_of {A} (r : Runtime * Completion A) : Completion A := snd r.

(** ** The methods of class Model *)

Section Methods.

Context (host : Host).

(** [uuidv4()]. *)
Definition uuidv4 : Js ID := fun rt =>
  ({| model := model rt; uuid_draws := S (uuid_draws rt); now_reads := now_reads rt;
      perf_reads := perf_reads rt; writes_issued := writes_issued rt;
      in_flight := in_flight rt; suspended := suspended rt;
      microtasks := microtasks rt; timers := timers rt; trace := trace rt |},
   Normal (uuid_src host (uuid_draws rt))).

(** [Timestamp.fromNs(await bridge.now())]. *)
Definition now : Js Timestamp := fun rt =>
  ({| model := model rt; uuid_draws := uuid_draws rt; now_reads := S (now_reads rt);
      perf_reads := perf_reads rt; writes_issued := writes_issued rt;
      in_flight := in_flight rt; suspended := suspended rt;
      microtasks := microtasks rt; timers := timers rt; trace := trace rt |},
   Normal (bridge_now host (now_reads rt))).

(** [performance.now()]. *)
Definition performanceNow : Js Z := fun rt =>
  ({| model := model rt; uuid_draws := uuid_draws rt; now_reads := now_reads rt;
      perf_reads := S (perf_reads rt); writes_issued := writes_issued rt;
      in_flight := in_flight rt; suspended := suspended rt;
      microtasks := microtasks rt; timers := timers rt; trace := trace rt |},
   Normal (performance_now host (perf_reads rt))).

(** [bridge.writeLibrary(doc)]: the host starts a write; the result is
    the number of the write, which also names the promise chained on
    it. *)
Definition writeLibrary (doc : Library) : Js nat := fun rt =>
  let w := writes_issued rt in
  ({| model := model rt; uuid_draws := uuid_draws rt; now_reads := now_reads rt;
      perf_reads := perf_reads rt; writes_issued := S w;
      in_flight := in_flight rt ++ [w]; suspended := suspended rt;
      microtasks := microtasks rt; timers := timers rt;
      trace := trace rt ++ [WriteStart w doc] |},
   Normal w).

(** [setTimeout(..., 5 * 1000)] of [save], keyed by the status id. *)
Definition setTimeout (statusID : ID) : Js unit := fun rt =>
  ({| model := model rt; uuid_draws := uuid_draws rt; now_reads := now_reads rt;
      perf_reads := perf_reads rt; writes_issued := writes_issued rt;
      in_flight := in_flight rt; suspended := suspended rt;
      microtasks := microtasks rt; timers := timers rt ++ [statusID];
      trace := trace rt |},
   Normal tt).

(** [await p] inside [save]: the call is parked on promise [p]. *)
Definition suspend_on (p : nat) : Js unit := fun rt =>
  ({| model := model rt; uuid_draws := uuid_draws rt; now_reads := now_reads rt;
      perf_reads := perf_reads rt; writes_issued := writes_issued rt;
      in_flight := in_flight rt; suspended := suspended rt ++ [p];
      microtasks := microtasks rt; timers := timers rt; trace := trace rt |},
   Normal tt).

(** *** Status *)

Definition setStatus (msg : Message) : Js ID :=
  id ← uuidv4;
  let s := Some {| status_id := id; message := msg |} in
  update (fun rt => log (StatusSet s) (with_model (with_status s) rt));;
  mret id.

Definition clearStatus : Js unit :=
  update (fun rt => log (StatusSet None) (with_model (with_status None) rt)).

(** *** File system: save *)

(** The part of [save] after the [await]. *)
Definition save_body : Js unit :=
  update (fun rt => log (SavingSet true) (with_model (with_saving true) rt));;
  setStatus Saving;;
  start ← performanceNow;
  ns ← get nodes; fs ← get files; ts ← get tags;
  w ← writeLibrary {| lib_nodes := ns; lib_files := fs; lib_tags := ts;
                      lib_version := LIBRARY_VERSION |};
  update (fun rt => log (PromiseSet (Some w)) (with_model (with_savePromise (Some w)) rt));;
  finish ← performanceNow;
  statusID ← setStatus (Saved (finish - start));
  setTimeout statusID.

(** A call of [save()], up to the point where it returns to its caller:
    with a pending [savePromise] it parks at the [await]; otherwise it
    runs its body at once. *)
Definition save : Js unit :=
  p ← get savePromise;
  match p with
  | Some p => suspend_on p
  | None => save_body
  end.

(** *** Nodes *)

Definition addNode (node : Node) : Js unit :=
  ns ← get nodes;
  update (with_model (with_nodes (ns ++ [node]))).

Definition getNextIndex : Js Z :=
  ns ← get nodes; mret (Z.of_nat (length ns)).

(** [if (tags?.length == 0) tags = undefined]. *)
Definition drop_empty (tgs : option (list jsstring)) : option (list jsstring) :=
  match tgs with
  | Some [] => None
  | _ => tgs
  end.

Definition addTextNode (text : jsstring) (timeStamp : Timestamp)
    (parent : option ID) (tgs : option (list jsstring)) : Js Node :=
  id ← uuidv4;
  i ← getNextIndex;
  let node := {| node_id := id; variant := TextNode text; created := timeStamp;
                 modified := timeStamp; node_tags := drop_empty tgs; index := i;
                 parentID := parent; depth := None |} in
  addNode node;;
  save;;
  mret node.

Definition addFile (file : File) : Js unit :=
  fs ← get files;
  update (with_model (with_files (fs ++ [file]))).

Definition addImageNode (file : File) (timeStamp : Timestamp)
    (parent : option ID) (tgs : option (list jsstring)) : Js Node :=
  id ← uuidv4;
  i ← getNextIndex;
  let node := {| node_id := id; variant := ImageNode (file_id file) None;
                 created := timeStamp; modified := timeStamp;
                 node_tags := drop_empty tgs; index := i;
                 parentID := parent; depth := None |} in
  addFile file;;
  addNode node;;
  save;;
  mret node.

Definition addDirectoryNode (dir : jsstring) (timeStamp : Timestamp)
    (parent : option ID) (tgs : option (list jsstring)) : Js Node :=
  id ← uuidv4;
  i ← getNextIndex;
  let node := {| node_id := id; variant := DirectoryNode dir; created := timeStamp;
                 modified := timeStamp; node_tags := drop_empty tgs; index := i;
                 parentID := parent; depth := None |} in
  addNode node;;
  mret node.

(** The object literal of [addAnchorNode] has no [tags] property. *)
Definition addAnchorNode (anchor : AnchorContent) (timeStamp : Timestamp)
    (parent : option ID) (tgs : option (list jsstring)) : Js Node :=
  id ← uuidv4;
  i ← getNextIndex;
  let node := {| node_id := id; variant := AnchorNode anchor; created := timeStamp;
                 modified := timeStamp; node_tags := None; index := i;
                 parentID := parent; depth := None |} in
  addNode node;;
  save;;
  mret node.

(** *** Files *)

Definition has_file_id (fileID : ID) (f : File) : bool := str_eqb (file_id f) fileID.

(** [this.files.get()[found].id] throws a TypeError when no file has the
    id: [found] is -1 and the element is [undefined]. *)
Definition removeFile (fileID : ID) : Js unit :=
  fs ← get files;
  let found := findIndex (has_file_id fileID) fs in
  match at_index fs found with
  | None => throw TypeError
  | Some f =>
      update (log (BlobRemoved (file_id f)));;
      fs ← get files;
      update (with_model (with_files (splice1 (findIndex (has_file_id fileID) fs) fs)));;
      save
  end.

Definition getFile (fileID : ID) : Js (option File) :=
  fs ← get files; mret (find (has_file_id fileID) fs).

(** *** Nodes, continued *)

Definition has_node_id (id : ID) (n : Node) : bool := str_eqb (node_id n) id.

(** The loop of [removeNode] over the remaining nodes. *)
Definition renumber (removed : Z) (n : Node) : Node :=
  if index n >? removed then with_index (index n - 1) n else n.

(** [found.type] throws a TypeError when no node has the id. *)
Definition removeNode (id : ID) : Js unit :=
  ns ← get nodes;
  let foundIndex := findIndex (has_node_id id) ns in
  match at_index ns foundIndex with
  | None => throw TypeError
  | Some found =>
      match variant found with
      | ImageNode fileID _ => removeFile fileID
      | AnchorNode anchor =>
          match contentImageFileID anchor with
          | Some fileID => removeFile fileID
          | None => mret tt
          end
      | _ => mret tt
      end;;
      let removed := index found in
      ns ← get nodes;
      update (with_model (with_nodes
        (map (renumber removed) (splice1 (findIndex (has_node_id id) ns) ns))));;
      save
  end.

Definition getNode (id : option ID) : Js (option Node) :=
  ns ← get nodes; mret (find (fun n => opt_str_eqb (Some (node_id n)) id) ns).

Definition getChildNodes (parent : option ID) : Js (list Node) :=
  ns ← get nodes; mret (filter (fun n => parentID n = parent) ns).

Definition getChildDirectories (parent : option ID) : Js (list Node) :=
  ns ← get nodes;
  mret (filter (fun n => type n = Directory /\ parentID n = parent) ns).

(** [n[foundIndex].parentID = parentID] throws a TypeError inside the
    producer when no node has the id; nothing is published then. *)
Definition setParent (id : ID) (parent : ID) : Js unit :=
  ns ← get nodes;
  let foundIndex := findIndex (has_node_id id) ns in
  match at_index ns foundIndex with
  | None => throw TypeError
  | Some n =>
      update (with_model (with_nodes
        (<[Z.to_nat foundIndex := with_parentID (Some parent) n]> ns)));;
      save
  end.

End Methods.

Section Methods2.

Context (host : Host).

(** *** Paths *)

(** The [while] loop of [getPath], bounded by [fuel] iterations. *)
Fixpoint getPath_loop (fuel : nat) (ns : list Node)
    (dirs : list (option jsstring)) (dirID : option ID)
    : Completion (list (option jsstring)) :=
  match dirID with
  | None => Normal dirs
  | Some d =>
      match fuel with
      | O => OutOfFuel
      | S fuel' =>
          match find (has_node_id d) ns with
          | None => Throw Error
          | Some found => getPath_loop fuel' ns (name found :: dirs) (parentID found)
          end
      end
  end.

Definition getPath (fuel : nat) (directoryID : ID) : Js jsstring :=
  ns ← get nodes;
  if str_eqb directoryID ReservedID.Trash then mret (lit "Trash")
  else fun rt =>
    match getPath_loop fuel ns [] (Some directoryID) with
    | Normal dirs => (rt, Normal (lit "/" ++ JsString.join (lit "/") dirs))
    | Throw e => (rt, Throw e)
    | OutOfFuel => (rt, OutOfFuel)
    end.

(** *** Tags *)

Definition createTag (nm : jsstring) : Js ID :=
  id ← uuidv4 host;
  ts ← get tags;
  update (with_model (with_tags (ts ++ [{| tag_id := id; tag_name := nm |}])));;
  save host;;
  mret id.

Definition findTag (nm : jsstring) : Js (option Tag) :=
  ts ← get tags;
  mret (find (fun t => JsString.equal_accent (tag_name t) nm) ts).

Definition getTag (id : ID) : Js (option Tag) :=
  ts ← get tags; mret (find (fun t => str_eqb (tag_id t) id) ts).

(** *** Directories *)

Definition is_directory_named (parent : option ID) (nm : jsstring) (n : Node) : bool :=
  bool_decide (type n = Directory)
  && opt_str_eqb (parentID n) parent
  && match name n with
     | Some s => JsString.equal_accent s nm
     | None => false
     end.

Definition findDirectory (parent : option ID) (nm : jsstring) : Js (option Node) :=
  ns ← get nodes; mret (find (is_directory_named parent nm) ns).

(** One iteration of the loop of [createDirectory]. *)
Definition createDirectory_step (parent : option ID) (dir : jsstring) : Js (option ID) :=
  found ← findDirectory parent dir;
  match found with
  | None =>
      t ← now host;
      n ← addDirectoryNode host dir t parent None;
      mret (Some (node_id n))
  | Some n => mret (Some (node_id n))
  end.

Fixpoint createDirectory_loop (dirs : list jsstring) (parent : option ID) : Js (option ID) :=
  match dirs with
  | [] => mret parent
  | dir :: rest =>
      parent' ← createDirectory_step parent dir;
      createDirectory_loop rest parent'
  end.

(** [createDirectory], run from its call to the settling of its promise
    with no other job of the page between its [await]s. *)
Definition createDirectory (path : jsstring) : Js (option ID) :=
  let dirs := filter (fun d => (0 < length d)%nat) (JsString.split 47 path) in
  parent ← createDirectory_loop dirs None;
  save host;;
  mret parent.

(** ** The event loop *)

(** Promise [w] is fulfilled: the calls of [save] parked on it become
    jobs, in the order in which they were parked. *)
Definition settle (w : nat) : Js unit := fun rt =>
  ({| model := model rt; uuid_draws := uuid_draws rt; now_reads := now_reads rt;
      perf_reads := perf_reads rt; writes_issued := writes_issued rt;
      in_flight := in_flight rt;
      suspended := filter (fun p => p <> w) (suspended rt);
      microtasks := microtasks rt
                    ++ map (fun _ => SaveResumed) (filter (fun p => p = w) (suspended rt));
      timers := timers rt; trace := trace rt |},
   Normal tt).

Definition run_task (t : Task) : Js unit :=
  match t with
  | WriteSettled w =>
      update (fun rt => log (PromiseSet None) (with_model (with_savePromise None) rt));;
      update (fun rt => log (SavingSet false) (with_model (with_saving false) rt));;
      settle w
  | SaveResumed => save_body host
  end.

Definition with_microtasks (q : list Task) (rt : Runtime) : Runtime :=
  {| model := model rt; uuid_draws := uuid_draws rt; now_reads := now_reads rt;
     perf_reads := perf_reads rt; writes_issued := writes_issued rt;
     in_flight := in_flight rt; suspended := suspended rt;
     microtasks := q; timers := timers rt; trace := trace rt |}.

Fixpoint run_microtasks (fuel : nat) (rt : Runtime) : Runtime :=
  match fuel with
  | O => rt
  | S fuel' =>
      match microtasks rt with
      | [] => rt
      | t :: q => run_microtasks fuel' (state_of (run_task t (with_microtasks q rt)))
      end
  end.

(** The microtask checkpoint: the queue is run until it is empty.  A job
    adds jobs only by taking calls out of [suspended], which bounds the
    number of jobs that can run. *)
Definition drain (rt : Runtime) : Runtime :=
  run_microtasks (length (microtasks rt) + length (suspended rt)) rt.

(** A script of the page: it runs to completion, then the queue is
    drained. *)
Definition script {A} (m : Js A) (rt : Runtime) : Runtime :=
  drain (state_of (m rt)).

(** The host reports the completion of write [w]. *)
Definition host_completes (w : nat) (rt : Runtime) : Runtime :=
  if bool_decide (w ∈ in_flight rt) then
    drain {| model := model rt; uuid_draws := uuid_draws rt; now_reads := now_reads rt;
             perf_reads := perf_reads rt; writes_issued := writes_issued rt;
             in_flight := filter (fun v => v <> w) (in_flight rt);
             suspended := suspended rt;
             microtasks := microtasks rt ++ [WriteSettled w];
             timers := timers rt; trace := trace rt ++ [WriteEnd w] |}
  else rt.

(** The timeout set by [save] for status [statusID] fires. *)
Definition timer_fires (statusID : ID) (rt : Runtime) : Runtime :=
  if bool_decide (statusID ∈ timers rt) then
    let rt' :=
      {| model := model rt; uuid_draws := uuid_draws rt; now_reads := now_reads rt;
         perf_reads := perf_reads rt; writes_issued := writes_issued rt;
         in_flight := in_flight rt; suspended := suspended rt;
         microtasks := microtasks rt;
         timers := filter (fun s => s <> statusID) (timers rt); trace := trace rt |} in
    match status (model rt') with
    | Some s => if str_eqb (status_id s) statusID then script clearStatus rt' else drain rt'
    | None => drain rt'
    end
  else rt.

End Methods2.

(** *** Reading a trace *)

(** The writes in flight after each event of a trace, from none. *)
Fixpoint in_flight_after (open : list nat) (tr : list Event) : list (list nat) :=
  match tr with
  | [] => []
  | e :: rest =>
      let open' := match e with
                   | WriteStart w _ => open ++ [w]
                   | WriteEnd w => filter (fun v => v <> w) open
                   | _ => open
                   end in
      open' :: in_flight_after open' rest
  end.

(** No write starts while another is in flight. *)
Definition serialized (tr : list Event) : bool :=
  forallb (fun open => (length open <=? 1)%nat) (in_flight_after [] tr).

Definition is_write_start (e : Event) : bool :=
  match e with WriteStart _ _ => true | _ => false end.

Definition writes_started (tr : list Event) : nat :=
  length (List.filter is_write_start tr).

(** Position of the first event satisfying [p]. *)
Definition position (p : Event -> bool) (tr : list Event) : Z := findIndex p tr.


(** *** File system: loadLibrary *)

(** What [JSON.parse] makes of the text the host read, once
    [validateLibrary] has accepted it: each collection, or [undefined]. *)
Record ParsedLibrary := {
  parsed_nodes : option (list Node);
  parsed_files : option (list File);
  parsed_tags : option (list Tag)
}.

(** [loadLibrary], from the point where [validateLibrary(data)] has
    returned.  The objects of [data] are those that [JSON.parse] built:
    they are not frozen. *)
Definition loadLibrary (data : ParsedLibrary) : Js unit :=
  update (with_model (set_nodes (default [] (parsed_nodes data))));;
  update (with_model (with_files (default [] (parsed_files data))));;
  update (with_model (with_tags (default [] (parsed_tags data)))).

(** ** The navigation tree (renderer/tree.ts) *)

(** [createTree] receives node objects from the model and writes to them,
    so it is modelled on references: a node object of the published
    snapshot is named by its slot in the array [nodes.get()], which no
    step of [createTree] replaces. *)

(** The result [[node, children]]: [node] refers to an object of the
    snapshot. *)
#[warnings="-register-all"] Inductive NestedNodeArray :=
| Nested (node : nat) (children : list NestedNodeArray).

Definition root (t : NestedNodeArray) : nat :=
  match t with Nested r _ => r end.

Definition children (t : NestedNodeArray) : list NestedNodeArray :=
  match t with Nested _ cs => cs end.

(** Slot of the first element satisfying [p]: the object [l.find(p)]
    returns. *)
Fixpoint find_slot {A} (p : A -> bool) (l : list A) : option nat :=
  match l with
  | [] => None
  | x :: rest => if p x then Some O else S <$> find_slot p rest
  end.

(** Slots of the elements satisfying [p], in order: the objects
    [l.filter(p)] returns. *)
Fixpoint filter_slots {A} (p : A -> bool) (from : nat) (l : list A) : list nat :=
  match l with
  | [] => []
  | x :: rest =>
      if p x then from :: filter_slots p (S from) rest
      else filter_slots p (S from) rest
  end.

Definition is_node (id : option ID) (n : Node) : bool :=
  opt_str_eqb (Some (node_id n)) id.

Definition is_child_of (parent : option ID) (n : Node) : bool :=
  opt_str_eqb (parentID n) parent.

Section Tree.

(** The body of the [for] loop, over the objects [getChildNodes]
    returned; [visit] is the recursive call. *)
Fixpoint createTree_children (visit : ID -> Js NestedNodeArray) (cs : list nat)
    : Js (list NestedNodeArray) :=
  match cs with
  | [] => mret []
  | c :: rest =>
      ns ← get nodes;
      match ns !! c with
      | None => throw TypeError
      | Some child =>
          if bool_decide (type child = Directory) then
            t ← visit (node_id child);
            ts ← createTree_children visit rest;
            mret (t :: ts)
          else createTree_children visit rest
      end
  end.

(** [createTree(model, parentID, depth)], with at most [fuel] nested
    calls.  [node.depth = depth] throws a TypeError when [getNode]
    returned [undefined], and when the object is frozen (the module is
    in strict mode): that is, on every snapshot that [produce] made. *)
Fixpoint createTree (fuel : nat) (parent : option ID) (d : Z) : Js NestedNodeArray :=
  match fuel with
  | O => fun rt => (rt, OutOfFuel)
  | S fuel' =>
      ns ← get nodes;
      match find_slot (is_node parent) ns with
      | None => throw TypeError
      | Some r =>
          frozen ← get nodes_frozen;
          if (frozen : bool) then throw TypeError
          else
            update (with_model (mutate_nodes (alter (with_depth (Some d)) r ns)));;
            ns ← get nodes;
            cs ← createTree_children
                   (fun id => createTree fuel' (Some id) (d + 1))
                   (filter_slots (is_child_of parent) 0 ns);
            mret (Nested r cs)
      end
  end.

End Tree.


(** ** Runs of the page

    What can happen to a model between two observations: a script calls
    one of the methods and the microtask queue is drained, the host
    completes a write, or a status timeout fires. *)

Inductive Step :=
| AddText (text : jsstring) (timeStamp : Timestamp) (parent : option ID)
    (tgs : option (list jsstring))
| AddImage (file : File) (timeStamp : Timestamp) (parent : option ID)
    (tgs : option (list jsstring))
| AddDirectory (dir : jsstring) (timeStamp : Timestamp) (parent : option ID)
    (tgs : option (list jsstring))
| AddAnchor (anchor : AnchorContent) (timeStamp : Timestamp) (parent : option ID)
    (tgs : option (list jsstring))
| RemoveNode (id : ID)
| SetParent (id : ID) (parent : ID)
| CreateDirectory (path : jsstring)
| CreateTag (nm : jsstring)
| Save
| HostCompletes (w : nat)
| TimerFires (statusID : ID).

Definition step (host : Host) (s : Step) (rt : Runtime) : Runtime :=
  match s with
  | AddText text t parent tgs => script host (addTextNode host text t parent tgs) rt
  | AddImage file t parent tgs => script host (addImageNode host file t parent tgs) rt
  | AddDirectory dir t parent tgs => script host (addDirectoryNode host dir t parent tgs) rt
  | AddAnchor anchor t parent tgs => script host (addAnchorNode host anchor t parent tgs) rt
  | RemoveNode id => script host (removeNode host id) rt
  | SetParent id parent => script host (setParent host id parent) rt
  | CreateDirectory path => script host (createDirectory host path) rt
  | CreateTag nm => script host (createTag host nm) rt
  | Save => script host (save host) rt
  | HostCompletes w => host_completes host w rt
  | TimerFires statusID => timer_fires host statusID rt
  end.

Definition run (host : Host) (steps : list Step) (rt : Runtime) : Runtime :=
  fold_left (fun rt s => step host s rt) steps rt.

(** The index values [0, 1, ..., n-1]. *)
Definition indices_below (n : nat) : list Z := map Z.of_nat (seq 0 n).

(** The [index] values of the nodes are a permutation of [0, N). *)
Definition dense (ns : list Node) : Prop :=
  Permutation (map index ns) (indices_below (length ns)).

(** The first element satisfying [p] taken out. *)
Fixpoint remove_first {A} (p : A -> bool) (l : list A) : list A :=
  match l with
  | [] => []
  | x :: rest => if p x then rest else x :: remove_first p rest
  end.

(** The file a node owns: the one [removeNode] removes with it. *)
Definition owned_file (n : Node) : option ID :=
  match variant n with
  | ImageNode fileID _ => Some fileID
  | AnchorNode anchor => contentImageFileID anchor
  | _ => None
  end.

(** The ids passed to [bridge.removeFile], in order. *)
Definition blobs_removed (tr : list Event) : list ID :=
  omap (fun e => match e with BlobRemoved f => Some f | _ => None end) tr.

(** ** A host for the worked examples *)

(** Identifiers "id0", "id1", ...: distinct for distinct draws. *)
Definition example_host : Host :=
  {| uuid_src := fun k => lit "id" ++ [N.of_nat (48 + k)];
     bridge_now := fun k => 1000 + Z.of_nat k;
     performance_now := fun k => Z.of_nat k |}.

Definition example_file : File :=
  {| file_id := lit "f1"; file_type := lit "image/png"; file_name := None;
     file_url := None; file_modified := None; file_accessed := 7 |}.

(** ** Vocabulary of the properties *)

Definition nodes_of (rt : Runtime) : list Node := nodes (model rt).

(** The three collections of the library and the blobs removed from the
    host. *)
Definition store (rt : Runtime) : list Node * list File * list Tag * list ID :=
  (nodes (model rt), files (model rt), tags (model rt), blobs_removed (trace rt)).

(** [keeps F m]: running [m] leaves the observation [F] of the state as
    it was, whatever the completion. *)
Definition keeps {X A} (F : Runtime -> X) (m : Js A) : Prop :=
  forall rt, F (state_of (m rt)) = F rt.

(** The effect of the renumbering loop on an index value. *)
Definition shift (removed i : Z) : Z := if i >? removed then i - 1 else i.

(** A typed constructor appends one node, whose index is the node count
    before the call, and returns it. *)
Definition appends_indexed {A} (m : Js A) (result : A -> Node) : Prop :=
  forall rt, exists rt' a,
    m rt = (rt', Normal a)
    /\ nodes_of rt' = nodes_of rt ++ [result a]
    /\ index (result a) = Z.of_nat (length (nodes_of rt)).

Definition preserves (P : list Node -> Prop) {A} (m : Js A) : Prop :=
  forall rt, P (nodes_of rt) -> P (nodes_of (state_of (m rt))).


(** A short session: three nodes are added (a text note, an image with
    its file, a directory), then the text note is removed. *)
Definition example_session : list Step :=
  [ AddText (lit "hello") 1 None None;
    AddImage example_file 2 None (Some [lit "t"]);
    AddDirectory (lit "docs") 3 None None;
    RemoveNode (lit "id0") ].

(** The store after an image node with its file has been added. *)
Definition example_with_image : Runtime :=
  run example_host [AddImage example_file 2 None None] initial.

(** The store after three nested directories have been created. *)
Definition example_with_directories : Runtime :=
  run example_host [CreateDirectory (lit "A/B/C")] initial.

(** "café", with a precomposed e-acute (U+00E9). *)
Definition cafe_accented : jsstring := lit "caf" ++ [233%N].

(** "CAFÉ" (U+00C9). *)
Definition cafe_accented_upper : jsstring := lit "CAF" ++ [201%N].

(** The store after the tag "café" has been created. *)
Definition example_with_tag : Runtime :=
  run example_host [CreateTag cafe_accented] initial.

(** The parent chain of a directory, resolved: the nodes from the root
    down to the node with id [d]. *)
Inductive Resolves (ns : list Node) : ID -> list Node -> Prop :=
| Resolves_root d n :
    find (has_node_id d) ns = Some n -> parentID n = None ->
    Resolves ns d [n]
| Resolves_step d n p chain :
    find (has_node_id d) ns = Some n -> parentID n = Some p ->
    Resolves ns p chain ->
    Resolves ns d (chain ++ [n]).

(** The parent chain of [d] reaches an id that no node has. *)
Inductive Broken (ns : list Node) : ID -> Prop :=
| Broken_here d :
    find (has_node_id d) ns = None -> Broken ns d
| Broken_above d n p :
    find (has_node_id d) ns = Some n -> parentID n = Some p ->
    Broken ns p ->
    Broken ns d.

(** A directory node as [createDirectory] makes it. *)
Definition example_dir (id nm : jsstring) (t : Timestamp) (i : Z) (parent : option ID)
    : Node :=
  {| node_id := id; variant := DirectoryNode nm; created := t; modified := t;
     node_tags := None; index := i; parentID := parent; depth := None |}.

Definition dir_A : Node := example_dir (lit "id0") (lit "A") 1000 0 None.
Definition dir_B : Node := example_dir (lit "id1") (lit "B") 1001 1 (Some (lit "id0")).
Definition dir_C : Node := example_dir (lit "id2") (lit "C") 1002 2 (Some (lit "id1")).

(** ** Vocabulary of the tree properties *)

(** The [depth] property of the object in slot [x], if it has one. *)
Definition depth_at (ns : list Node) (x : nat) : option Z :=
  match ns !! x with
  | Some n => depth n
  | None => None
  end.

(** [after] holds the objects of [before], slot by slot, some of them with
    a [depth] property written to them. *)
Definition depth_written (before after : list Node) : Prop :=
  Forall2 (fun n n' => n' = n \/ exists d, n' = with_depth (Some d) n) before after.

Definition is_directory_at (ns : list Node) (x : nat) : bool :=
  match ns !! x with
  | Some n => bool_decide (type n = Directory)
  | None => false
  end.

(** The child nodes of [parent] that are directories, as slots, in the
    order of the array. *)
Definition child_directory_slots (ns : list Node) (parent : option ID) : list nat :=
  List.filter (is_directory_at ns) (filter_slots (is_child_of parent) 0 ns).

(** [t] is the tree of directories below the directory in slot [r]: its
    node is that directory, and its subtrees are the trees of the child
    directories of that directory, one for each and in their order. *)
#[warnings="-register-all"] Inductive directory_tree (ns : list Node) : nat -> NestedNodeArray -> Prop :=
| directory_tree_node r n cs :
    ns !! r = Some n ->
    type n = Directory ->
    Forall2 (directory_tree ns) (child_directory_slots ns (Some (node_id n))) cs ->
    directory_tree ns r (Nested r cs).

(** The node objects of a tree, each with the depth of its place in the
    tree, the first at depth [d]. *)
Fixpoint labelled (d : Z) (t : NestedNodeArray) : list (nat * Z) :=
  match t with
  | Nested r cs => (r, d) :: flat_map (labelled (d + 1)) cs
  end.

(** Slot of the node that the [parentID] of the node in slot [j] names. *)
Definition parent_slot (ns : list Node) (j : nat) : option nat :=
  match ns !! j with
  | Some n =>
      match parentID n with
      | Some p => find_slot (is_node (Some p)) ns
      | None => None
      end
  | None => None
  end.

(** Number of parent links from slot [j] up to a node without a
    resolvable parent, if at most [fuel] nodes are on the way. *)
Fixpoint level (fuel : nat) (ns : list Node) (j : nat) : option nat :=
  match fuel with
  | O => None
  | S fuel' =>
      match parent_slot ns j with
      | None => Some O
      | Some r => S <$> level fuel' ns r
      end
  end.

(** The parent links form a forest: from every node they lead to a root
    without passing twice through a node. *)
Definition forest (ns : list Node) : bool :=
  forallb (fun j => bool_decide (is_Some (level (length ns) ns j))) (seq 0 (length ns)).

Definition lvl (ns : list Node) (j : nat) : nat :=
  default O (level (length ns) ns j).

(** A test that does not read [depth] finds the same slots whatever depth
    fields have been written. *)
Definition blind (p : Node -> bool) : Prop :=
  forall n d, p (with_depth d n) = p n.

(** The store of the tree example: directory D ("id0") with a child
    directory E ("id1") and a text note ("id4") in D. *)
Definition example_with_tree : Runtime :=
  run example_host
      [CreateDirectory (lit "D/E"); AddText (lit "T") 5 (Some (lit "id0")) None]
      initial.

(** The library of [example_with_tree] read back in a new session: the
    same nodes, as objects that [JSON.parse] built. *)
Definition example_loaded_tree : Runtime :=
  state_of (loadLibrary
              {| parsed_nodes := Some (nodes (model example_with_tree));
                 parsed_files := Some (files (model example_with_tree));
                 parsed_tags := Some (tags (model example_with_tree)) |}
              initial).

(** The depth that a call of [createTree] on slot [r0] with depth [d0]
    gives to slot [x]: [d0] plus the number of levels from [r0] down to
    [x]. *)
Definition level_depth (ns : list Node) (d0 : Z) (r0 x : nat) : Z :=
  d0 + Z.of_nat (lvl ns x) - Z.of_nat (lvl ns r0).

(** A labelled object of a tree is a directory of [ns0] and carries its
    label as depth in [ns']. *)
Definition annotated (ns0 : list Node) (D : nat -> Z) (ns' : list Node)
    (xd : nat * Z) : Prop :=
  snd xd = D (fst xd)
  /\ depth_at ns' (fst xd) = Some (snd xd)
  /\ is_directory_at ns0 (fst xd) = true.

(** From [ns] to [ns'], a depth field kept its value or was set to the
    depth [D] gives its slot. *)
Definition settled (D : nat -> Z) (ns ns' : list Node) : Prop :=
  forall x, depth_at ns' x = depth_at ns x \/ depth_at ns' x = Some (D x).

(** With [fuel] nested calls allowed, [createTree] on any directory that
    is at most [fuel] levels above the deepest possible level returns the
    tree of that directory, annotated. *)
Definition visits_ok (ns0 : list Node) (D : nat -> Z) (fuel : nat) : Prop :=
  forall r n rt,
    nodes_frozen (model rt) = false ->
    depth_written ns0 (nodes_of rt) ->
    ns0 !! r = Some n ->
    type n = Directory ->
    (length ns0 - lvl ns0 r <= fuel)%nat ->
    exists rt' t,
      createTree fuel (Some (node_id n)) (D r) rt = (rt', Normal t)
      /\ directory_tree ns0 r t
      /\ Forall (annotated ns0 D (nodes_of rt')) (labelled (D r) t)
      /\ settled D (nodes_of rt) (nodes_of rt').

Definition dir_D : Node := example_dir (lit "id0") (lit "D") 1000 0 None.

(** Two snapshots hold the same objects up to their depth fields. *)
Definition similar (ns1 ns2 : list Node) : Prop :=
  map (with_depth None) ns1 = map (with_depth None) ns2.

(** No call of [createTree] on [parent] with at most [fuel] nested calls
    returns, on any snapshot similar to [ns]. *)
Definition no_return (fuel : nat) (parent : option ID) (ns : list Node) : Prop :=
  forall fuel' d rt rt' t,
    (fuel' <= fuel)%nat -> similar (nodes_of rt) ns ->
    createTree fuel' parent d rt <> (rt', Normal t).

(** A call on another id that returns leaves the depth of slot [r]
    alone. *)
Definition leaves_slot (parent : option ID) (r : nat) (fuel : nat) : Prop :=
  forall q d rt rt' t,
    createTree fuel q d rt = (rt', Normal t) ->
    q <> parent ->
    find_slot (is_node parent) (nodes_of rt) = Some r ->
    no_return fuel parent (nodes_of rt) ->
    depth_at (nodes_of rt') r = depth_at (nodes_of rt) r.

(** Three calls of [save] in one script. *)
Definition three_saves (host : Host) : Js unit :=
  save host;; save host;; save host.

(** [n] calls of [save] in one script. *)
Fixpoint saves (host : Host) (n : nat) : Js unit :=
  match n with
  | O => mret tt
  | S k => save host;; saves host k
  end.

(** [n] more calls of [save] parked on promise [p]. *)
Definition park (p n : nat) (rt : Runtime) : Runtime :=
  {| model := model rt; uuid_draws := uuid_draws rt; now_reads := now_reads rt;
     perf_reads := perf_reads rt; writes_issued := writes_issued rt;
     in_flight := in_flight rt; suspended := suspended rt ++ repeat p n;
     microtasks := microtasks rt; timers := timers rt; trace := trace rt |}.

(** The document written from the empty store. *)
Definition empty_library : Library :=
  {| lib_nodes := []; lib_files := []; lib_tags := []; lib_version := LIBRARY_VERSION |}.

(** ** Vocabulary of the further properties *)

(** After the constructor call [m], which returns the node it made,
    [getNode] answers as before for every other id; for the id of the new
    node it returns the new node when no node had that id, and the older
    node when one had. *)
Definition added_node_found (m : Js Node) : Prop :=
  forall rt, exists rt' n,
    m rt = (rt', Normal n)
    /\ nodes (model rt') = nodes (model rt) ++ [n]
    /\ (forall id, id <> node_id n ->
          completion_of (getNode (Some id) rt') = completion_of (getNode (Some id) rt))
    /\ (~ In (node_id n) (map node_id (nodes (model rt))) ->
        completion_of (getNode (Some (node_id n)) rt') = Normal (Some n))
    /\ (forall old, completion_of (getNode (Some (node_id n)) rt) = Normal (Some old) ->
          completion_of (getNode (Some (node_id n)) rt') = Normal (Some old)).

(** ** Paths of created directories *)

(** The parent chain of the directory that [createDirectory] has reached:
    empty before the first segment. *)
Definition chain_to (ns : list Node) (parent : option ID) (chain : list Node) : Prop :=
  match parent with
  | None => chain = []
  | Some p => Resolves ns p chain
  end.

(** A directory node whose name the collator equates with [dir]. *)
Definition directory_like (n : Node) (dir : jsstring) : Prop :=
  type n = Directory
  /\ exists s, name n = Some s /\ JsString.equal_accent s dir = true.

(** The ids of the store are distinct, and the next [k] ids that
    [uuidv4] gives are distinct from them and from each other. *)
Definition fresh_ids (host : Host) (k : nat) (rt : Runtime) : Prop :=
  NoDup (map node_id (nodes_of rt) ++ map (uuid_src host) (seq (uuid_draws rt) k)).

(** ** The save handle over a run *)

(** The part of the state that [save] and the event loop work on. *)
Definition save_state (rt : Runtime)
    : bool * option nat * nat * list nat * list nat * list Task :=
  (saving (model rt), savePromise (model rt), writes_issued rt, in_flight rt,
   suspended rt, microtasks rt).

(** The [saving] flag is up exactly when the handle is set; the handle
    names the newest write, which is in flight; every parked call of
    [save] awaits a write in flight; the writes in flight have been
    issued. *)
Definition handle_ok (rt : Runtime) : Prop :=
  (saving (model rt) = true <-> savePromise (model rt) <> None)
  /\ (forall w, savePromise (model rt) = Some w ->
        writes_issued rt = S w /\ w ∈ in_flight rt)
  /\ (forall p, p ∈ suspended rt -> p ∈ in_flight rt)
  /\ (forall w, w ∈ in_flight rt -> (w < writes_issued rt)%nat).

(** The page between two events: no job is queued. *)
Definition quiescent (rt : Runtime) : Prop := microtasks rt = [] /\ handle_ok rt.

(** [maintains I m]: from a state in which [I] holds, [m] ends in a state
    in which [I] holds, whatever the completion. *)
Definition maintains (I : Runtime -> Prop) {A} (m : Js A) : Prop :=
  forall rt, I rt -> I (state_of (m rt)).

(** The nodes snapshot and the state of its objects. *)
Definition snapshot (rt : Runtime) : list Node * bool :=
  (nodes (model rt), nodes_frozen (model rt)).

(** The snapshot is the empty array the model starts with, or one that
    [produce] made. *)
Definition published (rt : Runtime) : Prop :=
  nodes (model rt) = [] \/ nodes_frozen (model rt) = true.

(** ** What has been written *)

(** The documents passed to [bridge.writeLibrary], in order. *)
Definition documents (tr : list Event) : list Library :=
  omap (fun e => match e with WriteStart _ doc => Some doc | _ => None end) tr.

(** The document that [save] writes from the store as it is. *)
Definition document (rt : Runtime) : Library :=
  {| lib_nodes := nodes (model rt); lib_files := files (model rt);
     lib_tags := tags (model rt); lib_version := LIBRARY_VERSION |}.

(** The last document written is the store as it is; before the first
    write, the store is empty. *)
Definition written (rt : Runtime) : Prop :=
  match last (documents (trace rt)) with
  | Some doc => doc = document rt
  | None => document rt = empty_library
  end.

(** Every change has been written, or a parked call of [save] is still to
    write it. *)
Definition flushed (rt : Runtime) : Prop := suspended rt = [] -> written rt.

(** [establishes I m]: [m] ends in a state in which [I] holds, from any
    state and whatever the completion. *)
Definition establishes (I : Runtime -> Prop) {A} (m : Js A) : Prop :=
  forall rt, I (state_of (m rt)).

(** [m] completes normally from every state. *)
Definition always_returns {A} (m : Js A) : Prop :=
  forall rt, exists rt' a, m rt = (rt', Normal a).

(** The steps whose method calls [save] after its change: all but a
    direct call of [addDirectoryNode]. *)
Definition ends_with_save (s : Step) : bool :=
  match s with
  | AddDirectory _ _ _ _ => false
  | _ => true
  end.

(** * The earlier version of the model

    The earlier version of the class keeps the three collections and the
    [saving] flag only.  Its [save] returns at once while the flag is up,
    and awaits the write it starts. *)

Module Legacy.

(** What the methods read of a node: its id, and for an image node the
    id of its file.  [OtherNode] stands for a node of another type, or
    without type. *)
Inductive Variant :=
| TextNode (content : jsstring)
| ImageNode (fileID : ID)
| OtherNode.

Record Node := {
  node_id : ID;
  variant : Variant;
  node_tags : option (list jsstring);
  created : Z;            (* a Date, in milliseconds *)
  modified : Z
}.

Record File := {
  file_id : ID;
  file_type : jsstring;
  file_name : option jsstring;
  file_url : option jsstring
}.

(** The document [save] writes. *)
Record Library := {
  lib_nodes : list Node;
  lib_files : list File;
  lib_tags : list Tag
}.

Record Model := {
  nodes : list Node;
  files : list File;
  tags : list Tag;
  saving : bool
}.

Definition initial_model : Model :=
  {| nodes := []; files := []; tags := []; saving := false |}.

(** The identifiers [uuidv4()] draws and the readings of [new Date()],
    each as a function of the number of earlier calls. *)
Record Host := {
  uuid_src : nat -> ID;
  date_now : nat -> Z
}.

Inductive Event :=
| SavingSet (b : bool)                 (* saving.set(b) *)
| WriteStart (w : nat) (doc : Library) (* bridge.writeLibrary called *)
| WriteEnd (w : nat)                   (* the host completed write w *)
| BlobRemoved (f : ID).                (* bridge.removeFile called *)

(** Each write in flight is awaited by the call of [save] that started
    it. *)
Record Runtime := {
  model : Model;
  uuid_draws : nat;
  date_reads : nat;
  writes_issued : nat;
  in_flight : list nat;
  trace : list Event
}.

Definition initial : Runtime :=
  {| model := initial_model; uuid_draws := 0; date_reads := 0; writes_issued := 0;
     in_flight := []; trace := [] |}.

Definition with_model (f : Model -> Model) (rt : Runtime) : Runtime :=
  {| model := f (model rt); uuid_draws := uuid_draws rt; date_reads := date_reads rt;
     writes_issued := writes_issued rt; in_flight := in_flight rt; trace := trace rt |}.

Definition log (e : Event) (rt : Runtime) : Runtime :=
  {| model := model rt; uuid_draws := uuid_draws rt; date_reads := date_reads rt;
     writes_issued := writes_issued rt; in_flight := in_flight rt;
     trace := trace rt ++ [e] |}.

Definition with_nodes (ns : list Node) (m : Model) : Model :=
  {| nodes := ns; files := files m; tags := tags m; saving := saving m |}.

Definition with_files (fs : list File) (m : Model) : Model :=
  {| nodes := nodes m; files := fs; tags := tags m; saving := saving m |}.

Definition with_tags (ts : list Tag) (m : Model) : Model :=
  {| nodes := nodes m; files := files m; tags := ts; saving := saving m |}.

Definition with_saving (b : bool) (m : Model) : Model :=
  {| nodes := nodes m; files := files m; tags := tags m; saving := b |}.

Definition Js (A : Type) : Type := Runtime -> Runtime * Completion A.

#[local] Instance Js_ret : MRet Js := fun A a rt => (rt, Normal a).

#[local] Instance Js_bind : MBind Js := fun A B k m rt =>
  match m rt with
  | (rt', Normal a) => k a rt'
  | (rt', Throw e) => (rt', Throw e)
  | (rt', OutOfFuel) => (rt', OutOfFuel)
  end.

Definition throw {A} (e : Exn) : Js A := fun rt => (rt, Throw e).

Definition get {A} (f : Model -> A) : Js A := fun rt => (rt, Normal (f (model rt))).

Definition update (f : Runtime -> Runtime) : Js unit := fun rt => (f rt, Normal tt).

Definition state_of {A} (r : Runtime * Completion A) : Runtime := fst r.
Definition completion_of {A} (r : Runtime * Completion A) : Completion A := snd r.

Section Methods.

Context (host : Host).

Definition uuidv4 : Js ID := fun rt =>
  ({| model := model rt; uuid_draws := S (uuid_draws rt); date_reads := date_reads rt;
      writes_issued := writes_issued rt; in_flight := in_flight rt; trace := trace rt |},
   Normal (uuid_src host (uuid_draws rt))).

(** [new Date()]. *)
Definition newDate : Js Z := fun rt =>
  ({| model := model rt; uuid_draws := uuid_draws rt; date_reads := S (date_reads rt);
      writes_issued := writes_issued rt; in_flight := in_flight rt; trace := trace rt |},
   Normal (date_now host (date_reads rt))).

(** [bridge.writeLibrary(doc)]: the host starts a write. *)
Definition writeLibrary (doc : Library) : Js nat := fun rt =>
  let w := writes_issued rt in
  ({| model := model rt; uuid_draws := uuid_draws rt; date_reads := date_reads rt;
      writes_issued := S w; in_flight := in_flight rt ++ [w];
      trace := trace rt ++ [WriteStart w doc] |},
   Normal w).

(** A call of [save()], up to the point where it returns to its caller:
    at once when the flag is up, otherwise at the [await] of the write it
    has started. *)
Definition save : Js unit :=
  s ← get saving;
  if (s : bool) then mret tt
  else
    update (fun rt => log (SavingSet true) (with_model (with_saving true) rt));;
    ns ← get nodes; fs ← get files; ts ← get tags;
    writeLibrary {| lib_nodes := ns; lib_files := fs; lib_tags := ts |};;
    mret tt.

(** The host reports the completion of write [w]: the call of [save]
    that awaits it resumes and takes the flag down. *)
Definition host_completes (w : nat) (rt : Runtime) : Runtime :=
  if bool_decide (w ∈ in_flight rt) then
    log (SavingSet false)
      (with_model (with_saving false)
         {| model := model rt; uuid_draws := uuid_draws rt;
            date_reads := date_reads rt; writes_issued := writes_issued rt;
            in_flight := filter (fun v => v <> w) (in_flight rt);
            trace := trace rt ++ [WriteEnd w] |})
  else rt.

Definition addNode (node : Node) : Js unit :=
  ns ← get nodes;
  update (with_model (with_nodes (ns ++ [node]))).

Definition addFile (file : File) : Js unit :=
  fs ← get files;
  update (with_model (with_files (fs ++ [file]))).

Definition addTextNode (text : jsstring) (tgs : option (list jsstring)) : Js unit :=
  now ← newDate;
  id ← uuidv4;
  addNode {| node_id := id; variant := TextNode text; node_tags := drop_empty tgs;
             created := now; modified := now |};;
  save.

Definition addImageNode (file : File) (tgs : option (list jsstring)) : Js unit :=
  now ← newDate;
  id ← uuidv4;
  addFile file;;
  addNode {| node_id := id; variant := ImageNode (file_id file);
             node_tags := drop_empty tgs; created := now; modified := now |};;
  save.

Definition has_file_id (fileID : ID) (f : File) : bool := str_eqb (file_id f) fileID.

Definition has_node_id (id : ID) (n : Node) : bool := str_eqb (node_id n) id.

(** [this.files.get()[found].id] throws a TypeError when no file has the
    id. *)
Definition removeFile (fileID : ID) : Js unit :=
  fs ← get files;
  match at_index fs (findIndex (has_file_id fileID) fs) with
  | None => throw TypeError
  | Some f =>
      update (log (BlobRemoved (file_id f)));;
      fs ← get files;
      update (with_model (with_files (splice1 (findIndex (has_file_id fileID) fs) fs)));;
      save
  end.

(** [found.type] throws a TypeError when no node has the id. *)
Definition removeNode (id : ID) : Js unit :=
  ns ← get nodes;
  match at_index ns (findIndex (has_node_id id) ns) with
  | None => throw TypeError
  | Some found =>
      match variant found with
      | ImageNode fileID => removeFile fileID
      | _ => mret tt
      end;;
      ns ← get nodes;
      update (with_model (with_nodes (splice1 (findIndex (has_node_id id) ns) ns)));;
      save
  end.

Definition getFile (fileID : ID) : Js (option File) :=
  fs ← get files; mret (find (has_file_id fileID) fs).

Definition createTag (nm : jsstring) : Js ID :=
  id ← uuidv4;
  ts ← get tags;
  update (with_model (with_tags (ts ++ [{| tag_id := id; tag_name := nm |}])));;
  save;;
  mret id.

Definition findTag (nm : jsstring) : Js (option Tag) :=
  ts ← get tags;
  mret (find (fun t => JsString.equal_accent (tag_name t) nm) ts).

(** The bodies of [removeTag], [findDirectory] and [createDirectory] are
    still to be written: the calls return [undefined] and change
    nothing. *)
Definition removeTag (id : ID) : Js unit := mret tt.

Definition findDirectory : Js unit := mret tt.

Definition createDirectory (path : jsstring) : Js unit := mret tt.

End Methods.

(** What can happen to the model between two observations: a script
    calls a method, or the host completes a write. *)
Inductive Step :=
| AddText (text : jsstring) (tgs : option (list jsstring))
| AddImage (file : File) (tgs : option (list jsstring))
| RemoveNode (id : ID)
| RemoveFile (fileID : ID)
| CreateTag (nm : jsstring)
| CreateDirectory (path : jsstring)
| Save
| HostCompletes (w : nat).

Definition step (host : Host) (s : Step) (rt : Runtime) : Runtime :=
  match s with
  | AddText text tgs => state_of (addTextNode host text tgs rt)
  | AddImage file tgs => state_of (addImageNode host file tgs rt)
  | RemoveNode id => state_of (removeNode id rt)
  | RemoveFile fileID => state_of (removeFile fileID rt)
  | CreateTag nm => state_of (createTag host nm rt)
  | CreateDirectory path => state_of (createDirectory path rt)
  | Save => state_of (save rt)
  | HostCompletes w => host_completes w rt
  end.

Definition run (host : Host) (steps : list Step) (rt : Runtime) : Runtime :=
  fold_left (fun rt s => step host s rt) steps rt.

Definition is_script (s : Step) : bool :=
  match s with HostCompletes _ => false | _ => true end.

(** The writes in flight after an event, from those before it. *)
Definition next_open (open : list nat) (e : Event) : list nat :=
  match e with
  | WriteStart w _ => open ++ [w]
  | WriteEnd w => filter (fun v => v <> w) open
  | _ => open
  end.

(** The writes in flight after each event of a trace. *)
Fixpoint in_flight_after (open : list nat) (tr : list Event) : list (list nat) :=
  match tr with
  | [] => []
  | e :: rest => next_open open e :: in_flight_after (next_open open e) rest
  end.

(** The writes in flight at the end of a trace. *)
Definition open_after (open : list nat) (tr : list Event) : list nat :=
  fold_left next_open tr open.

(** No write starts while another is in flight. *)
Definition serialized (tr : list Event) : bool :=
  forallb (fun open => (length open <=? 1)%nat) (in_flight_after [] tr).

(** The documents written, in order. *)
Definition documents (tr : list Event) : list Library :=
  omap (fun e => match e with WriteStart _ doc => Some doc | _ => None end) tr.

(** [maintains I m]: from a state in which [I] holds, [m] ends in a state
    in which [I] holds, whatever the completion. *)
Definition maintains (I : Runtime -> Prop) {A} (m : Js A) : Prop :=
  forall rt, I rt -> I (state_of (m rt)).

(** At most one write is in flight, the flag is up exactly then, and the
    trace recorded it so. *)
Definition one_write (rt : Runtime) : Prop :=
  open_after [] (trace rt) = in_flight rt
  /\ serialized (trace rt) = true
  /\ (length (in_flight rt) <= 1)%nat
  /\ (saving (model rt) = true <-> in_flight rt <> []).

(** A write is under way, and the documents written are [docs]. *)
Definition busy (docs : list Library) (rt : Runtime) : Prop :=
  saving (model rt) = true /\ documents (trace rt) = docs.

Definition example_host : Host :=
  {| uuid_src := fun k => lit "id" ++ [N.of_nat (48 + k)];
     date_now := fun k => 1000 + Z.of_nat k |}.

Definition example_file : File :=
  {| file_id := lit "f1"; file_type := lit "image/png"; file_name := None;
     file_url := None |}.

(** One image has been added and its write has completed. *)
Definition example_with_image : Runtime :=
  run example_host [AddImage example_file None; HostCompletes 0] initial.

(** A text note has been added and its write is under way. *)
Definition example_writing : Runtime :=
  run example_host [AddText (lit "a") None] initial.

End Legacy.
(** * Properties *)

(** ** Arrays *)

Lemma findIndex_range {A} (p : A -> bool) (l : list A) :
  findIndex p l = -1 \/ 0 <= findIndex p l < Z.of_nat (length l).
Proof.
  induction l as [|x l IH]; simpl; [now left|].
  destruct (p x); [right; lia|].
  destruct (Z.ltb_spec (findIndex p l) 0); [now left|right; lia].
Qed.

Lemma findIndex_find {A} (p : A -> bool) (l : list A) :
  at_index l (findIndex p l) = find p l.
Proof.
  unfold at_index. induction l as [|x l IH]; simpl; [reflexivity|].
  destruct (p x); [reflexivity|].
  destruct (findIndex_range p l) as [E|R].
  - rewrite E in *. simpl in *. exact IH.
  - destruct (Z.ltb_spec (findIndex p l) 0) as [?|_]; [lia|].
    destruct (Z.ltb_spec (findIndex p l + 1) 0) as [?|_]; [lia|].
    destruct (Z.ltb_spec (findIndex p l) 0) as [?|_]; [lia|].
    replace (Z.to_nat (findIndex p l + 1)) with (S (Z.to_nat (findIndex p l))) by lia.
    exact IH.
Qed.

(** When an element is found, the array splits around its first
    occurrence. *)
Lemma findIndex_split {A} (p : A -> bool) (l : list A) (x : A) :
  find p l = Some x ->
  exists l1 l2, l = l1 ++ x :: l2 /\ p x = true
    /\ Forall (fun y => p y = false) l1
    /\ findIndex p l = Z.of_nat (length l1).
Proof.
  induction l as [|y l IH]; simpl; [discriminate|].
  destruct (p y) eqn:Py.
  - intros [= ->]. exists [], l. repeat split; auto.
  - intros Hf. destruct (IH Hf) as (l1 & l2 & -> & Px & Hl1 & Hi).
    exists (y :: l1), l2. repeat split; auto.
    rewrite Hi. destruct (Z.ltb_spec (Z.of_nat (length l1)) 0); [lia|].
    simpl length. lia.
Qed.

Lemma find_none_findIndex {A} (p : A -> bool) (l : list A) :
  find p l = None -> findIndex p l = -1.
Proof.
  induction l as [|y l IH]; simpl; [reflexivity|].
  destruct (p y); [discriminate|]. intros H. rewrite (IH H). reflexivity.
Qed.

Lemma splice1_middle {A} (l1 l2 : list A) (x : A) :
  splice1 (Z.of_nat (length l1)) (l1 ++ x :: l2) = l1 ++ l2.
Proof.
  unfold splice1.
  destruct (Z.ltb_spec (Z.of_nat (length l1)) 0); [lia|].
  rewrite length_app. simpl length.
  replace (Z.to_nat (Z.min _ _)) with (length l1) by lia.
  rewrite take_app_length.
  replace (S (length l1)) with (length (l1 ++ [x])) by (rewrite length_app; simpl; lia).
  replace (l1 ++ x :: l2) with ((l1 ++ [x]) ++ l2) by (rewrite <- app_assoc; reflexivity).
  rewrite drop_app_length. reflexivity.
Qed.

Lemma splice1_findIndex {A} (p : A -> bool) (l : list A) (x : A) :
  find p l = Some x -> splice1 (findIndex p l) l = remove_first p l.
Proof.
  intros Hf. destruct (findIndex_split p l x Hf) as (l1 & l2 & -> & Px & Hl1 & ->).
  rewrite splice1_middle. clear Hf.
  induction Hl1 as [|y l1 Py _ IH]; simpl.
  - now rewrite Px.
  - now rewrite Py, IH.
Qed.

Lemma remove_first_split {A} (p : A -> bool) (l1 l2 : list A) (x : A) :
  p x = true -> Forall (fun y => p y = false) l1 ->
  remove_first p (l1 ++ x :: l2) = l1 ++ l2.
Proof.
  intros Px Hl1. induction Hl1 as [|y l1 Py _ IH]; simpl.
  - now rewrite Px.
  - now rewrite Py, IH.
Qed.

(** ** Reasoning on method bodies *)


Lemma keeps_bind {X A B} (F : Runtime -> X) (m : Js A) (k : A -> Js B) :
  keeps F m -> (forall a, keeps F (k a)) -> keeps F (m ≫= k).
Proof.
  intros Hm Hk rt. unfold mbind, Js_bind. specialize (Hm rt).
  destruct (m rt) as [rt' [a|e|]]; simpl in *; auto.
  rewrite Hk. exact Hm.
Qed.

Lemma keeps_ret {X A} (F : Runtime -> X) (a : A) : keeps F (mret a).
Proof. intros rt. reflexivity. Qed.

Lemma keeps_throw {X A} (F : Runtime -> X) (e : Exn) : keeps F (@throw A e).
Proof. intros rt. reflexivity. Qed.

Lemma keeps_get {X A} (F : Runtime -> X) (f : Model -> A) : keeps F (get f).
Proof. intros rt. reflexivity. Qed.

Lemma keeps_update {X} (F : Runtime -> X) (f : Runtime -> Runtime) :
  (forall rt, F (f rt) = F rt) -> keeps F (update f).
Proof. intros H rt. apply H. Qed.



Lemma blobs_removed_snoc tr e :
  blobs_removed (tr ++ [e])
  = blobs_removed tr ++ match e with BlobRemoved f => [f] | _ => [] end.
Proof.
  unfold blobs_removed. rewrite omap_app. simpl. destruct e; reflexivity.
Qed.

Ltac store_same :=
  unfold store; simpl; rewrite ?blobs_removed_snoc; simpl; rewrite ?app_nil_r;
  reflexivity.

Ltac keeps_step :=
  lazymatch goal with
  | |- keeps _ (mret _) => apply keeps_ret
  | |- keeps _ (throw _) => apply keeps_throw
  | |- keeps _ (get _) => apply keeps_get
  | |- keeps _ (update _) => apply keeps_update; intros ?; store_same
  | |- keeps _ (_ ≫= _) => apply keeps_bind; [|intros ?]
  | |- keeps _ _ => intros ?; store_same
  end.

Ltac keeps_auto := repeat keeps_step.

Section Frames.

Context (host : Host) {X : Type} (F : Runtime -> X).

(** [F] reads the model's collections only. *)
Hypothesis F_store : forall rt rt', store rt = store rt' -> F rt = F rt'.

Lemma keeps_of_store {A} (m : Js A) : keeps store m -> keeps F m.
Proof. intros H rt. apply F_store, H. Qed.

Lemma setStatus_keeps msg : keeps F (setStatus host msg).
Proof. apply keeps_of_store. unfold setStatus. keeps_auto. Qed.

Lemma save_body_keeps : keeps F (save_body host).
Proof.
  apply keeps_of_store. unfold save_body, setStatus. keeps_auto.
Qed.

Lemma save_keeps : keeps F (save host).
Proof.
  unfold save. apply keeps_bind; [keeps_auto|]. intros [p|].
  - apply keeps_of_store. intros rt. store_same.
  - apply save_body_keeps.
Qed.

Lemma run_task_keeps t : keeps F (run_task host t).
Proof.
  destruct t; simpl.
  - apply keeps_of_store. keeps_auto.
  - apply save_body_keeps.
Qed.

Lemma run_microtasks_keeps fuel rt : F (run_microtasks host fuel rt) = F rt.
Proof.
  revert rt. induction fuel as [|fuel IH]; intros rt; simpl; [reflexivity|].
  destruct (microtasks rt) as [|t q]; [reflexivity|].
  rewrite IH, run_task_keeps. apply F_store. store_same.
Qed.

Lemma drain_keeps rt : F (drain host rt) = F rt.
Proof. apply run_microtasks_keeps. Qed.

Lemma host_completes_keeps w rt : F (host_completes host w rt) = F rt.
Proof.
  unfold host_completes. case_bool_decide; [|reflexivity].
  rewrite drain_keeps. apply F_store. store_same.
Qed.

Lemma timer_fires_keeps s rt : F (timer_fires host s rt) = F rt.
Proof.
  unfold timer_fires. case_bool_decide; [|reflexivity]. simpl.
  destruct (status (model rt)) as [st|].
  - destruct (str_eqb (status_id st) s).
    + unfold script. rewrite drain_keeps. apply F_store. store_same.
    + rewrite drain_keeps. apply F_store. store_same.
  - rewrite drain_keeps. apply F_store. store_same.
Qed.

End Frames.

(** ** Completions of the persistence methods *)

Ltac js_unfold :=
  unfold mbind, Js_bind, mret, Js_ret, get, update, throw, state_of, completion_of in *.

(** The state in which the part of [save] after its [await] ends. *)
Lemma save_body_state (host : Host) (rt : Runtime) :
  save_body host rt
  = ({| model :=
          {| nodes := nodes (model rt); files := files (model rt);
             tags := tags (model rt); saving := true;
             savePromise := Some (writes_issued rt);
             status := Some {| status_id := uuid_src host (S (uuid_draws rt));
                               message := Saved (performance_now host (S (perf_reads rt))
                                                 - performance_now host (perf_reads rt)) |};
             nodes_frozen := nodes_frozen (model rt) |};
        uuid_draws := S (S (uuid_draws rt));
        now_reads := now_reads rt;
        perf_reads := S (S (perf_reads rt));
        writes_issued := S (writes_issued rt);
        in_flight := in_flight rt ++ [writes_issued rt];
        suspended := suspended rt;
        microtasks := microtasks rt;
        timers := timers rt ++ [uuid_src host (S (uuid_draws rt))];
        trace :=
          trace rt
          ++ [SavingSet true;
              StatusSet (Some {| status_id := uuid_src host (uuid_draws rt);
                                 message := Saving |});
              WriteStart (writes_issued rt)
                {| lib_nodes := nodes (model rt); lib_files := files (model rt);
                   lib_tags := tags (model rt); lib_version := LIBRARY_VERSION |};
              PromiseSet (Some (writes_issued rt));
              StatusSet (Some {| status_id := uuid_src host (S (uuid_draws rt));
                                 message := Saved (performance_now host (S (perf_reads rt))
                                                   - performance_now host (perf_reads rt)) |})] |},
     Normal tt).
Proof.
  assert (E : forall (tr : list Event) e1 e2 e3 e4 e5,
             tr ++ [e1; e2; e3; e4; e5]
             = ((((tr ++ [e1]) ++ [e2]) ++ [e3]) ++ [e4]) ++ [e5])
    by (intros; rewrite <- !app_assoc; reflexivity).
  rewrite E. reflexivity.
Qed.

Section Save.

Context (host : Host).

Lemma setStatus_run msg rt :
  exists rt', setStatus host msg rt = (rt', Normal (uuid_src host (uuid_draws rt)))
    /\ store rt' = store rt.
Proof.
  unfold setStatus, uuidv4. js_unfold. simpl. eexists. split; [reflexivity|].
  store_same.
Qed.

Lemma save_body_run rt :
  exists rt', save_body host rt = (rt', Normal tt) /\ store rt' = store rt.
Proof.
  rewrite save_body_state. eexists. split; [reflexivity|].
  unfold store, blobs_removed; cbn [model trace nodes files tags].
  rewrite omap_app. simpl. rewrite app_nil_r. reflexivity.
Qed.

(** A call of [save] returns to its caller without an exception and
    leaves the collections alone. *)
Lemma save_run rt :
  exists rt', save host rt = (rt', Normal tt) /\ store rt' = store rt.
Proof.
  unfold save. js_unfold. destruct (savePromise (model rt)) as [p|].
  - unfold suspend_on. eexists. split; [reflexivity|]. store_same.
  - apply save_body_run.
Qed.


End Save.

Lemma store_nodes rt rt' : store rt = store rt' -> nodes_of rt = nodes_of rt'.
Proof. unfold store, nodes_of. congruence. Qed.

Lemma store_files rt rt' : store rt = store rt' -> files (model rt) = files (model rt').
Proof. unfold store. congruence. Qed.

Lemma store_tags rt rt' : store rt = store rt' -> tags (model rt) = tags (model rt').
Proof. unfold store. congruence. Qed.

Lemma store_blobs rt rt' :
  store rt = store rt' -> blobs_removed (trace rt) = blobs_removed (trace rt').
Proof. unfold store. congruence. Qed.

(** ** Index density (C3) *)

Lemma indices_below_S n : indices_below (S n) = indices_below n ++ [Z.of_nat n].
Proof. unfold indices_below. rewrite seq_S, map_app. reflexivity. Qed.

Lemma dense_nil : dense [].
Proof. unfold dense. simpl. constructor. Qed.

(** Appending a node whose index is the current count keeps density. *)
Lemma dense_push ns n :
  dense ns -> index n = Z.of_nat (length ns) -> dense (ns ++ [n]).
Proof.
  unfold dense. intros H Hi.
  rewrite map_app, length_app. simpl.
  replace (length ns + 1)%nat with (S (length ns)) by lia.
  rewrite indices_below_S, Hi. apply Permutation_app_tail. exact H.
Qed.


Lemma index_renumber removed n : index (renumber removed n) = shift removed (index n).
Proof. unfold renumber, shift. destruct (index n >? removed); reflexivity. Qed.

Lemma shift_below k n :
  (n <= k)%nat -> map (shift (Z.of_nat k)) (indices_below n) = indices_below n.
Proof.
  intros Hn. unfold indices_below. rewrite map_map.
  apply map_ext_in. intros a Ha. apply in_seq in Ha. unfold shift.
  destruct (Z.gtb_spec (Z.of_nat a) (Z.of_nat k)); [lia|reflexivity].
Qed.

Lemma shift_above k m :
  map (shift (Z.of_nat k)) (map Z.of_nat (seq (S k) m)) = map Z.of_nat (seq k m).
Proof.
  rewrite <- seq_shift, !map_map.
  apply map_ext_in. intros a Ha. apply in_seq in Ha. unfold shift.
  destruct (Z.gtb_spec (Z.of_nat (S a)) (Z.of_nat k)); lia.
Qed.

(** Taking a node out and renumbering the others keeps density. *)
Lemma dense_remove l1 x l2 :
  dense (l1 ++ x :: l2) -> dense (map (renumber (index x)) (l1 ++ l2)).
Proof.
  unfold dense. intros H.
  rewrite length_map.
  assert (Hlen : length (l1 ++ x :: l2) = S (length (l1 ++ l2))).
  { rewrite !length_app. simpl. lia. }
  rewrite Hlen in H. set (n := length (l1 ++ l2)) in *.
  assert (Hin : In (index x) (indices_below (S n))).
  { eapply Permutation_in; [exact H|]. rewrite map_app. apply in_or_app.
    right. left. reflexivity. }
  unfold indices_below in Hin. apply in_map_iff in Hin.
  destruct Hin as (k & Hk & Hks). apply in_seq in Hks.
  assert (Hseq : seq 0 (S n) = seq 0 k ++ k :: seq (S k) (n - k)).
  { replace (S n) with (k + S (n - k))%nat by lia.
    rewrite seq_app. simpl. reflexivity. }
  assert (Hrest : Permutation (map index (l1 ++ l2))
                    (map Z.of_nat (seq 0 k ++ seq (S k) (n - k)))).
  { apply (Permutation_cons_inv (a := index x)).
    transitivity (map index (l1 ++ x :: l2)).
    { rewrite !map_app. simpl. apply Permutation_middle. }
    transitivity (indices_below (S n)); [exact H|].
    unfold indices_below. rewrite Hseq, !map_app. simpl. rewrite Hk.
    symmetry. apply Permutation_middle. }
  rewrite map_map.
  erewrite map_ext; [|intros a; apply index_renumber].
  rewrite <- map_map with (f := index) (g := shift (index x)).
  etransitivity; [apply Permutation_map; exact Hrest|].
  rewrite <- Hk, !map_app, shift_above.
  fold (indices_below k). rewrite shift_below by lia.
  unfold indices_below. rewrite <- map_app.
  replace n with (k + (n - k))%nat at 2 by lia.
  rewrite seq_app. reflexivity.
Qed.

(** ** What the node and file methods do to the collections *)

Ltac after_save host :=
  match goal with
  | |- context [save host ?r] =>
      let rt' := fresh "rt'" in
      let E := fresh "E" in
      let Hs := fresh "Hs" in
      destruct (save_run host r) as (rt' & E & Hs); rewrite E; simpl;
      pose proof (store_nodes _ _ Hs); pose proof (store_files _ _ Hs);
      pose proof (store_tags _ _ Hs); pose proof (store_blobs _ _ Hs)
  end.

Section Collections.

Context (host : Host).


Lemma addTextNode_appends text t parent tgs :
  appends_indexed (addTextNode host text t parent tgs) (fun n => n).
Proof.
  intros rt. unfold addTextNode, addNode, getNextIndex, uuidv4. js_unfold. simpl.
  after_save host. do 2 eexists. split; [reflexivity|].
  split; [|reflexivity]. unfold nodes_of in *. simpl in *. congruence.
Qed.

Lemma addImageNode_appends file t parent tgs :
  appends_indexed (addImageNode host file t parent tgs) (fun n => n).
Proof.
  intros rt. unfold addImageNode, addFile, addNode, getNextIndex, uuidv4.
  js_unfold. simpl.
  after_save host. do 2 eexists. split; [reflexivity|].
  split; [|reflexivity]. unfold nodes_of in *. simpl in *. congruence.
Qed.

Lemma addDirectoryNode_appends dir t parent tgs :
  appends_indexed (addDirectoryNode host dir t parent tgs) (fun n => n).
Proof.
  intros rt. unfold addDirectoryNode, addNode, getNextIndex, uuidv4.
  js_unfold. simpl. do 2 eexists. split; [reflexivity|].
  split; reflexivity.
Qed.

Lemma addAnchorNode_appends anchor t parent tgs :
  appends_indexed (addAnchorNode host anchor t parent tgs) (fun n => n).
Proof.
  intros rt. unfold addAnchorNode, addNode, getNextIndex, uuidv4. js_unfold. simpl.
  after_save host. do 2 eexists. split; [reflexivity|].
  split; [|reflexivity]. unfold nodes_of in *. simpl in *. congruence.
Qed.

(** [removeFile]: a TypeError and no effect when no record has the id;
    otherwise one call of [bridge.removeFile] and the first record
    with the id taken out. *)
Lemma removeFile_run fileID rt :
  match find (has_file_id fileID) (files (model rt)) with
  | None => removeFile host fileID rt = (rt, Throw TypeError)
  | Some f =>
      exists rt', removeFile host fileID rt = (rt', Normal tt)
        /\ nodes_of rt' = nodes_of rt
        /\ files (model rt') = remove_first (has_file_id fileID) (files (model rt))
        /\ tags (model rt') = tags (model rt)
        /\ blobs_removed (trace rt') = blobs_removed (trace rt) ++ [file_id f]
  end.
Proof.
  unfold removeFile. js_unfold. rewrite findIndex_find.
  destruct (find (has_file_id fileID) (files (model rt))) as [f|] eqn:Hf;
    [|reflexivity].
  simpl. after_save host. eexists. split; [reflexivity|].
  unfold nodes_of in *. simpl in *.
  rewrite blobs_removed_snoc in *.
  rewrite (splice1_findIndex _ _ _ Hf) in *. repeat split; congruence.
Qed.

(** [removeNode]: a TypeError and no effect when no node has the id, or
    when the node owns a file that has no record; otherwise the owned
    file is removed, the first node with the id is taken out and the
    others are renumbered. *)
Lemma removeNode_run id rt :
  match find (has_node_id id) (nodes_of rt) with
  | None => removeNode host id rt = (rt, Throw TypeError)
  | Some found =>
      match owned_file found with
      | Some fileID =>
          match find (has_file_id fileID) (files (model rt)) with
          | None => removeNode host id rt = (rt, Throw TypeError)
          | Some f =>
              exists rt', removeNode host id rt = (rt', Normal tt)
                /\ nodes_of rt' = map (renumber (index found))
                                      (remove_first (has_node_id id) (nodes_of rt))
                /\ files (model rt')
                   = remove_first (has_file_id fileID) (files (model rt))
                /\ tags (model rt') = tags (model rt)
                /\ blobs_removed (trace rt') = blobs_removed (trace rt) ++ [file_id f]
          end
      | None =>
          exists rt', removeNode host id rt = (rt', Normal tt)
            /\ nodes_of rt' = map (renumber (index found))
                                  (remove_first (has_node_id id) (nodes_of rt))
            /\ files (model rt') = files (model rt)
            /\ tags (model rt') = tags (model rt)
            /\ blobs_removed (trace rt') = blobs_removed (trace rt)
      end
  end.
Proof.
  unfold removeNode, nodes_of. js_unfold. rewrite findIndex_find.
  destruct (find (has_node_id id) (nodes (model rt))) as [found|] eqn:Hn;
    [|reflexivity].
  assert (Hplain : forall rt0 : Runtime,
    nodes (model rt0) = nodes (model rt) ->
    exists rt', save host
           (with_model (with_nodes (map (renumber (index found))
              (splice1 (findIndex (has_node_id id) (nodes (model rt0)))
                       (nodes (model rt0))))) rt0) = (rt', Normal tt)
      /\ nodes (model rt') = map (renumber (index found))
                                (remove_first (has_node_id id) (nodes (model rt)))
      /\ files (model rt') = files (model rt0)
      /\ tags (model rt') = tags (model rt0)
      /\ blobs_removed (trace rt') = blobs_removed (trace rt0)).
  { intros rt0 Hrt0.
    destruct (save_run host (with_model (with_nodes (map (renumber (index found))
              (splice1 (findIndex (has_node_id id) (nodes (model rt0)))
                       (nodes (model rt0))))) rt0)) as (rt' & E & Hs).
    pose proof (store_nodes _ _ Hs); pose proof (store_files _ _ Hs).
    pose proof (store_tags _ _ Hs); pose proof (store_blobs _ _ Hs).
    exists rt'. split; [exact E|].
    unfold nodes_of in *. simpl in *. rewrite Hrt0 in *.
    rewrite (splice1_findIndex _ _ _ Hn) in *. repeat split; congruence. }
  unfold owned_file.
  destruct (variant found) as [c|fileID dsc|anchor|nm] eqn:Hv; simpl.
  - apply (Hplain rt eq_refl).
  - pose proof (removeFile_run fileID rt) as Hrf. js_unfold.
    destruct (find (has_file_id fileID) (files (model rt))) as [f|].
    + destruct Hrf as (rt1 & -> & Hn1 & Hf1 & Ht1 & Hb1). simpl.
      destruct (Hplain rt1 Hn1) as (rt' & E & ? & ? & ? & ?).
      exists rt'. split; [exact E|]. repeat split; congruence.
    + rewrite Hrf. reflexivity.
  - destruct (contentImageFileID anchor) as [fileID|]; simpl.
    + pose proof (removeFile_run fileID rt) as Hrf. js_unfold.
      destruct (find (has_file_id fileID) (files (model rt))) as [f|].
      * destruct Hrf as (rt1 & -> & Hn1 & Hf1 & Ht1 & Hb1). simpl.
        destruct (Hplain rt1 Hn1) as (rt' & E & ? & ? & ? & ?).
        exists rt'. split; [exact E|]. repeat split; congruence.
      * rewrite Hrf. reflexivity.
    + apply (Hplain rt eq_refl).
  - apply (Hplain rt eq_refl).
Qed.

(** [setParent]: a TypeError and no effect when no node has the id;
    otherwise the first node with the id gets the parent and nothing
    else changes. *)
Lemma setParent_run id parent rt :
  match find (has_node_id id) (nodes_of rt) with
  | None => setParent host id parent rt = (rt, Throw TypeError)
  | Some n =>
      exists rt' i, setParent host id parent rt = (rt', Normal tt)
        /\ findIndex (has_node_id id) (nodes_of rt) = Z.of_nat i
        /\ nodes_of rt !! i = Some n
        /\ nodes_of rt' = <[i := with_parentID (Some parent) n]> (nodes_of rt)
        /\ files (model rt') = files (model rt)
        /\ tags (model rt') = tags (model rt)
  end.
Proof.
  unfold setParent, nodes_of. js_unfold. rewrite findIndex_find.
  destruct (find (has_node_id id) (nodes (model rt))) as [n|] eqn:Hn;
    [|reflexivity].
  destruct (findIndex_split _ _ _ Hn) as (l1 & l2 & Hl & _ & _ & Hi).
  simpl. after_save host. exists rt', (length l1).
  split; [reflexivity|]. split; [exact Hi|].
  unfold nodes_of in *. simpl in *. rewrite Hi, Nat2Z.id in *.
  split; [rewrite Hl; apply list_lookup_middle; reflexivity|].
  repeat split; congruence.
Qed.

End Collections.

(** ** Density is kept by every step *)


Lemma preserves_bind P {A B} (m : Js A) (k : A -> Js B) :
  preserves P m -> (forall a, preserves P (k a)) -> preserves P (m ≫= k).
Proof.
  intros Hm Hk rt HP. unfold mbind, Js_bind. specialize (Hm rt HP).
  destruct (m rt) as [rt' [a|e|]]; simpl in *; auto.
  apply Hk. exact Hm.
Qed.

Lemma preserves_keeps P {A} (m : Js A) : keeps nodes_of m -> preserves P m.
Proof. intros H rt HP. rewrite H. exact HP. Qed.

Lemma preserves_appends {A} (m : Js A) (result : A -> Node) :
  appends_indexed m result -> preserves dense m.
Proof.
  intros H rt HP. destruct (H rt) as (rt' & a & E & Hn & Hi).
  rewrite E. simpl. rewrite Hn. apply dense_push; assumption.
Qed.

Lemma dense_set_parent ns i n parent :
  ns !! i = Some n -> dense ns -> dense (<[i := with_parentID parent n]> ns).
Proof.
  unfold dense. intros Hi H. rewrite length_insert.
  change (map index ?l) with (index <$> l) in *.
  rewrite list_fmap_insert. simpl.
  rewrite list_insert_id; [exact H|].
  rewrite list_lookup_fmap, Hi. reflexivity.
Qed.

Section Density.

Context (host : Host).

Lemma nodes_of_store rt rt' : store rt = store rt' -> nodes_of rt = nodes_of rt'.
Proof. apply store_nodes. Qed.

Lemma removeNode_dense id : preserves dense (removeNode host id).
Proof.
  intros rt HP. pose proof (removeNode_run host id rt) as H.
  destruct (find (has_node_id id) (nodes_of rt)) as [found|] eqn:Hn.
  - destruct (findIndex_split _ _ _ Hn) as (l1 & l2 & Hl & Px & Hl1 & _).
    assert (Hd : dense (map (renumber (index found))
                          (remove_first (has_node_id id) (nodes_of rt)))).
    { rewrite Hl, (remove_first_split _ _ _ _ Px Hl1).
      apply dense_remove. rewrite <- Hl. exact HP. }
    destruct (owned_file found) as [fileID|].
    + destruct (find (has_file_id fileID) (files (model rt))).
      * destruct H as (rt' & E & Hn' & _). rewrite E. simpl.
        rewrite Hn'. exact Hd.
      * rewrite H. exact HP.
    + destruct H as (rt' & E & Hn' & _). rewrite E. simpl.
      rewrite Hn'. exact Hd.
  - rewrite H. exact HP.
Qed.

Lemma setParent_dense id parent : preserves dense (setParent host id parent).
Proof.
  intros rt HP. pose proof (setParent_run host id parent rt) as H.
  destruct (find (has_node_id id) (nodes_of rt)) as [n|].
  - destruct H as (rt' & i & E & _ & Hi & Hn' & _). rewrite E. simpl.
    rewrite Hn'. apply dense_set_parent; assumption.
  - rewrite H. exact HP.
Qed.

Lemma createDirectory_step_dense parent dir :
  preserves dense (createDirectory_step host parent dir).
Proof.
  unfold createDirectory_step. apply preserves_bind.
  - apply preserves_keeps. unfold findDirectory. keeps_auto.
  - intros [n|].
    + apply preserves_keeps. keeps_auto.
    + apply preserves_bind; [apply preserves_keeps; intros rt; reflexivity|].
      intros t. apply preserves_bind.
      * eapply preserves_appends, addDirectoryNode_appends.
      * intros n. apply preserves_keeps. keeps_auto.
Qed.

Lemma createDirectory_loop_dense dirs parent :
  preserves dense (createDirectory_loop host dirs parent).
Proof.
  revert parent. induction dirs as [|dir dirs IH]; intros parent; simpl.
  - apply preserves_keeps. keeps_auto.
  - apply preserves_bind; [apply createDirectory_step_dense|]. intros p. apply IH.
Qed.

Lemma createDirectory_dense path : preserves dense (createDirectory host path).
Proof.
  unfold createDirectory. apply preserves_bind; [apply createDirectory_loop_dense|].
  intros p. apply preserves_bind.
  - apply preserves_keeps, save_keeps, nodes_of_store.
  - intros []. apply preserves_keeps. keeps_auto.
Qed.

Lemma createTag_keeps_nodes nm : keeps nodes_of (createTag host nm).
Proof.
  unfold createTag. apply keeps_bind; [intros rt; reflexivity|]. intros id.
  apply keeps_bind; [keeps_auto|]. intros ts.
  apply keeps_bind; [apply keeps_update; intros rt; reflexivity|]. intros [].
  apply keeps_bind; [apply save_keeps, nodes_of_store|]. intros []. keeps_auto.
Qed.

Lemma script_dense {A} (m : Js A) rt :
  preserves dense m -> dense (nodes_of rt) -> dense (nodes_of (script host m rt)).
Proof.
  intros Hm HP. unfold script.
  rewrite (drain_keeps host nodes_of nodes_of_store). apply Hm, HP.
Qed.

Lemma step_dense s rt : dense (nodes_of rt) -> dense (nodes_of (step host s rt)).
Proof.
  intros HP. destruct s; simpl.
  - apply script_dense; [eapply preserves_appends, addTextNode_appends|exact HP].
  - apply script_dense; [eapply preserves_appends, addImageNode_appends|exact HP].
  - apply script_dense; [eapply preserves_appends, addDirectoryNode_appends|exact HP].
  - apply script_dense; [eapply preserves_appends, addAnchorNode_appends|exact HP].
  - apply script_dense; [apply removeNode_dense|exact HP].
  - apply script_dense; [apply setParent_dense|exact HP].
  - apply script_dense; [apply createDirectory_dense|exact HP].
  - apply script_dense; [apply preserves_keeps, createTag_keeps_nodes|exact HP].
  - apply script_dense; [apply preserves_keeps, save_keeps, nodes_of_store|exact HP].
  - rewrite (host_completes_keeps host nodes_of nodes_of_store). exact HP.
  - rewrite (timer_fires_keeps host nodes_of nodes_of_store). exact HP.
Qed.

Lemma run_dense steps rt :
  dense (nodes_of rt) -> dense (nodes_of (run host steps rt)).
Proof.
  revert rt. induction steps as [|s steps IH]; intros rt HP; simpl; [exact HP|].
  apply IH, step_dense, HP.
Qed.

End Density.

(** C3. After every sequence of steps of the page from the empty store
    (node additions by the four typed constructors, node removals, and
    also reparenting, directory-path creation, tag creation, saves, write
    completions and timeouts), the [index] values of the remaining nodes
    are a permutation of 0, 1, ..., N-1, where N is the number of
    remaining nodes.  In every such state each typed constructor appends
    one node whose [index] is the node count before the call, and a
    removal that completes takes the first node with the id out and
    decrements the [index] of exactly the nodes whose index exceeded the
    removed node's index. *)
Theorem index_density (host : Host) (steps : list Step) :
  let rt := run host steps initial in
  Permutation (map index (nodes (model rt)))
              (map Z.of_nat (seq 0 (length (nodes (model rt)))))
  /\ (forall text t parent tgs, exists rt' n,
        addTextNode host text t parent tgs rt = (rt', Normal n)
        /\ nodes (model rt') = nodes (model rt) ++ [n]
        /\ index n = Z.of_nat (length (nodes (model rt))))
  /\ (forall file t parent tgs, exists rt' n,
        addImageNode host file t parent tgs rt = (rt', Normal n)
        /\ nodes (model rt') = nodes (model rt) ++ [n]
        /\ index n = Z.of_nat (length (nodes (model rt))))
  /\ (forall dir t parent tgs, exists rt' n,
        addDirectoryNode host dir t parent tgs rt = (rt', Normal n)
        /\ nodes (model rt') = nodes (model rt) ++ [n]
        /\ index n = Z.of_nat (length (nodes (model rt))))
  /\ (forall anchor t parent tgs, exists rt' n,
        addAnchorNode host anchor t parent tgs rt = (rt', Normal n)
        /\ nodes (model rt') = nodes (model rt) ++ [n]
        /\ index n = Z.of_nat (length (nodes (model rt))))
  /\ (forall id rt', removeNode host id rt = (rt', Normal tt) ->
        exists found,
          find (has_node_id id) (nodes (model rt)) = Some found
          /\ nodes (model rt')
             = map (fun n => if index n >? index found
                             then with_index (index n - 1) n else n)
                   (remove_first (has_node_id id) (nodes (model rt)))).
Proof.
  intros rt. split; [|repeat split].
  - apply (run_dense host steps initial). apply dense_nil.
  - intros. apply addTextNode_appends.
  - intros. apply addImageNode_appends.
  - intros. apply addDirectoryNode_appends.
  - intros. apply addAnchorNode_appends.
  - intros id rt' Hrun. pose proof (removeNode_run host id rt) as H.
    fold (nodes_of rt) in *.
    destruct (find (has_node_id id) (nodes_of rt)) as [found|];
      [|rewrite H in Hrun; discriminate].
    exists found. split; [reflexivity|].
    destruct (owned_file found) as [fileID|].
    + destruct (find (has_file_id fileID) (files (model rt)));
        [|rewrite H in Hrun; discriminate].
      destruct H as (rt1 & E & Hn & _). rewrite E in Hrun.
      injection Hrun as <-. exact Hn.
    + destruct H as (rt1 & E & Hn & _). rewrite E in Hrun.
      injection Hrun as <-. exact Hn.
Qed.

(** The session of [example_session] ends with two nodes, of indices 0
    and 1. *)
Lemma index_density_witness :
  map index (nodes (model (run example_host example_session initial))) = [0; 1]
  /\ Permutation
       (map index (nodes (model (run example_host example_session initial))))
       (map Z.of_nat (seq 0 (length (nodes (model (run example_host example_session initial)))))).
Proof.
  split; [vm_compute; reflexivity|].
  exact (proj1 (index_density example_host example_session)).
Defined.

(** ** Reparenting (C9) *)

Lemma find_present {A} (p : A -> bool) (l : list A) :
  (exists x, In x l /\ p x = true) -> exists y, find p l = Some y.
Proof.
  intros (x & Hin & Px). destruct (find p l) as [y|] eqn:Hf; [eauto|].
  rewrite (find_none _ _ Hf x Hin) in Px. discriminate.
Qed.

Lemma has_node_id_true id n : has_node_id id n = true <-> node_id n = id.
Proof. unfold has_node_id, str_eqb. apply bool_decide_eq_true. Qed.

Lemma has_file_id_true id f : has_file_id id f = true <-> file_id f = id.
Proof. unfold has_file_id, str_eqb. apply bool_decide_eq_true. Qed.

(** C9. For every node id present in the store, [setParent(id, parent)]
    completes and changes only the [parentID] field of the first node
    with that id: its id, variant (type and content), timestamps, tags,
    index and depth are unchanged, the array keeps its length, every
    other node is unchanged, and so are the files and the tags. *)
Theorem setParent_frame (host : Host) (rt : Runtime) (id parent : ID) :
  In id (map node_id (nodes (model rt))) ->
  exists rt' i old new,
    setParent host id parent rt = (rt', Normal tt)
    /\ nodes (model rt) !! i = Some old
    /\ node_id old = id
    /\ nodes (model rt') !! i = Some new
    /\ parentID new = Some parent
    /\ node_id new = node_id old
    /\ variant new = variant old
    /\ type new = type old
    /\ created new = created old
    /\ modified new = modified old
    /\ node_tags new = node_tags old
    /\ index new = index old
    /\ depth new = depth old
    /\ length (nodes (model rt')) = length (nodes (model rt))
    /\ (forall j, j <> i -> nodes (model rt') !! j = nodes (model rt) !! j)
    /\ files (model rt') = files (model rt)
    /\ tags (model rt') = tags (model rt).
Proof.
  intros Hin. apply in_map_iff in Hin. destruct Hin as (x & Hx & Hin).
  destruct (find_present (has_node_id id) (nodes (model rt))) as (old & Hf).
  { exists x. split; [exact Hin|]. apply has_node_id_true, Hx. }
  pose proof (setParent_run host id parent rt) as H. unfold nodes_of in H.
  rewrite Hf in H. destruct H as (rt' & i & E & _ & Hi & Hn & Hfs & Hts).
  exists rt', i, old, (with_parentID (Some parent) old).
  split; [exact E|]. split; [exact Hi|].
  split; [apply has_node_id_true; eapply find_some; exact Hf|].
  rewrite Hn. split.
  { apply list_lookup_insert_eq. eapply lookup_lt_Some; exact Hi. }
  repeat split; auto.
  - apply length_insert.
  - intros j Hj. apply list_lookup_insert_ne. congruence.
Qed.

(** In the store with directories A, B, C, moving C ("id2") under A
    ("id0"). *)
Lemma setParent_frame_witness :
  In (lit "id2") (map node_id (nodes (model example_with_directories)))
  /\ exists rt' i old new,
       setParent example_host (lit "id2") (lit "id0") example_with_directories
       = (rt', Normal tt)
       /\ nodes (model example_with_directories) !! i = Some old
       /\ node_id old = lit "id2"
       /\ nodes (model rt') !! i = Some new
       /\ parentID new = Some (lit "id0")
       /\ node_id new = node_id old
       /\ variant new = variant old
       /\ type new = type old
       /\ created new = created old
       /\ modified new = modified old
       /\ node_tags new = node_tags old
       /\ index new = index old
       /\ depth new = depth old
       /\ length (nodes (model rt')) = length (nodes (model example_with_directories))
       /\ (forall j, j <> i ->
             nodes (model rt') !! j = nodes (model example_with_directories) !! j)
       /\ files (model rt') = files (model example_with_directories)
       /\ tags (model rt') = tags (model example_with_directories).
Proof.
  assert (H : In (lit "id2") (map node_id (nodes (model example_with_directories)))).
  { vm_compute. right. right. left. reflexivity. }
  split; [exact H|].
  exact (setParent_frame example_host example_with_directories (lit "id2") (lit "id0") H).
Defined.

(** ** Cascade deletion (C5) *)

Lemma remove_first_length {A} (p : A -> bool) (l : list A) (x : A) :
  find p l = Some x -> S (length (remove_first p l)) = length l.
Proof.
  induction l as [|y l IH]; simpl; [discriminate|].
  destruct (p y); [reflexivity|]. intros H. simpl. rewrite (IH H). reflexivity.
Qed.

(** With unique ids, no record with the id is left once the first one
    has been taken out. *)
Lemma remove_first_gone (fileID : ID) (fs : list File) :
  NoDup (map file_id fs) ->
  find (has_file_id fileID) (remove_first (has_file_id fileID) fs) = None.
Proof.
  induction fs as [|f fs IH]; simpl; [reflexivity|].
  intros Hnd. apply NoDup_cons in Hnd. destruct Hnd as [Hf Hnd].
  destruct (has_file_id fileID f) eqn:Hp.
  - apply has_file_id_true in Hp.
    destruct (find (has_file_id fileID) fs) as [g|] eqn:Hg; [|reflexivity].
    apply find_some in Hg. destruct Hg as [Hin Hg].
    apply has_file_id_true in Hg. exfalso. apply Hf.
    rewrite Hp, <- Hg. apply list_elem_of_In, in_map, Hin.
  - simpl. rewrite Hp. apply IH, Hnd.
Qed.

(** C5, as the code has it.  Removing a node that owns a file (an Image
    node through [fileID], an Anchor node through [contentImageFileID])
    whose record is in the store completes, calls [bridge.removeFile]
    exactly once, with that id, and takes exactly one record, the first
    with that id, out of the files.  With unique file ids no record of the
    id is left, and a call of [removeFile] with that id then throws a
    TypeError and changes nothing. *)
Theorem cascade_deletion (host : Host) (rt : Runtime) (id fileID : ID)
    (found : Node) (f : File) :
  find (has_node_id id) (nodes (model rt)) = Some found ->
  owned_file found = Some fileID ->
  find (has_file_id fileID) (files (model rt)) = Some f ->
  exists rt',
    removeNode host id rt = (rt', Normal tt)
    /\ files (model rt') = remove_first (has_file_id fileID) (files (model rt))
    /\ S (length (files (model rt'))) = length (files (model rt))
    /\ blobs_removed (trace rt') = blobs_removed (trace rt) ++ [fileID]
    /\ (NoDup (map file_id (files (model rt))) ->
        find (has_file_id fileID) (files (model rt')) = None
        /\ removeFile host fileID rt' = (rt', Throw TypeError)).
Proof.
  intros Hn Ho Hf. pose proof (removeNode_run host id rt) as H.
  unfold nodes_of in H. rewrite Hn, Ho, Hf in H.
  destruct H as (rt' & E & _ & Hfs & _ & Hb).
  exists rt'. split; [exact E|]. split; [exact Hfs|].
  split; [rewrite Hfs; eapply remove_first_length; exact Hf|].
  split.
  { rewrite Hb. f_equal. f_equal. apply has_file_id_true.
    eapply find_some. exact Hf. }
  intros Hnd.
  assert (Hgone : find (has_file_id fileID) (files (model rt')) = None).
  { rewrite Hfs. apply remove_first_gone, Hnd. }
  split; [exact Hgone|].
  pose proof (removeFile_run host fileID rt') as H. rewrite Hgone in H. exact H.
Qed.

(** The image node "id0" of [example_with_image] owns the file "f1". *)
Lemma cascade_deletion_witness :
  NoDup (map file_id (files (model example_with_image)))
  /\ exists rt',
       removeNode example_host (lit "id0") example_with_image = (rt', Normal tt)
       /\ files (model rt')
          = remove_first (has_file_id (lit "f1")) (files (model example_with_image))
       /\ S (length (files (model rt'))) = length (files (model example_with_image))
       /\ blobs_removed (trace rt')
          = blobs_removed (trace example_with_image) ++ [lit "f1"]
       /\ (NoDup (map file_id (files (model example_with_image))) ->
           find (has_file_id (lit "f1")) (files (model rt')) = None
           /\ removeFile example_host (lit "f1") rt' = (rt', Throw TypeError)).
Proof.
  split; [vm_compute; repeat constructor; intros H; inversion H|].
  eapply (cascade_deletion example_host example_with_image (lit "id0") (lit "f1")).
  - vm_compute. reflexivity.
  - vm_compute. reflexivity.
  - vm_compute. reflexivity.
Defined.

(** C5, as stated, fails: once the image node has been removed, and its
    file with it, an independent call of [removeFile] for that file
    throws. *)
Lemma removeFile_after_node_throws :
  let removed := removeNode example_host (lit "id0") example_with_image in
  completion_of removed = Normal tt
  /\ files (model (state_of removed)) = []
  /\ completion_of (removeFile example_host (lit "f1") (state_of removed))
     = Throw TypeError.
Proof. vm_compute. repeat split. Qed.

(** ** Tag lookup (C2) *)

Lemma find_first {A} (p : A -> bool) (l : list A) :
  match find p l with
  | Some x => exists before after,
      l = before ++ x :: after /\ p x = true
      /\ Forall (fun y => p y = false) before
  | None => Forall (fun y => p y = false) l
  end.
Proof.
  destruct (find p l) as [x|] eqn:Hf.
  - destruct (findIndex_split p l x Hf) as (l1 & l2 & Hl & Px & Hl1 & _). eauto.
  - apply Forall_forall. intros y Hy. apply list_elem_of_In in Hy.
    eapply find_none; eassumption.
Qed.

Lemma elements_upper c :
  JsString.elements (if (97 <=? c)%N && (c <=? 122)%N then (c - 32)%N else c)
  = JsString.elements c.
Proof.
  destruct ((97 <=? c)%N && (c <=? 122)%N) eqn:Hc; [|reflexivity].
  destruct (andb_prop _ _ Hc) as [H1 H2].
  apply N.leb_le in H1. apply N.leb_le in H2.
  assert (Hcases : exists k, (k < 26)%nat /\ c = (97 + N.of_nat k)%N).
  { exists (N.to_nat (c - 97)). split; lia. }
  destruct Hcases as (k & Hk & ->).
  do 26 (destruct k as [|k]; [vm_compute; reflexivity|]). lia.
Qed.

(** The collator ignores the case of ASCII letters. *)
Lemma sort_key_upper s :
  JsString.sort_key (JsString.to_upper_ascii s) = JsString.sort_key s.
Proof.
  unfold JsString.sort_key, JsString.to_upper_ascii.
  rewrite flat_map_concat_map, map_map.
  rewrite (map_ext _ _ elements_upper), <- flat_map_concat_map. reflexivity.
Qed.

Lemma non_zero_app a b :
  JsString.non_zero (a ++ b) = JsString.non_zero a ++ JsString.non_zero b.
Proof. unfold JsString.non_zero. apply filter_app. Qed.

(** The collator tells e-acute from e, wherever it stands. *)
Lemma sort_key_accent a b :
  JsString.sort_key (a ++ [233%N] ++ b) <> JsString.sort_key (a ++ [101%N] ++ b).
Proof.
  unfold JsString.sort_key. rewrite !flat_map_app, !map_app, !non_zero_app.
  intros H. apply (f_equal snd) in H. simpl in H. apply (f_equal length) in H.
  rewrite !length_app in H. revert H.
  change (JsString.non_zero (map snd (flat_map JsString.elements [233%N])))
    with [32%N; 769%N].
  change (JsString.non_zero (map snd (flat_map JsString.elements [101%N])))
    with [32%N].
  simpl length. lia.
Qed.

(** C2, as the code has it.  [findTag] leaves the state alone and returns
    the first tag whose name the collator of sensitivity 'accent' finds
    equal to the given name, or none when there is no such tag.  That
    comparison ignores case (a name and its upper-cased form are
    interchangeable) and tells accented letters from unaccented ones
    (e-acute is not e).  With the tag "café" in the store,
    [findTag("CAFÉ")] returns the tag, and [findTag("Cafe")] and
    [findTag("cafe ")] return none. *)
Theorem findTag_accent_sensitive :
  (forall rt nm,
      exists r, findTag nm rt = (rt, Normal r)
        /\ match r with
           | Some t => exists before after,
               tags (model rt) = before ++ t :: after
               /\ JsString.equal_accent (tag_name t) nm = true
               /\ Forall (fun u => JsString.equal_accent (tag_name u) nm = false) before
           | None =>
               Forall (fun u => JsString.equal_accent (tag_name u) nm = false)
                      (tags (model rt))
           end)
  /\ (forall a b, JsString.equal_accent (JsString.to_upper_ascii a) b
                  = JsString.equal_accent a b)
  /\ (forall a b, JsString.equal_accent (a ++ [233%N] ++ b) (a ++ [101%N] ++ b) = false)
  /\ completion_of (findTag cafe_accented_upper example_with_tag)
     = Normal (Some {| tag_id := lit "id0"; tag_name := cafe_accented |})
  /\ completion_of (findTag (lit "Cafe") example_with_tag) = Normal None
  /\ completion_of (findTag (lit "cafe ") example_with_tag) = Normal None.
Proof.
  split; [|split; [|split; [|split; [|split]]]].
  - intros rt nm. eexists. split; [reflexivity|].
    apply (find_first (fun t => JsString.equal_accent (tag_name t) nm)).
  - intros a b. unfold JsString.equal_accent. rewrite sort_key_upper. reflexivity.
  - intros a b. unfold JsString.equal_accent. apply bool_decide_eq_false.
    apply sort_key_accent.
  - vm_compute. reflexivity.
  - vm_compute. reflexivity.
  - vm_compute. reflexivity.
Qed.

(** C2, as stated, fails: with the tag "café" in the store,
    [findTag("Cafe")] returns none. *)
Lemma findTag_Cafe_none :
  map tag_name (tags (model example_with_tag)) = [cafe_accented]
  /\ completion_of (findTag (lit "Cafe") example_with_tag) = Normal None.
Proof. vm_compute. split; reflexivity. Qed.

(** ** Path resolution (C6) *)

Lemma getPath_loop_resolves ns d chain :
  Resolves ns d chain ->
  forall fuel acc, (length chain <= fuel)%nat ->
    getPath_loop fuel ns acc (Some d) = Normal (map name chain ++ acc).
Proof.
  induction 1 as [d n Hf Hp|d n p chain Hf Hp _ IH]; intros fuel acc Hfuel.
  - destruct fuel as [|fuel]; [simpl in Hfuel; lia|].
    simpl. rewrite Hf, Hp. destruct fuel; reflexivity.
  - rewrite length_app in Hfuel. simpl in Hfuel.
    destruct fuel as [|fuel]; [lia|].
    simpl. rewrite Hf, Hp. rewrite IH by lia.
    rewrite map_app. simpl. rewrite <- app_assoc. reflexivity.
Qed.

Lemma getPath_loop_broken ns d :
  Broken ns d ->
  (exists fuel0, forall fuel acc, (fuel0 <= fuel)%nat ->
      getPath_loop fuel ns acc (Some d) = Throw Error)
  /\ (forall fuel acc dirs, getPath_loop fuel ns acc (Some d) <> Normal dirs).
Proof.
  induction 1 as [d Hf|d n p Hf Hp _ [[fuel0 IH1] IH2]].
  - split.
    + exists 1%nat. intros fuel acc Hfuel. destruct fuel as [|fuel]; [lia|].
      simpl. rewrite Hf. reflexivity.
    + intros [|fuel] acc dirs; simpl; [discriminate|]. rewrite Hf. discriminate.
  - split.
    + exists (S fuel0). intros fuel acc Hfuel. destruct fuel as [|fuel]; [lia|].
      simpl. rewrite Hf, Hp. apply IH1. lia.
    + intros [|fuel] acc dirs; simpl; [discriminate|]. rewrite Hf, Hp. apply IH2.
Qed.

Lemma getPath_not_trash fuel d rt :
  d <> ReservedID.Trash ->
  getPath fuel d rt
  = match getPath_loop fuel (nodes (model rt)) [] (Some d) with
    | Normal dirs => (rt, Normal (lit "/" ++ JsString.join (lit "/") dirs))
    | Throw e => (rt, Throw e)
    | OutOfFuel => (rt, OutOfFuel)
    end.
Proof.
  intros Hd. unfold getPath. js_unfold. unfold str_eqb.
  rewrite bool_decide_eq_false_2 by exact Hd. reflexivity.
Qed.

(** C6. [getPath] returns the literal "Trash" for the reserved id
    whatever the store holds and however few iterations it is allowed;
    for any other id whose parent chain resolves, it returns "/" followed
    by the names along the chain from the root down, joined by "/", once
    it is allowed as many iterations as the chain is long; when the chain
    reaches an id that no node has, it throws an Error once it is allowed
    enough iterations, and it never returns a path. *)
Theorem getPath_resolves (rt : Runtime) :
  (forall fuel, getPath fuel ReservedID.Trash rt = (rt, Normal (lit "Trash")))
  /\ (forall d chain,
        d <> ReservedID.Trash ->
        Resolves (nodes (model rt)) d chain ->
        forall fuel, (length chain <= fuel)%nat ->
          getPath fuel d rt
          = (rt, Normal (lit "/" ++ JsString.join (lit "/") (map name chain))))
  /\ (forall d,
        d <> ReservedID.Trash ->
        Broken (nodes (model rt)) d ->
        (exists fuel0, forall fuel, (fuel0 <= fuel)%nat ->
            getPath fuel d rt = (rt, Throw Error))
        /\ (forall fuel path, completion_of (getPath fuel d rt) <> Normal path)).
Proof.
  split; [|split].
  - intros fuel. reflexivity.
  - intros d chain Hd Hr fuel Hfuel. rewrite (getPath_not_trash _ _ _ Hd).
    rewrite (getPath_loop_resolves _ _ _ Hr) by exact Hfuel.
    rewrite app_nil_r. reflexivity.
  - intros d Hd Hb. destruct (getPath_loop_broken _ _ Hb) as [[fuel0 H1] H2]. split.
    + exists fuel0. intros fuel Hfuel. rewrite (getPath_not_trash _ _ _ Hd).
      rewrite H1 by exact Hfuel. reflexivity.
    + intros fuel path. rewrite (getPath_not_trash _ _ _ Hd).
      specialize (H2 fuel [] ).
      destruct (getPath_loop fuel (nodes (model rt)) [] (Some d)) as [dirs| |];
        simpl; try discriminate.
      exfalso. apply (H2 dirs). reflexivity.
Qed.

Lemma example_with_directories_nodes :
  nodes (model example_with_directories) = [dir_A; dir_B; dir_C].
Proof. vm_compute. reflexivity. Qed.

(** In the store with directories A, B in A and C in B: the path of C,
    the path of the reserved id, and the path of an id that no node
    has. *)
Lemma getPath_resolves_witness :
  getPath 3 (lit "id2") example_with_directories
  = (example_with_directories, Normal (lit "/A/B/C"))
  /\ getPath 0 (lit "trash") example_with_directories
     = (example_with_directories, Normal (lit "Trash"))
  /\ exists fuel0, forall fuel, (fuel0 <= fuel)%nat ->
       getPath fuel (lit "nowhere") example_with_directories
       = (example_with_directories, Throw Error).
Proof.
  destruct (getPath_resolves example_with_directories) as (Htrash & Hpath & Hbroken).
  split; [|split].
  - assert (Hr : Resolves (nodes (model example_with_directories)) (lit "id2")
                   (([dir_A] ++ [dir_B]) ++ [dir_C])).
    { rewrite example_with_directories_nodes.
      apply Resolves_step with (p := lit "id1"); [reflexivity|reflexivity|].
      apply Resolves_step with (p := lit "id0"); [reflexivity|reflexivity|].
      apply Resolves_root; reflexivity. }
    assert (Hd : lit "id2" <> ReservedID.Trash) by (vm_compute; discriminate).
    exact (Hpath (lit "id2") _ Hd Hr 3%nat (le_n 3)).
  - exact (Htrash 0%nat).
  - assert (Hb : Broken (nodes (model example_with_directories)) (lit "nowhere")).
    { rewrite example_with_directories_nodes. apply Broken_here. reflexivity. }
    assert (Hd : lit "nowhere" <> ReservedID.Trash) by (vm_compute; discriminate).
    exact (proj1 (Hbroken (lit "nowhere") Hd Hb)).
Defined.

(** ** Idempotent path creation (C7) *)

Lemma find_app_found {A} (p : A -> bool) (l1 l2 : list A) (x : A) :
  find p l1 = Some x -> find p (l1 ++ l2) = Some x.
Proof.
  induction l1 as [|y l1 IH]; simpl; [discriminate|].
  destruct (p y); [trivial|exact IH].
Qed.

Lemma find_app_fresh {A} (p : A -> bool) (l1 l2 : list A) (x : A) :
  find p l1 = None -> p x = true -> find p (l1 ++ x :: l2) = Some x.
Proof.
  induction l1 as [|y l1 IH]; simpl.
  - intros _ ->. reflexivity.
  - destruct (p y); [discriminate|exact IH].
Qed.

Lemma equal_accent_refl s : JsString.equal_accent s s = true.
Proof. unfold JsString.equal_accent. apply bool_decide_eq_true. reflexivity. Qed.

(** A directory made for a segment is what [findDirectory] looks for. *)
Lemma is_directory_named_new parent dir n :
  variant n = DirectoryNode dir -> parentID n = parent ->
  is_directory_named parent dir n = true.
Proof.
  intros Hv Hp. unfold is_directory_named, type, name, opt_str_eqb. rewrite Hv, Hp.
  rewrite !bool_decide_eq_true_2 by reflexivity. simpl. apply equal_accent_refl.
Qed.

Section PathCreation.

Context (host : Host).

(** One segment: the matching child directory is reused, or a new
    directory is appended under the current parent. *)
Lemma createDirectory_step_run parent dir rt :
  match find (is_directory_named parent dir) (nodes (model rt)) with
  | Some n => createDirectory_step host parent dir rt = (rt, Normal (Some (node_id n)))
  | None =>
      exists rt' n,
        createDirectory_step host parent dir rt = (rt', Normal (Some (node_id n)))
        /\ nodes (model rt') = nodes (model rt) ++ [n]
        /\ variant n = DirectoryNode dir
        /\ parentID n = parent
  end.
Proof.
  unfold createDirectory_step, findDirectory. js_unfold.
  destruct (find (is_directory_named parent dir) (nodes (model rt))) as [n|];
    [reflexivity|].
  unfold now, addDirectoryNode, addNode, getNextIndex, uuidv4. js_unfold. simpl.
  eexists.
  exists {| node_id := uuid_src host (uuid_draws rt); variant := DirectoryNode dir;
            created := bridge_now host (now_reads rt);
            modified := bridge_now host (now_reads rt); node_tags := None;
            index := Z.of_nat (length (nodes (model rt)));
            parentID := parent; depth := None |}.
  split; [reflexivity|]. repeat split.
Qed.

Lemma createDirectory_loop_run dirs parent rt :
  exists rt1 leaf added,
    createDirectory_loop host dirs parent rt = (rt1, Normal leaf)
    /\ nodes (model rt1) = nodes (model rt) ++ added
    /\ Forall (fun n => type n = Directory) added
    /\ (length added <= length dirs)%nat.
Proof.
  revert parent rt. induction dirs as [|dir dirs IH]; intros parent rt; simpl.
  - exists rt, parent, []. rewrite app_nil_r. repeat split; auto.
  - pose proof (createDirectory_step_run parent dir rt) as Hs. js_unfold.
    destruct (find (is_directory_named parent dir) (nodes (model rt))) as [n|].
    + rewrite Hs. destruct (IH (Some (node_id n)) rt) as (rt1 & leaf & added & E & Hn & Hd & Hl).
      exists rt1, leaf, added. repeat split; auto.
    + destruct Hs as (rt' & n & -> & Hn' & Hv & _).
      destruct (IH (Some (node_id n)) rt') as (rt1 & leaf & added & E & Hn & Hd & Hl).
      exists rt1, leaf, (n :: added). split; [exact E|].
      split; [rewrite Hn, Hn', <- app_assoc; reflexivity|].
      split; [|simpl; lia].
      constructor; [unfold type; rewrite Hv; reflexivity|exact Hd].
Qed.


Lemma createDirectory_run path rt :
  exists rt0 rt1 leaf added,
    createDirectory_loop host
      (filter (fun d => (0 < length d)%nat) (JsString.split 47 path)) None rt
    = (rt0, Normal leaf)
    /\ createDirectory host path rt = (rt1, Normal leaf)
    /\ nodes (model rt1) = nodes (model rt0)
    /\ nodes (model rt1) = nodes (model rt) ++ added
    /\ Forall (fun n => type n = Directory) added.
Proof.
  unfold createDirectory.
  destruct (createDirectory_loop_run
              (filter (fun d => (0 < length d)%nat) (JsString.split 47 path)) None rt)
    as (rt0 & leaf & added & E & Hn & Hd & _).
  js_unfold. rewrite E.
  destruct (save_run host rt0) as (rt1 & Es & Hs). rewrite Es.
  exists rt0, rt1, leaf, added. split; [reflexivity|]. split; [reflexivity|].
  pose proof (store_nodes _ _ Hs) as Hn1. unfold nodes_of in Hn1.
  repeat split; congruence.
Qed.

End PathCreation.



(** ** The navigation tree *)

(** *** One step of [createTree] and of its loop *)

Lemma createTree_unfold fuel parent d rt :
  createTree (S fuel) parent d rt
  = match find_slot (is_node parent) (nodes (model rt)) with
    | None => (rt, Throw TypeError)
    | Some r =>
        if nodes_frozen (model rt) then (rt, Throw TypeError)
        else
          let rt1 := with_model
                       (mutate_nodes (alter (with_depth (Some d)) r (nodes (model rt))))
                       rt in
          match createTree_children (fun id => createTree fuel (Some id) (d + 1))
                  (filter_slots (is_child_of parent) 0 (nodes (model rt1))) rt1 with
          | (rt', Normal cs) => (rt', Normal (Nested r cs))
          | (rt', Throw e) => (rt', Throw e)
          | (rt', OutOfFuel) => (rt', OutOfFuel)
          end
    end.
Proof.
  simpl. js_unfold.
  destruct (find_slot (is_node parent) (nodes (model rt))) as [r|]; [|reflexivity].
  destruct (nodes_frozen (model rt)); reflexivity.
Qed.

(** On a snapshot that [produce] made, the assignment throws: the call
    ends at once and nothing is written. *)
Lemma createTree_frozen fuel parent d rt :
  nodes_frozen (model rt) = true ->
  createTree (S fuel) parent d rt = (rt, Throw TypeError).
Proof.
  intros H. rewrite createTree_unfold, H.
  destruct (find_slot (is_node parent) (nodes (model rt))); reflexivity.
Qed.

Lemma createTree_children_cons visit c rest rt :
  createTree_children visit (c :: rest) rt
  = match nodes (model rt) !! c with
    | None => (rt, Throw TypeError)
    | Some child =>
        if bool_decide (type child = Directory) then
          match visit (node_id child) rt with
          | (rt1, Normal t) =>
              match createTree_children visit rest rt1 with
              | (rt2, Normal ts) => (rt2, Normal (t :: ts))
              | (rt2, Throw e) => (rt2, Throw e)
              | (rt2, OutOfFuel) => (rt2, OutOfFuel)
              end
          | (rt1, Throw e) => (rt1, Throw e)
          | (rt1, OutOfFuel) => (rt1, OutOfFuel)
          end
        else createTree_children visit rest rt
    end.
Proof.
  simpl. js_unfold.
  destruct (nodes (model rt) !! c) as [child|]; [|reflexivity].
  destruct (bool_decide (type child = Directory)); [|reflexivity].
  destruct (visit (node_id child) rt) as [rt1 [t|e|]]; reflexivity.
Qed.

(** *** Only depth fields are written *)

Lemma depth_written_refl ns : depth_written ns ns.
Proof. apply Forall2_same_length_lookup_2; [reflexivity|]. intros i x y H1 H2.
  left. congruence. Qed.

Lemma depth_written_trans ns1 ns2 ns3 :
  depth_written ns1 ns2 -> depth_written ns2 ns3 -> depth_written ns1 ns3.
Proof.
  unfold depth_written. intros H12 H23.
  eapply Forall2_trans; [|exact H12|exact H23].
  intros n1 n2 n3 [->|[d1 ->]] [->|[d2 ->]]; eauto.
Qed.

Lemma depth_written_alter ns r d :
  depth_written ns (alter (with_depth (Some d)) r ns).
Proof.
  apply Forall2_same_length_lookup_2; [rewrite length_alter; reflexivity|].
  intros i x y H1 H2. destruct (decide (i = r)) as [->|Hne].
  - rewrite list_lookup_alter_eq, H1 in H2. simpl in H2. injection H2 as <-. eauto.
  - rewrite list_lookup_alter_ne, H1 in H2 by congruence. left. congruence.
Qed.

Lemma depth_written_lookup ns ns' x n' :
  depth_written ns ns' -> ns' !! x = Some n' ->
  exists n, ns !! x = Some n /\ (n' = n \/ exists d, n' = with_depth (Some d) n).
Proof.
  intros H Hx. destruct (Forall2_lookup_r _ _ _ _ _ H Hx) as (n & Hn & Hr). eauto.
Qed.

Lemma depth_written_lookup_l ns ns' x n :
  depth_written ns ns' -> ns !! x = Some n ->
  exists n', ns' !! x = Some n' /\ (n' = n \/ exists d, n' = with_depth (Some d) n).
Proof.
  intros H Hx. destruct (Forall2_lookup_l _ _ _ _ _ H Hx) as (n' & Hn & Hr). eauto.
Qed.


Lemma is_node_blind id : blind (is_node id).
Proof. intros n d. reflexivity. Qed.

Lemma is_child_of_blind parent : blind (is_child_of parent).
Proof. intros n d. reflexivity. Qed.

Lemma find_slot_written p ns ns' :
  blind p -> depth_written ns ns' -> find_slot p ns' = find_slot p ns.
Proof.
  intros Hp H. induction H as [|n n' ns ns' Hn _ IH]; [reflexivity|].
  simpl. rewrite IH.
  destruct Hn as [->|[d ->]]; [reflexivity|]. rewrite Hp. reflexivity.
Qed.

Lemma filter_slots_written p ns ns' from :
  blind p -> depth_written ns ns' -> filter_slots p from ns' = filter_slots p from ns.
Proof.
  intros Hp H. revert from. induction H as [|n n' ns ns' Hn _ IH]; intros from;
    [reflexivity|].
  simpl. rewrite !IH.
  destruct Hn as [->|[d ->]]; [reflexivity|]. rewrite Hp. reflexivity.
Qed.

Lemma depth_written_same_node ns ns' x n n' :
  depth_written ns ns' -> ns !! x = Some n -> ns' !! x = Some n' ->
  node_id n' = node_id n /\ type n' = type n /\ parentID n' = parentID n.
Proof.
  intros H Hn Hn'. destruct (depth_written_lookup _ _ _ _ H Hn') as (m & Hm & Hr).
  assert (m = n) by congruence. subst m.
  destruct Hr as [->|[d ->]]; repeat split.
Qed.

Lemma is_directory_at_written ns ns' x :
  depth_written ns ns' -> is_directory_at ns' x = is_directory_at ns x.
Proof.
  intros H. unfold is_directory_at.
  destruct (ns' !! x) as [n'|] eqn:Hn'.
  - destruct (depth_written_lookup _ _ _ _ H Hn') as (n & -> & Hr).
    destruct Hr as [->|[d ->]]; reflexivity.
  - destruct (ns !! x) as [n|] eqn:Hn; [|reflexivity].
    destruct (depth_written_lookup_l _ _ _ _ H Hn) as (n' & Hn2 & _). congruence.
Qed.

(** Depth fields are written, never taken away. *)
Lemma depth_written_keeps_depth ns ns' x :
  depth_written ns ns' -> is_Some (depth_at ns x) -> is_Some (depth_at ns' x).
Proof.
  intros H. unfold depth_at. destruct (ns !! x) as [n|] eqn:Hn; [|intros [? [=]]].
  destruct (depth_written_lookup_l _ _ _ _ H Hn) as (n' & -> & Hr).
  destruct Hr as [->|[d ->]]; [trivial|]. intros _. simpl. eauto.
Qed.

Lemma createTree_children_written visit :
  (forall id rt, depth_written (nodes_of rt) (nodes_of (state_of (visit id rt)))) ->
  forall cs rt,
    depth_written (nodes_of rt) (nodes_of (state_of (createTree_children visit cs rt))).
Proof.
  intros Hvisit cs. induction cs as [|c rest IH]; intros rt.
  - apply depth_written_refl.
  - rewrite createTree_children_cons.
    destruct (nodes (model rt) !! c) as [child|]; [|apply depth_written_refl].
    destruct (bool_decide (type child = Directory)); [|apply IH].
    specialize (Hvisit (node_id child) rt).
    destruct (visit (node_id child) rt) as [rt1 [t|e|]]; simpl in *; try exact Hvisit.
    specialize (IH rt1).
    destruct (createTree_children visit rest rt1) as [rt2 [ts|e|]]; simpl in *;
      eapply depth_written_trans; eassumption.
Qed.

(** Whatever its completion, [createTree] leaves in the snapshot the
    objects it found there, with depth fields written to some. *)
Lemma createTree_written fuel parent d rt :
  depth_written (nodes_of rt) (nodes_of (state_of (createTree fuel parent d rt))).
Proof.
  revert parent d rt. induction fuel as [|fuel IH]; intros parent d rt.
  - apply depth_written_refl.
  - rewrite createTree_unfold.
    destruct (find_slot (is_node parent) (nodes (model rt))) as [r|];
      [|apply depth_written_refl].
    destruct (nodes_frozen (model rt)); [apply depth_written_refl|].
    cbv zeta.
    set (rt1 := with_model _ rt).
    pose proof (createTree_children_written
                  (fun id => createTree fuel (Some id) (d + 1))
                  (fun id rt => IH (Some id) (d + 1) rt)
                  (filter_slots (is_child_of parent) 0 (nodes (model rt1))) rt1) as H.
    assert (H1 : depth_written (nodes_of rt) (nodes_of rt1))
      by apply depth_written_alter.
    destruct (createTree_children _ _ rt1) as [rt' [cs|e|]]; simpl in *;
      eapply depth_written_trans; eassumption.
Qed.

(** Neither [createTree] nor its loop freezes or thaws the objects. *)
Lemma createTree_children_frozen visit :
  (forall id rt, nodes_frozen (model (state_of (visit id rt))) = nodes_frozen (model rt)) ->
  forall cs rt,
    nodes_frozen (model (state_of (createTree_children visit cs rt)))
    = nodes_frozen (model rt).
Proof.
  intros Hvisit cs. induction cs as [|c rest IH]; intros rt; [reflexivity|].
  rewrite createTree_children_cons.
  destruct (nodes (model rt) !! c) as [child|]; [|reflexivity].
  destruct (bool_decide (type child = Directory)); [|apply IH].
  specialize (Hvisit (node_id child) rt).
  destruct (visit (node_id child) rt) as [rt1 [t|e|]]; simpl in *; try exact Hvisit.
  specialize (IH rt1).
  destruct (createTree_children visit rest rt1) as [rt2 [ts|e|]]; simpl in *;
    congruence.
Qed.

Lemma createTree_keeps_frozen fuel parent d rt :
  nodes_frozen (model (state_of (createTree fuel parent d rt)))
  = nodes_frozen (model rt).
Proof.
  revert parent d rt. induction fuel as [|fuel IH]; intros parent d rt; [reflexivity|].
  rewrite createTree_unfold.
  destruct (find_slot (is_node parent) (nodes (model rt))) as [r|]; [|reflexivity].
  destruct (nodes_frozen (model rt)) eqn:Hfr; [exact Hfr|].
  cbv zeta. set (rt1 := with_model _ rt).
  pose proof (createTree_children_frozen
                (fun id => createTree fuel (Some id) (d + 1))
                (fun id rt => IH (Some id) (d + 1) rt)
                (filter_slots (is_child_of parent) 0 (nodes (model rt1))) rt1) as H.
  assert (H1 : nodes_frozen (model rt1) = false) by exact Hfr.
  destruct (createTree_children _ _ rt1) as [rt' [cs|e|]]; simpl in *; congruence.
Qed.

(** *** Slots *)

Lemma find_slot_find {A} (p : A -> bool) (l : list A) :
  find p l = match find_slot p l with
             | Some r => l !! r
             | None => None
             end.
Proof.
  induction l as [|x l IH]; simpl; [reflexivity|].
  destruct (p x); [reflexivity|]. rewrite IH.
  destruct (find_slot p l); reflexivity.
Qed.

Lemma find_slot_some {A} (p : A -> bool) (l : list A) (r : nat) :
  find_slot p l = Some r -> exists x, l !! r = Some x /\ p x = true.
Proof.
  revert r. induction l as [|y l IH]; intros r; simpl; [discriminate|].
  destruct (p y) eqn:Py.
  - intros [= <-]. eauto.
  - destruct (find_slot p l) as [r'|]; [|discriminate].
    intros [= <-]. apply IH. reflexivity.
Qed.

Lemma is_node_true id n : is_node (Some id) n = true <-> node_id n = id.
Proof.
  unfold is_node, opt_str_eqb. rewrite bool_decide_eq_true. split; congruence.
Qed.

(** With unique ids, [getNode] on the id of a node returns that very
    object. *)
Lemma find_slot_unique ns r n :
  NoDup (map node_id ns) -> ns !! r = Some n ->
  find_slot (is_node (Some (node_id n))) ns = Some r.
Proof.
  revert r. induction ns as [|m ns IH]; intros r Hnd Hr; [discriminate|].
  simpl in Hnd. apply NoDup_cons in Hnd. destruct Hnd as [Hm Hnd].
  simpl. destruct r as [|r]; simpl in Hr.
  - injection Hr as ->. rewrite (proj2 (is_node_true _ _) eq_refl). reflexivity.
  - destruct (is_node (Some (node_id n)) m) eqn:E.
    + apply is_node_true in E. exfalso. apply Hm. rewrite E.
      apply list_elem_of_In, in_map. apply list_elem_of_In.
      eapply list_elem_of_lookup_2. exact Hr.
    + rewrite (IH r Hnd Hr). reflexivity.
Qed.

Lemma filter_slots_elem {A} (p : A -> bool) (l : list A) (from c : nat) :
  In c (filter_slots p from l) ->
  exists x, l !! (c - from)%nat = Some x /\ p x = true /\ (from <= c)%nat.
Proof.
  revert from. induction l as [|y l IH]; intros from; simpl; [intros []|].
  intros Hin.
  assert (Hrest : In c (filter_slots p (S from) l) ->
                  exists x, (y :: l) !! (c - from)%nat = Some x /\ p x = true
                            /\ (from <= c)%nat).
  { intros H. destruct (IH _ H) as (x & Hx & Px & Hle). exists x.
    replace (c - from)%nat with (S (c - S from)) by lia. simpl. repeat split; auto. lia. }
  destruct (p y) eqn:Py; [|auto].
  destruct Hin as [<-|Hin]; [|auto].
  exists y. rewrite Nat.sub_diag. repeat split; auto.
Qed.

Lemma is_child_of_true parent n : is_child_of parent n = true <-> parentID n = parent.
Proof. unfold is_child_of, opt_str_eqb. apply bool_decide_eq_true. Qed.

(** *** Levels in a forest *)

Lemma level_mono fuel ns j k :
  level fuel ns j = Some k -> level (S fuel) ns j = Some k.
Proof.
  revert j k. induction fuel as [|fuel IH]; intros j k; [discriminate|].
  simpl. destruct (parent_slot ns j) as [r|]; [|trivial].
  destruct (level fuel ns r) as [k'|] eqn:E; [|discriminate].
  intros [= <-]. simpl in IH. rewrite (IH r k' E). reflexivity.
Qed.

Lemma level_bound fuel ns j k : level fuel ns j = Some k -> (k < fuel)%nat.
Proof.
  revert j k. induction fuel as [|fuel IH]; intros j k; [discriminate|].
  simpl. destruct (parent_slot ns j) as [r|]; [|intros [= <-]; lia].
  destruct (level fuel ns r) as [k'|] eqn:E; [|discriminate].
  intros [= <-]. specialize (IH r k' E). lia.
Qed.

Lemma forest_level ns j :
  forest ns = true -> (j < length ns)%nat -> is_Some (level (length ns) ns j).
Proof.
  unfold forest. intros H Hj. rewrite forallb_forall in H.
  specialize (H j). rewrite in_seq in H.
  eapply bool_decide_eq_true_1, H. lia.
Qed.

Lemma parent_slot_lt ns c r : parent_slot ns c = Some r -> (c < length ns)%nat.
Proof.
  unfold parent_slot. destruct (ns !! c) as [n|] eqn:Hc; [|discriminate].
  intros _. eapply lookup_lt_Some. exact Hc.
Qed.

(** In a forest a child is one level below its parent. *)
Lemma lvl_child ns c r :
  forest ns = true -> parent_slot ns c = Some r ->
  lvl ns c = S (lvl ns r) /\ (lvl ns c < length ns)%nat.
Proof.
  intros Hf Hp. pose proof (parent_slot_lt _ _ _ Hp) as Hc.
  destruct (forest_level ns c Hf Hc) as [k Hk].
  pose proof (level_bound _ _ _ _ Hk) as Hb.
  unfold lvl. rewrite Hk. simpl.
  destruct (length ns) as [|f] eqn:Hlen; [lia|].
  simpl in Hk. rewrite Hp in Hk.
  destruct (level f ns r) as [k'|] eqn:E; [|discriminate].
  injection Hk as <-. rewrite (level_mono _ _ _ _ E). simpl. split; [reflexivity|lia].
Qed.

(** *** The tree of a directory in a forest with unique ids *)

Lemma settled_refl D ns : settled D ns ns.
Proof. intros x. left. reflexivity. Qed.

Lemma settled_trans D ns1 ns2 ns3 :
  settled D ns1 ns2 -> settled D ns2 ns3 -> settled D ns1 ns3.
Proof.
  intros H12 H23 x. destruct (H23 x) as [E|E]; [|right; exact E].
  rewrite E. apply H12.
Qed.

Lemma annotated_settled ns0 D ns ns' xd :
  settled D ns ns' -> annotated ns0 D ns xd -> annotated ns0 D ns' xd.
Proof.
  intros Hs (HD & Hd & Hdir). repeat split; auto.
  destruct (Hs (fst xd)) as [E|E]; rewrite E; [exact Hd|]. rewrite HD. reflexivity.
Qed.

Lemma depth_at_alter_eq ns r n d :
  ns !! r = Some n -> depth_at (alter (with_depth (Some d)) r ns) r = Some d.
Proof.
  intros H. unfold depth_at. rewrite list_lookup_alter_eq, H. reflexivity.
Qed.

Lemma depth_at_alter_ne ns r x d :
  x <> r -> depth_at (alter (with_depth (Some d)) r ns) x = depth_at ns x.
Proof.
  intros H. unfold depth_at. rewrite list_lookup_alter_ne by congruence. reflexivity.
Qed.

Section DirectoryTree.

Context (ns0 : list Node) (d0 : Z) (r0 : nat).
Hypothesis Hnodup : NoDup (map node_id ns0).
Hypothesis Hforest : forest ns0 = true.

Local Abbreviation D := (level_depth ns0 d0 r0).

Lemma level_depth_child c r : parent_slot ns0 c = Some r -> D c = D r + 1.
Proof.
  intros Hp. destruct (lvl_child ns0 c r Hforest Hp) as [Hl _].
  unfold level_depth. rewrite Hl. lia.
Qed.

(** The loop over the children of the directory in slot [r]. *)
Lemma createTree_children_ok fuel r :
  visits_ok ns0 D fuel ->
  (length ns0 - lvl ns0 r <= S fuel)%nat ->
  forall cs rt,
    nodes_frozen (model rt) = false ->
    depth_written ns0 (nodes_of rt) ->
    Forall (fun c => parent_slot ns0 c = Some r) cs ->
    exists rt' ts,
      createTree_children (fun id => createTree fuel (Some id) (D r + 1)) cs rt
      = (rt', Normal ts)
      /\ Forall2 (directory_tree ns0) (List.filter (is_directory_at ns0) cs) ts
      /\ Forall (annotated ns0 D (nodes_of rt')) (flat_map (labelled (D r + 1)) ts)
      /\ settled D (nodes_of rt) (nodes_of rt').
Proof.
  intros Hvisit Hfuel cs. induction cs as [|c rest IH]; intros rt Hfr Hw Hcs.
  - exists rt, []. simpl. split; [reflexivity|]. split; [constructor|].
    split; [constructor|apply settled_refl].
  - apply Forall_cons in Hcs. destruct Hcs as [Hc Hrest].
    pose proof (parent_slot_lt _ _ _ Hc) as Hlt.
    destruct (lookup_lt_is_Some_2 ns0 c Hlt) as [child0 Hchild0].
    destruct (depth_written_lookup_l _ _ _ _ Hw Hchild0) as (child & Hchild & _).
    destruct (depth_written_same_node _ _ _ _ _ Hw Hchild0 Hchild) as (Hid & Hty & _).
    rewrite createTree_children_cons. unfold nodes_of in Hchild. rewrite Hchild.
    assert (Hdir : is_directory_at ns0 c = bool_decide (type child = Directory)).
    { unfold is_directory_at. rewrite Hchild0, Hty. reflexivity. }
    simpl. rewrite Hdir.
    destruct (bool_decide (type child = Directory)) eqn:Hb.
    + apply bool_decide_eq_true in Hb.
      destruct (lvl_child ns0 c r Hforest Hc) as [Hl _].
      destruct (Hvisit c child0 rt Hfr Hw Hchild0) as (rt1 & t & E & Ht & Ha & Hs).
      { congruence. }
      { lia. }
      rewrite (level_depth_child c r Hc), <- Hid in E. rewrite E.
      assert (Hw1 : depth_written ns0 (nodes_of rt1)).
      { eapply depth_written_trans; [exact Hw|].
        pose proof (createTree_written fuel (Some (node_id child)) (D r + 1) rt) as H.
        rewrite E in H. exact H. }
      assert (Hfr1 : nodes_frozen (model rt1) = false).
      { pose proof (createTree_keeps_frozen fuel (Some (node_id child)) (D r + 1) rt)
          as H.
        rewrite E in H. simpl in H. congruence. }
      destruct (IH rt1 Hfr1 Hw1 Hrest) as (rt2 & ts & E2 & Hts & Has & Hs2).
      rewrite E2. exists rt2, (t :: ts). split; [reflexivity|].
      split; [constructor; assumption|].
      split; [|eapply settled_trans; eassumption].
      simpl. apply Forall_app. split; [|exact Has].
      rewrite (level_depth_child c r Hc) in Ha.
      eapply Forall_impl; [exact Ha|]. intros xd. apply annotated_settled, Hs2.
    + apply IH; assumption.
Qed.

Lemma createTree_ok fuel : visits_ok ns0 D fuel.
Proof.
  induction fuel as [|fuel IH]; intros r n rt Hfr Hw Hr Hty Hfuel.
  - exfalso. pose proof (lookup_lt_Some _ _ _ Hr) as Hlt.
    destruct (forest_level ns0 r Hforest Hlt) as [k Hk].
    pose proof (level_bound _ _ _ _ Hk). unfold lvl in Hfuel. rewrite Hk in Hfuel.
    simpl in Hfuel. lia.
  - rewrite createTree_unfold.
    fold (nodes_of rt).
    rewrite (find_slot_written _ _ _ (is_node_blind _) Hw).
    rewrite (find_slot_unique _ _ _ Hnodup Hr), Hfr. cbv zeta.
    set (rt1 := with_model _ rt).
    assert (Hn1 : nodes_of rt1 = alter (with_depth (Some (D r))) r (nodes_of rt))
      by reflexivity.
    assert (Hw1 : depth_written ns0 (nodes_of rt1)).
    { rewrite Hn1. eapply depth_written_trans; [exact Hw|apply depth_written_alter]. }
    fold (nodes_of rt1).
    rewrite (filter_slots_written _ _ _ _ (is_child_of_blind _) Hw1).
    assert (Hcs : Forall (fun c => parent_slot ns0 c = Some r)
                    (filter_slots (is_child_of (Some (node_id n))) 0 ns0)).
    { apply Forall_forall. intros c Hc. apply list_elem_of_In in Hc.
      destruct (filter_slots_elem _ _ _ _ Hc) as (x & Hx & Px & _).
      rewrite Nat.sub_0_r in Hx. apply is_child_of_true in Px.
      unfold parent_slot. rewrite Hx, Px.
      apply find_slot_unique; assumption. }
    destruct (createTree_children_ok fuel r IH Hfuel _ rt1 Hfr Hw1 Hcs)
      as (rt' & ts & E & Hts & Has & Hs).
    rewrite E. exists rt', (Nested r ts). split; [reflexivity|].
    destruct (depth_written_lookup_l _ _ _ _ Hw Hr) as (n1 & Hn1r & _).
    assert (Hdr : depth_at (nodes_of rt1) r = Some (D r)).
    { rewrite Hn1. eapply depth_at_alter_eq. exact Hn1r. }
    split; [econstructor; eassumption|].
    split.
    + simpl. constructor; [|exact Has].
      repeat split; simpl.
      * destruct (Hs r) as [E1|E1]; rewrite E1; [exact Hdr|reflexivity].
      * unfold is_directory_at. rewrite Hr. apply bool_decide_eq_true. exact Hty.
    + intros x. destruct (Hs x) as [E1|E1]; [|right; exact E1].
      rewrite E1, Hn1. destruct (decide (x = r)) as [->|Hne].
      * right. erewrite depth_at_alter_eq; [reflexivity|exact Hn1r].
      * left. apply depth_at_alter_ne. exact Hne.
Qed.

End DirectoryTree.

(** On a snapshot whose objects are not frozen (one that [loadLibrary]
    set), in a store with unique node ids whose parent links form a forest,
    if [getNode] returns a Directory node for [rootID], then
    [createTree(model, rootID)] (depth 0), allowed at least as many nested
    calls as there are nodes, returns a tree whose node is that very
    object; the tree is the tree of directories below it: each subtree
    list has one subtree per child Directory node, in the order of the
    array; every object of the tree carries as [depth] the depth of its
    place in the tree (0 at the root, one more per level); every object of
    the tree is a Directory, so that text, image and anchor nodes occur
    nowhere in it; and the call leaves the snapshot as it was up to depth
    fields. *)
Theorem createTree_directories (rt : Runtime) (rootID : ID) (rootNode : Node) :
  nodes_frozen (model rt) = false ->
  NoDup (map node_id (nodes (model rt))) ->
  forest (nodes (model rt)) = true ->
  getNode (Some rootID) rt = (rt, Normal (Some rootNode)) ->
  type rootNode = Directory ->
  exists r,
    nodes (model rt) !! r = Some rootNode
    /\ forall fuel, (length (nodes (model rt)) <= fuel)%nat ->
         exists rt' t,
           createTree fuel (Some rootID) 0 rt = (rt', Normal t)
           /\ root t = r
           /\ directory_tree (nodes (model rt)) r t
           /\ Forall (fun xd => depth_at (nodes (model rt')) (fst xd) = Some (snd xd))
                     (labelled 0 t)
           /\ Forall (fun xd => is_directory_at (nodes (model rt')) (fst xd) = true)
                     (labelled 0 t)
           /\ depth_written (nodes (model rt)) (nodes (model rt')).
Proof.
  intros Hfr Hnodup Hforest Hget Hty.
  unfold getNode in Hget. js_unfold. injection Hget as Hfind.
  change (find (is_node (Some rootID)) (nodes (model rt)) = Some rootNode) in Hfind.
  rewrite find_slot_find in Hfind.
  destruct (find_slot (is_node (Some rootID)) (nodes (model rt))) as [r|] eqn:Hslot;
    [|discriminate].
  destruct (find_slot_some _ _ _ Hslot) as (x & Hx & Px).
  assert (x = rootNode) by congruence. subst x.
  apply is_node_true in Px. exists r. split; [exact Hfind|].
  intros fuel Hfuel.
  destruct (createTree_ok (nodes (model rt)) 0 r Hnodup Hforest fuel r rootNode rt)
    as (rt' & t & E & Ht & Ha & _).
  { exact Hfr. }
  { apply depth_written_refl. }
  { exact Hfind. }
  { exact Hty. }
  { lia. }
  assert (HD : level_depth (nodes (model rt)) 0 r r = 0) by (unfold level_depth; lia).
  rewrite HD, Px in E. rewrite HD in Ha.
  pose proof (createTree_written fuel (Some rootID) 0 rt) as Hw.
  rewrite E in Hw. simpl in Hw. unfold nodes_of in *.
  exists rt', t. split; [exact E|].
  split; [inversion Ht; reflexivity|].
  split; [exact Ht|].
  split; [eapply Forall_impl; [exact Ha|]; intros xd (_ & Hd & _); exact Hd|].
  split; [|exact Hw].
  eapply Forall_impl; [exact Ha|]. intros xd (_ & _ & Hdir).
  rewrite (is_directory_at_written _ _ _ Hw). exact Hdir.
Qed.

(** Directory D with child directory E and a text note T in D, loaded
    from the library file: the tree
    of D is D at depth 0 with the one subtree E at depth 1; the slot of T
    (slot 2) is not in it and carries no depth. *)
Lemma createTree_directories_witness :
  map type (nodes (model example_loaded_tree)) = [Directory; Directory; Text]
  /\ completion_of (createTree 3 (Some (lit "id0")) 0 example_loaded_tree)
     = Normal (Nested 0 [Nested 1 []])
  /\ map depth (nodes (model (state_of
           (createTree 3 (Some (lit "id0")) 0 example_loaded_tree))))
     = [Some 0; Some 1; None]
  /\ exists r,
       nodes (model example_loaded_tree) !! r = Some dir_D
       /\ forall fuel, (length (nodes (model example_loaded_tree)) <= fuel)%nat ->
            exists rt' t,
              createTree fuel (Some (lit "id0")) 0 example_loaded_tree = (rt', Normal t)
              /\ root t = r
              /\ directory_tree (nodes (model example_loaded_tree)) r t
              /\ Forall (fun xd => depth_at (nodes (model rt')) (fst xd) = Some (snd xd))
                        (labelled 0 t)
              /\ Forall (fun xd => is_directory_at (nodes (model rt')) (fst xd) = true)
                        (labelled 0 t)
              /\ depth_written (nodes (model example_loaded_tree)) (nodes (model rt')).
Proof.
  split; [vm_compute; reflexivity|].
  split; [vm_compute; reflexivity|].
  split; [vm_compute; reflexivity|].
  apply (createTree_directories example_loaded_tree (lit "id0") dir_D).
  - vm_compute. reflexivity.
  - vm_compute. repeat constructor; intros H; inversion H; subst;
      repeat match goal with
             | H : _ ∈ _ |- _ => inversion H; clear H; subst
             end.
  - vm_compute. reflexivity.
  - vm_compute. reflexivity.
  - reflexivity.
Defined.

(** *** Independence of depth fields and of spare fuel *)

Lemma depth_written_similar ns ns' : depth_written ns ns' -> similar ns ns'.
Proof.
  unfold similar. induction 1 as [|n n' ns ns' Hn _ IH]; [reflexivity|].
  simpl. rewrite IH. destruct Hn as [->|[d ->]]; reflexivity.
Qed.

Lemma similar_lookup ns1 ns2 c a :
  similar ns1 ns2 -> ns1 !! c = Some a ->
  exists b, ns2 !! c = Some b /\ node_id b = node_id a /\ type b = type a.
Proof.
  unfold similar. intros H Ha.
  assert (Hc : map (with_depth None) ns1 !! c = Some (with_depth None a)).
  { change (map (with_depth None) ns1) with (with_depth None <$> ns1).
    rewrite list_lookup_fmap, Ha. reflexivity. }
  rewrite H in Hc. change (map (with_depth None) ns2) with (with_depth None <$> ns2) in Hc.
  rewrite list_lookup_fmap in Hc. destruct (ns2 !! c) as [b|]; [|discriminate].
  simpl in Hc. exists b. split; [reflexivity|].
  assert (Hb : with_depth None b = with_depth None a) by congruence.
  split; [exact (f_equal node_id Hb)|exact (f_equal type Hb)].
Qed.

Lemma find_slot_erased p ns :
  blind p -> find_slot p (map (with_depth None) ns) = find_slot p ns.
Proof.
  intros Hp. induction ns as [|n ns IH]; [reflexivity|].
  simpl. rewrite Hp, IH. reflexivity.
Qed.

Lemma filter_slots_erased p ns from :
  blind p -> filter_slots p from (map (with_depth None) ns) = filter_slots p from ns.
Proof.
  intros Hp. revert from. induction ns as [|n ns IH]; intros from; [reflexivity|].
  simpl. rewrite Hp, !IH. reflexivity.
Qed.

Lemma find_slot_similar p ns1 ns2 :
  blind p -> similar ns1 ns2 -> find_slot p ns1 = find_slot p ns2.
Proof.
  intros Hp H. rewrite <- (find_slot_erased p ns1 Hp), H. apply find_slot_erased, Hp.
Qed.

Lemma filter_slots_similar p ns1 ns2 from :
  blind p -> similar ns1 ns2 -> filter_slots p from ns1 = filter_slots p from ns2.
Proof.
  intros Hp H. rewrite <- (filter_slots_erased p ns1 from Hp), H.
  apply filter_slots_erased, Hp.
Qed.

Lemma createTree_state_similar fuel parent d rt rt' c :
  createTree fuel parent d rt = (rt', c) -> similar (nodes_of rt) (nodes_of rt').
Proof.
  intros E. pose proof (createTree_written fuel parent d rt) as H.
  rewrite E in H. apply depth_written_similar, H.
Qed.

(** A loop whose calls return keeps returning the same when each call
    is replaced by one that returns the same. *)
Lemma createTree_children_normal visit1 visit2 (R : Runtime -> Runtime -> Prop) :
  (forall rt1 rt2, R rt1 rt2 -> similar (nodes_of rt1) (nodes_of rt2)) ->
  (forall id rt1 rt2 rt1' t,
      R rt1 rt2 -> visit1 id rt1 = (rt1', Normal t) ->
      exists rt2', visit2 id rt2 = (rt2', Normal t) /\ R rt1' rt2') ->
  forall cs rt1 rt2 rt1' ts,
    R rt1 rt2 ->
    createTree_children visit1 cs rt1 = (rt1', Normal ts) ->
    exists rt2', createTree_children visit2 cs rt2 = (rt2', Normal ts) /\ R rt1' rt2'.
Proof.
  intros HR Hvisit cs. induction cs as [|c rest IH]; intros rt1 rt2 rt1' ts Hs.
  - simpl. js_unfold. intros [= <- <-]. exists rt2. split; [reflexivity|exact Hs].
  - rewrite !createTree_children_cons.
    destruct (nodes (model rt1) !! c) as [a|] eqn:Ha; [|discriminate].
    destruct (similar_lookup _ _ _ _ (HR _ _ Hs) Ha) as (b & Hb & Hid & Hty).
    unfold nodes_of in Hb. rewrite Hb, Hty, Hid.
    destruct (bool_decide (type a = Directory)); [|apply IH; exact Hs].
    destruct (visit1 (node_id a) rt1) as [rt1a [t|e|]] eqn:E1; try discriminate.
    destruct (Hvisit _ _ _ _ _ Hs E1) as (rt2a & E2 & Hs2). rewrite E2.
    destruct (createTree_children visit1 rest rt1a) as [rt1b [ts'|e|]] eqn:E1b;
      try discriminate.
    intros [= <- <-].
    destruct (IH _ _ _ _ Hs2 E1b) as (rt2b & E2b & Hs3). rewrite E2b.
    exists rt2b. split; [reflexivity|exact Hs3].
Qed.

(** Whether [createTree] returns, and the tree it returns, depend neither
    on the depth fields of the snapshot nor on the depth passed. *)
Lemma createTree_similar fuel parent d1 d2 rt1 rt2 rt1' t :
  similar (nodes_of rt1) (nodes_of rt2) ->
  nodes_frozen (model rt2) = nodes_frozen (model rt1) ->
  createTree fuel parent d1 rt1 = (rt1', Normal t) ->
  exists rt2', createTree fuel parent d2 rt2 = (rt2', Normal t)
               /\ similar (nodes_of rt1') (nodes_of rt2')
               /\ nodes_frozen (model rt2') = nodes_frozen (model rt1').
Proof.
  revert parent d1 d2 rt1 rt2 rt1' t.
  induction fuel as [|fuel IH]; intros parent d1 d2 rt1 rt2 rt1' t Hs Hfz;
    [discriminate|].
  rewrite !createTree_unfold. fold (nodes_of rt1) (nodes_of rt2).
  rewrite <- (find_slot_similar _ _ _ (is_node_blind parent) Hs).
  destruct (find_slot (is_node parent) (nodes_of rt1)) as [r|]; [|discriminate].
  rewrite Hfz. destruct (nodes_frozen (model rt1)) eqn:Hfr1; [discriminate|].
  cbv zeta.
  set (rt1a := with_model _ rt1). set (rt2a := with_model _ rt2).
  assert (Hsa : similar (nodes_of rt1a) (nodes_of rt2a)).
  { unfold similar in *.
    change (nodes_of rt1a) with (alter (with_depth (Some d1)) r (nodes_of rt1)).
    change (nodes_of rt2a) with (alter (with_depth (Some d2)) r (nodes_of rt2)).
    rewrite <- (depth_written_similar _ _ (depth_written_alter (nodes_of rt1) r d1)).
    rewrite <- (depth_written_similar _ _ (depth_written_alter (nodes_of rt2) r d2)).
    exact Hs. }
  fold (nodes_of rt1a) (nodes_of rt2a).
  rewrite <- (filter_slots_similar _ _ _ 0 (is_child_of_blind parent) Hsa).
  destruct (createTree_children _ _ rt1a) as [rt1b [ts|e|]] eqn:E1; try discriminate.
  intros [= <- <-].
  assert (Hfa : nodes_frozen (model rt2a) = nodes_frozen (model rt1a))
    by (simpl; congruence).
  destruct (createTree_children_normal
              (fun id => createTree fuel (Some id) (d1 + 1))
              (fun id => createTree fuel (Some id) (d2 + 1))
              (fun a b => similar (nodes_of a) (nodes_of b)
                          /\ nodes_frozen (model b) = nodes_frozen (model a))
              (fun _ _ H => proj1 H)
              (fun id a b a' t' H E =>
                 IH (Some id) (d1 + 1) (d2 + 1) a b a' t' (proj1 H) (proj2 H) E)
              _ _ _ _ _ (conj Hsa Hfa) E1) as (rt2b & E2 & Hsb & Hfb).
  rewrite E2. exists rt2b. split; [reflexivity|]. split; [exact Hsb|exact Hfb].
Qed.

(** A call returns only on objects that are not frozen. *)
Lemma createTree_normal_unfrozen fuel parent d rt rt' t :
  createTree fuel parent d rt = (rt', Normal t) -> nodes_frozen (model rt) = false.
Proof.
  destruct fuel as [|fuel]; [discriminate|]. rewrite createTree_unfold.
  destruct (find_slot (is_node parent) (nodes (model rt))); [|discriminate].
  destruct (nodes_frozen (model rt)); [discriminate|reflexivity].
Qed.

(** A call that returns returns the same with more fuel. *)
Lemma createTree_more_fuel fuel parent d rt rt' t :
  createTree fuel parent d rt = (rt', Normal t) ->
  createTree (S fuel) parent d rt = (rt', Normal t).
Proof.
  revert parent d rt rt' t.
  induction fuel as [|fuel IH]; intros parent d rt rt' t; [discriminate|].
  rewrite (createTree_unfold (S fuel)), (createTree_unfold fuel).
  destruct (find_slot (is_node parent) (nodes (model rt))) as [r|]; [|discriminate].
  destruct (nodes_frozen (model rt)); [discriminate|].
  cbv zeta. set (rt1 := with_model _ rt).
  destruct (createTree_children (fun id => createTree fuel _ _) _ rt1)
    as [rt1b [ts|e|]] eqn:E1; try discriminate.
  intros [= <- <-].
  destruct (createTree_children_normal
              (fun id => createTree fuel (Some id) (d + 1))
              (fun id => createTree (S fuel) (Some id) (d + 1))
              (fun a b => a = b)
              (fun a b H => f_equal (fun x => map (with_depth None) (nodes_of x)) H)
              (fun id a b a' t' H E =>
                 ex_intro _ a' (conj (eq_ind a (fun b => createTree (S fuel) (Some id) (d + 1) b = (a', Normal t'))
                                         (IH (Some id) (d + 1) a a' t' E) b H) eq_refl))
              _ _ _ _ _ eq_refl E1) as (rt2b & E2 & <-).
  rewrite E2. reflexivity.
Qed.

Lemma createTree_fuel_le fuel fuel' parent d rt rt' t :
  (fuel <= fuel')%nat ->
  createTree fuel parent d rt = (rt', Normal t) ->
  createTree fuel' parent d rt = (rt', Normal t).
Proof.
  induction 1 as [|fuel' _ IH]; [trivial|].
  intros E. apply createTree_more_fuel, IH, E.
Qed.

(** *** The write to the object that [getNode] returned *)

Lemma no_return_similar fuel fuel' parent ns ns' :
  (fuel' <= fuel)%nat -> similar ns ns' ->
  no_return fuel parent ns -> no_return fuel' parent ns'.
Proof.
  intros Hle Hs H f d rt rt' t Hf Hrt. apply H; [lia|].
  unfold similar in *. congruence.
Qed.

Lemma children_leave_slot parent r fuel d :
  leaves_slot parent r fuel ->
  forall cs rt rt' ts,
    createTree_children (fun id => createTree fuel (Some id) d) cs rt = (rt', Normal ts) ->
    find_slot (is_node parent) (nodes_of rt) = Some r ->
    no_return fuel parent (nodes_of rt) ->
    depth_at (nodes_of rt') r = depth_at (nodes_of rt) r.
Proof.
  intros Hleave cs. induction cs as [|c rest IH]; intros rt rt' ts.
  - simpl. js_unfold. intros [= <- <-] _ _. reflexivity.
  - rewrite createTree_children_cons.
    destruct (nodes (model rt) !! c) as [a|]; [|discriminate].
    destruct (bool_decide (type a = Directory)); [|apply IH].
    destruct (createTree fuel (Some (node_id a)) d rt) as [rt1 [t1|e|]] eqn:E1;
      try discriminate.
    destruct (createTree_children _ rest rt1) as [rt2 [ts2|e|]] eqn:E2;
      try discriminate.
    intros [= <- <-] Hfind Hno.
    pose proof (createTree_state_similar _ _ _ _ _ _ E1) as Hs.
    assert (Hne : Some (node_id a) <> parent).
    { intros <-. exact (Hno fuel d rt rt1 t1 (le_n _) eq_refl E1). }
    rewrite (IH _ _ _ E2).
    + exact (Hleave _ _ _ _ _ E1 Hne Hfind Hno).
    + rewrite <- (find_slot_similar _ _ _ (is_node_blind parent) Hs). exact Hfind.
    + eapply no_return_similar; [apply le_n|exact Hs|exact Hno].
Qed.

Lemma is_node_same parent q n :
  is_node parent n = true -> is_node q n = true -> q = parent.
Proof.
  unfold is_node, opt_str_eqb. rewrite !bool_decide_eq_true. congruence.
Qed.

Lemma createTree_leaves_slot parent r fuel : leaves_slot parent r fuel.
Proof.
  induction fuel as [|fuel IH]; intros q d rt rt' t E Hne Hfind Hno; [discriminate|].
  rewrite createTree_unfold in E. fold (nodes_of rt) in E.
  destruct (find_slot (is_node q) (nodes_of rt)) as [rq|] eqn:Hq; [|discriminate].
  destruct (nodes_frozen (model rt)); [discriminate|].
  cbv zeta in E. set (rt1 := with_model _ rt) in E.
  destruct (createTree_children _ _ rt1) as [rt2 [ts|e|]] eqn:E1; try discriminate.
  injection E as <- _.
  assert (Hrq : r <> rq).
  { intros <-. destruct (find_slot_some _ _ _ Hq) as (x & Hx & Qx).
    destruct (find_slot_some _ _ _ Hfind) as (y & Hy & Py).
    assert (x = y) by congruence. subst y.
    apply Hne. eapply is_node_same; eassumption. }
  assert (Hs : similar (nodes_of rt) (nodes_of rt1)).
  { apply depth_written_similar. apply depth_written_alter. }
  rewrite (children_leave_slot parent r fuel (d + 1) IH _ _ _ _ E1).
  - apply depth_at_alter_ne. exact Hrq.
  - rewrite <- (find_slot_similar _ _ _ (is_node_blind parent) Hs). exact Hfind.
  - eapply no_return_similar; [|exact Hs|exact Hno]. lia.
Qed.

(** A call that returns leaves in the object it started from the depth
    it was given: a nested call on the same id would not return. *)
Lemma createTree_root_depth fuel parent d rt rt' t r :
  createTree fuel parent d rt = (rt', Normal t) ->
  find_slot (is_node parent) (nodes_of rt) = Some r ->
  root t = r /\ depth_at (nodes_of rt') r = Some d.
Proof.
  revert rt' t. induction fuel as [|fuel IH]; intros rt' t E Hfind; [discriminate|].
  pose proof (createTree_normal_unfrozen _ _ _ _ _ _ E) as Hfr.
  destruct (createTree fuel parent d rt) as [rt0 [t0|e|]] eqn:E0.
  - apply createTree_more_fuel in E0. rewrite E0 in E. injection E as <- <-.
    apply IH; [reflexivity|exact Hfind].
  - assert (Hno : no_return fuel parent (nodes_of rt)).
    { intros f d' rta rtb tb Hle Hs Eb.
      apply (createTree_fuel_le _ fuel) in Eb; [|exact Hle].
      pose proof (createTree_normal_unfrozen _ _ _ _ _ _ Eb) as Hfb.
      destruct (createTree_similar _ _ _ d _ rt _ _ Hs (eq_trans Hfr (eq_sym Hfb)) Eb)
        as (x & Ex & _).
      rewrite E0 in Ex. discriminate. }
    rewrite createTree_unfold in E. fold (nodes_of rt) in E. rewrite Hfind, Hfr in E.
    cbv zeta in E. set (rt1 := with_model _ rt) in E.
    destruct (createTree_children _ _ rt1) as [rt2 [ts|e'|]] eqn:E1; try discriminate.
    injection E as <- <-. split; [reflexivity|].
    assert (Hs : similar (nodes_of rt) (nodes_of rt1)).
    { apply depth_written_similar. apply depth_written_alter. }
    destruct (find_slot_some _ _ _ Hfind) as (x & Hx & _).
    rewrite (children_leave_slot parent r fuel (d + 1)
               (createTree_leaves_slot parent r fuel) _ _ _ _ E1).
    + eapply depth_at_alter_eq. exact Hx.
    + rewrite <- (find_slot_similar _ _ _ (is_node_blind parent) Hs). exact Hfind.
    + eapply no_return_similar; [apply le_n|exact Hs|exact Hno].
  - assert (Hno : no_return fuel parent (nodes_of rt)).
    { intros f d' rta rtb tb Hle Hs Eb.
      apply (createTree_fuel_le _ fuel) in Eb; [|exact Hle].
      pose proof (createTree_normal_unfrozen _ _ _ _ _ _ Eb) as Hfb.
      destruct (createTree_similar _ _ _ d _ rt _ _ Hs (eq_trans Hfr (eq_sym Hfb)) Eb)
        as (x & Ex & _).
      rewrite E0 in Ex. discriminate. }
    rewrite createTree_unfold in E. fold (nodes_of rt) in E. rewrite Hfind, Hfr in E.
    cbv zeta in E. set (rt1 := with_model _ rt) in E.
    destruct (createTree_children _ _ rt1) as [rt2 [ts|e'|]] eqn:E1; try discriminate.
    injection E as <- <-. split; [reflexivity|].
    assert (Hs : similar (nodes_of rt) (nodes_of rt1)).
    { apply depth_written_similar. apply depth_written_alter. }
    destruct (find_slot_some _ _ _ Hfind) as (x & Hx & _).
    rewrite (children_leave_slot parent r fuel (d + 1)
               (createTree_leaves_slot parent r fuel) _ _ _ _ E1).
    + eapply depth_at_alter_eq. exact Hx.
    + rewrite <- (find_slot_similar _ _ _ (is_node_blind parent) Hs). exact Hfind.
    + eapply no_return_similar; [apply le_n|exact Hs|exact Hno].
Qed.

Lemma createTree_children_idle visit cs rt :
  (forall id rt, state_of (visit id rt) = rt) ->
  state_of (createTree_children visit cs rt) = rt.
Proof.
  intros Hvisit. induction cs as [|c rest IH]; [reflexivity|].
  rewrite createTree_children_cons.
  destruct (nodes (model rt) !! c) as [a|]; [|reflexivity].
  destruct (bool_decide (type a = Directory)); [|exact IH].
  specialize (Hvisit (node_id a) rt).
  destruct (visit (node_id a) rt) as [rt1 [t|e|]]; simpl in Hvisit; subst rt1;
    try reflexivity.
  destruct (createTree_children visit rest rt) as [rt2 [ts|e|]]; exact IH.
Qed.

Lemma alter_with_depth (ns : list Node) (r : nat) n d :
  ns !! r = Some n ->
  alter (with_depth (Some d)) r ns = <[r := with_depth (Some d) n]> ns.
Proof.
  intros H. apply list_eq. intros i. destruct (decide (i = r)) as [->|Hne].
  - rewrite list_lookup_alter_eq, H, list_lookup_insert_eq; [reflexivity|].
    eapply lookup_lt_Some. exact H.
  - rewrite list_lookup_alter_ne, list_lookup_insert_ne by congruence. reflexivity.
Qed.

(** On a snapshot whose objects are not frozen (one that [loadLibrary]
    set), when [getNode(parentID)] returns a node, that node is an object
    of the model's current snapshot, in some slot [r], and
    [createTree(model, parentID, depth)] writes [depth] to that object,
    not to a copy: the snapshot after a call that is cut right after the
    write differs from the snapshot before in slot [r] only, which holds
    the node with its [depth] property equal to [depth].  After a call
    allowed any number of nested calls, whatever its completion, the
    snapshot still holds the objects it held, the one in slot [r] with a
    depth; when the call returns, its tree starts at slot [r] and the depth
    in that slot is the [depth] passed. *)
Theorem createTree_writes_snapshot (parent : option ID) (d : Z) (rt : Runtime)
    (node : Node) :
  nodes_frozen (model rt) = false ->
  getNode parent rt = (rt, Normal (Some node)) ->
  exists r,
    nodes (model rt) !! r = Some node
    /\ nodes (model (state_of (createTree 1 parent d rt)))
       = <[r := with_depth (Some d) node]> (nodes (model rt))
    /\ depth_at (nodes (model (state_of (createTree 1 parent d rt)))) r = Some d
    /\ forall fuel,
         depth_written (nodes (model rt))
                       (nodes (model (state_of (createTree (S fuel) parent d rt))))
         /\ (exists d',
               nodes (model (state_of (createTree (S fuel) parent d rt))) !! r
               = Some (with_depth (Some d') node)
               /\ depth_at (nodes (model (state_of (createTree (S fuel) parent d rt)))) r
                  = Some d')
         /\ forall t,
              completion_of (createTree (S fuel) parent d rt) = Normal t ->
              root t = r
              /\ nodes (model (state_of (createTree (S fuel) parent d rt))) !! r
                 = Some (with_depth (Some d) node)
              /\ depth_at (nodes (model (state_of (createTree (S fuel) parent d rt)))) r
                 = Some d.
Proof.
  intros Hfr Hget. unfold getNode in Hget. js_unfold. injection Hget as Hfind.
  change (find (is_node parent) (nodes (model rt)) = Some node) in Hfind.
  rewrite find_slot_find in Hfind.
  destruct (find_slot (is_node parent) (nodes (model rt))) as [r|] eqn:Hslot;
    [|discriminate].
  exists r. split; [exact Hfind|].
  assert (Hcut : nodes (model (state_of (createTree 1 parent d rt)))
                 = <[r := with_depth (Some d) node]> (nodes (model rt))).
  { rewrite createTree_unfold, Hslot, Hfr. cbv zeta.
    set (rt1 := with_model _ rt).
    pose proof (createTree_children_idle
                  (fun id => createTree 0 (Some id) (d + 1))
                  (filter_slots (is_child_of parent) 0 (nodes (model rt1))) rt1
                  (fun _ _ => eq_refl)) as Hidle.
    destruct (createTree_children _ _ rt1) as [rt2 [ts|e|]]; simpl in *; subst rt2;
      apply alter_with_depth, Hfind. }
  split; [exact Hcut|]. split.
  - unfold state_of in Hcut. rewrite Hcut. unfold depth_at.
    rewrite list_lookup_insert_eq by (eapply lookup_lt_Some; exact Hfind).
    reflexivity.
  - intros fuel.
    pose proof (createTree_written (S fuel) parent d rt) as Hw. unfold nodes_of in Hw.
    split; [exact Hw|].
    assert (Hafter : exists d',
               nodes (model (state_of (createTree (S fuel) parent d rt))) !! r
               = Some (with_depth (Some d') node)).
    { rewrite createTree_unfold, Hslot, Hfr. cbv zeta. set (rt1 := with_model _ rt).
      pose proof (createTree_children_written
                    (fun id => createTree fuel (Some id) (d + 1))
                    (fun id rt => createTree_written fuel (Some id) (d + 1) rt)
                    (filter_slots (is_child_of parent) 0 (nodes (model rt1))) rt1) as H1.
      assert (Hr1 : nodes_of rt1 !! r = Some (with_depth (Some d) node)).
      { unfold nodes_of, rt1. simpl. rewrite list_lookup_alter_eq, Hfind. reflexivity. }
      destruct (depth_written_lookup_l _ _ _ _ H1 Hr1) as (n' & Hn' & Hcase).
      assert (Hn2 : exists d', n' = with_depth (Some d') node).
      { destruct Hcase as [->|[d2 ->]]; eauto. }
      destruct Hn2 as (d' & ->). exists d'.
      destruct (createTree_children _ _ rt1) as [rt2 [ts|e|]]; exact Hn'. }
    split.
    { destruct Hafter as (d' & Hd'). exists d'. split; [exact Hd'|].
      unfold state_of in Hd'. unfold depth_at. rewrite Hd'. reflexivity. }
    intros t Ht.
    destruct (createTree (S fuel) parent d rt) as [rt' c] eqn:E.
    simpl in Ht. subst c.
    destruct (createTree_root_depth _ _ _ _ _ _ r E Hslot) as [Hroot Hdepth].
    split; [exact Hroot|].
    destruct Hafter as (d' & Hd'). simpl in *.
    split; [|exact Hdepth].
    unfold depth_at, nodes_of in Hdepth. rewrite Hd' in Hdepth. simpl in Hdepth.
    rewrite Hd'. congruence.
Qed.

(** On the loaded store with D, E and T: [getNode("id0")] returns D, which
    is the object in slot 0; after [createTree] that object carries
    depth 0. *)
Lemma createTree_writes_snapshot_witness :
  nodes_frozen (model example_loaded_tree) = false
  /\ getNode (Some (lit "id0")) example_loaded_tree
     = (example_loaded_tree, Normal (Some dir_D))
  /\ map depth (nodes (model (state_of
          (createTree 3 (Some (lit "id0")) 0 example_loaded_tree))))
     = [Some 0; Some 1; None]
  /\ exists r,
       nodes (model example_loaded_tree) !! r = Some dir_D
       /\ nodes (model (state_of (createTree 1 (Some (lit "id0")) 0 example_loaded_tree)))
          = <[r := with_depth (Some 0) dir_D]> (nodes (model example_loaded_tree))
       /\ depth_at (nodes (model (state_of
             (createTree 1 (Some (lit "id0")) 0 example_loaded_tree)))) r = Some 0
       /\ forall fuel,
            depth_written (nodes (model example_loaded_tree))
              (nodes (model (state_of
                 (createTree (S fuel) (Some (lit "id0")) 0 example_loaded_tree))))
            /\ (exists d',
                  nodes (model (state_of
                     (createTree (S fuel) (Some (lit "id0")) 0 example_loaded_tree))) !! r
                  = Some (with_depth (Some d') dir_D)
                  /\ depth_at (nodes (model (state_of
                        (createTree (S fuel) (Some (lit "id0")) 0 example_loaded_tree)))) r
                     = Some d')
            /\ forall t,
                 completion_of
                   (createTree (S fuel) (Some (lit "id0")) 0 example_loaded_tree)
                 = Normal t ->
                 root t = r
                 /\ nodes (model (state_of
                      (createTree (S fuel) (Some (lit "id0")) 0 example_loaded_tree))) !! r
                    = Some (with_depth (Some 0) dir_D)
                 /\ depth_at (nodes (model (state_of
                       (createTree (S fuel) (Some (lit "id0")) 0 example_loaded_tree)))) r
                    = Some 0.
Proof.
  assert (H0 : nodes_frozen (model example_loaded_tree) = false)
    by (vm_compute; reflexivity).
  assert (H : getNode (Some (lit "id0")) example_loaded_tree
              = (example_loaded_tree, Normal (Some dir_D)))
    by (vm_compute; reflexivity).
  split; [exact H0|]. split; [exact H|]. split; [vm_compute; reflexivity|].
  exact (createTree_writes_snapshot (Some (lit "id0")) 0 example_loaded_tree dir_D H0 H).
Defined.

(** ** Persistence (C1, C4) *)

(** C1 at three calls.  On a fresh model, a script calls [save] three
    times: the first call starts write 0 and the other two park on its
    promise.  When the host completes write 0, both parked calls resume in
    the same microtask checkpoint and each starts its write: three writes
    are issued in all, but writes 1 and 2 are in flight together, so the
    writes are not serialized.  With two calls they are. *)
Theorem save_three_calls_overlap (host : Host) :
  let parked := script host (three_saves host) initial in
  let resumed := host_completes host 0 parked in
  in_flight parked = [0%nat]
  /\ suspended parked = [0%nat; 0%nat]
  /\ in_flight resumed = [1%nat; 2%nat]
  /\ writes_started (trace resumed) = 3%nat
  /\ in_flight_after [] (List.filter
       (fun e => match e with WriteStart _ _ | WriteEnd _ => true | _ => false end)
       (trace resumed))
     = [[0%nat]; []; [1%nat]; [1%nat; 2%nat]]
  /\ serialized (trace resumed) = false
  /\ serialized (trace (host_completes host 1
       (host_completes host 0 (script host (save host;; save host) initial)))) = true.
Proof.
  cbv zeta.
  split; [vm_compute; reflexivity|].
  split; [vm_compute; reflexivity|].
  split; [vm_compute; reflexivity|].
  split; [vm_compute; reflexivity|].
  split; [vm_compute; reflexivity|].
  split; vm_compute; reflexivity.
Qed.

(** *** The microtask checkpoint *)

Lemma length_settle_split (w : nat) (ps : list nat) :
  (length (filter (fun p => p <> w) ps) + length (filter (fun p => p = w) ps))%nat
  = length ps.
Proof.
  induction ps as [|p ps IH]; [reflexivity|].
  rewrite !filter_cons. repeat case_decide; simpl; try lia; contradiction.
Qed.

(** A job leaves one job or parked call fewer than there were. *)
Lemma run_task_measure (host : Host) (t : Task) (q : list Task) (rt : Runtime) :
  let rt' := state_of (run_task host t (with_microtasks q rt)) in
  (length (microtasks rt') + length (suspended rt'))%nat
  = (length q + length (suspended rt))%nat.
Proof.
  destruct t as [w|]; cbv zeta.
  - simpl. js_unfold. simpl. rewrite length_app, length_map.
    pose proof (length_settle_split w (suspended rt)). lia.
  - change (run_task host SaveResumed) with (save_body host).
    rewrite save_body_state. reflexivity.
Qed.

Lemma run_microtasks_empties (host : Host) (fuel : nat) (rt : Runtime) :
  (length (microtasks rt) + length (suspended rt) <= fuel)%nat ->
  microtasks (run_microtasks host fuel rt) = [].
Proof.
  revert rt. induction fuel as [|fuel IH]; intros rt Hfuel.
  - simpl. destruct (microtasks rt); [reflexivity|simpl in Hfuel; lia].
  - simpl. destruct (microtasks rt) as [|t q] eqn:Hq; [exact Hq|].
    apply IH. rewrite run_task_measure. simpl in Hfuel. lia.
Qed.

(** The checkpoint always empties the queue. *)
Lemma drain_empties (host : Host) (rt : Runtime) : microtasks (drain host rt) = [].
Proof. unfold drain. apply run_microtasks_empties. apply le_n. Qed.

Lemma run_microtasks_idle (host : Host) (fuel : nat) (rt : Runtime) :
  microtasks rt = [] -> run_microtasks host fuel rt = rt.
Proof. intros H. destruct fuel; simpl; [reflexivity|]. rewrite H. reflexivity. Qed.

(** C4 on the code.  The part of [save] after its [await], from any
    state, emits in this order: the saving flag set, the "Saving..."
    status, the start of the write, the assignment of the handle, and the
    "Saved!" status with an id drawn after that of the first status; when
    it ends the write is still in flight, the handle is still set and the
    saving flag is still true.  On a fresh model the completion of the
    write, the clearing of the handle and of the flag come after the
    "Saved!" status. *)
Theorem save_reports_saved_before_completion (host : Host) :
  (forall rt,
      let after := state_of (save_body host rt) in
      let w := writes_issued rt in
      exists doc elapsed,
        trace after
        = trace rt
          ++ [SavingSet true;
              StatusSet (Some {| status_id := uuid_src host (uuid_draws rt);
                                 message := Saving |});
              WriteStart w doc;
              PromiseSet (Some w);
              StatusSet (Some {| status_id := uuid_src host (S (uuid_draws rt));
                                 message := Saved elapsed |})]
        /\ in_flight after = in_flight rt ++ [w]
        /\ saving (model after) = true
        /\ savePromise (model after) = Some w
        /\ status (model after)
           = Some {| status_id := uuid_src host (S (uuid_draws rt));
                     message := Saved elapsed |})
  /\ (let called := script host (save host) initial in
      let completed := host_completes host 0 called in
      trace completed
      = [SavingSet true;
         StatusSet (Some {| status_id := uuid_src host 0; message := Saving |});
         WriteStart 0 empty_library;
         PromiseSet (Some 0%nat);
         StatusSet (Some {| status_id := uuid_src host 1;
                            message := Saved (performance_now host 1
                                              - performance_now host 0) |});
         WriteEnd 0;
         PromiseSet None;
         SavingSet false]
      /\ in_flight called = [0%nat]
      /\ saving (model called) = true
      /\ savePromise (model called) = Some 0%nat
      /\ in_flight completed = []
      /\ saving (model completed) = false
      /\ savePromise (model completed) = None).
Proof.
  split.
  - intros rt. cbv zeta. rewrite save_body_state. simpl.
    do 2 eexists.
    split; [reflexivity|].
    split; [reflexivity|].
    split; [reflexivity|].
    split; reflexivity.
  - cbv zeta.
    split; [vm_compute; reflexivity|].
    split; [vm_compute; reflexivity|].
    split; [vm_compute; reflexivity|].
    split; [vm_compute; reflexivity|].
    split; [vm_compute; reflexivity|].
    split; vm_compute; reflexivity.
Qed.

(** * Further properties of the code *)

(** *** Calls of [save] behind a pending write *)

Lemma park_zero p rt : park p 0 rt = rt.
Proof. destruct rt. unfold park. simpl. rewrite app_nil_r. reflexivity. Qed.

Lemma park_succ p n rt : park p n (park p 1 rt) = park p (S n) rt.
Proof. unfold park. simpl. rewrite <- app_assoc. reflexivity. Qed.

(** While a handle is pending, every call of [save] parks on it and does
    nothing else. *)
Lemma saves_park (host : Host) (n p : nat) (rt : Runtime) :
  savePromise (model rt) = Some p -> saves host n rt = (park p n rt, Normal tt).
Proof.
  revert rt. induction n as [|n IH]; intros rt Hp.
  - simpl. rewrite park_zero. reflexivity.
  - simpl. unfold save at 1. js_unfold. rewrite Hp.
    change (suspend_on p rt) with (park p 1 rt, Normal tt).
    change (saves host n (park p 1 rt) = (park p (S n) rt, Normal tt)).
    rewrite (IH (park p 1 rt) Hp), park_succ. reflexivity.
Qed.

Lemma run_microtasks_step (host : Host) (fuel : nat) (t : Task) (q : list Task)
    (rt : Runtime) :
  microtasks rt = t :: q ->
  run_microtasks host (S fuel) rt
  = run_microtasks host fuel (state_of (run_task host t (with_microtasks q rt))).
Proof. intros H. simpl. rewrite H. reflexivity. Qed.

(** Resumed calls run one after the other within the checkpoint, and
    each starts a write. *)
Lemma resumed_saves_all_write (host : Host) (k fuel : nat) (rt : Runtime) :
  (k <= fuel)%nat ->
  microtasks rt = repeat SaveResumed k ->
  in_flight (run_microtasks host fuel rt) = in_flight rt ++ seq (writes_issued rt) k
  /\ writes_issued (run_microtasks host fuel rt) = (writes_issued rt + k)%nat.
Proof.
  revert fuel rt. induction k as [|k IH]; intros fuel rt Hfuel Hq.
  - rewrite run_microtasks_idle by exact Hq. simpl. rewrite app_nil_r.
    split; [reflexivity|lia].
  - destruct fuel as [|fuel]; [lia|].
    rewrite (run_microtasks_step host fuel SaveResumed (repeat SaveResumed k) rt Hq).
    change (run_task host SaveResumed) with (save_body host).
    rewrite save_body_state. cbn [state_of fst].
    match goal with
    | |- context [run_microtasks host fuel ?r] =>
        destruct (IH fuel r (proj2 (Nat.succ_le_mono _ _) Hfuel) eq_refl) as [H1 H2]
    end.
    rewrite H1, H2. cbn [in_flight writes_issued with_microtasks].
    rewrite <- app_assoc. split; [reflexivity|lia].
Qed.

Lemma parked_all_resume (p n : nat) :
  map (fun _ : nat => SaveResumed) (filter (fun q => q = p) (repeat p n))
  = repeat SaveResumed n.
Proof.
  induction n as [|n IH]; [reflexivity|].
  simpl repeat. rewrite filter_cons, decide_True by reflexivity.
  simpl. f_equal. exact IH.
Qed.

(** On a fresh model a script calls [save] [n]+1 times: the first call
    starts write 0 and the [n] others park on its promise.  When the host
    completes write 0, all the parked calls resume in the same microtask
    checkpoint and each starts its write without looking at the handle
    again: [n]+1 writes are issued in all, one per call, and the writes
    1, ..., [n] are all in flight together. *)
Theorem save_parked_calls_all_write (host : Host) (n : nat) :
  let parked := script host (saves host (S n)) initial in
  let resumed := host_completes host 0 parked in
  in_flight parked = [0%nat]
  /\ suspended parked = repeat 0%nat n
  /\ in_flight resumed = seq 1 n
  /\ writes_issued resumed = S n.
Proof.
  cbv zeta.
  assert (Hparked : script host (saves host (S n)) initial
                    = park 0 n (state_of (save_body host initial))).
  { unfold script. simpl saves. js_unfold.
    change (save host initial) with (save_body host initial).
    rewrite save_body_state.
    rewrite saves_park with (p := 0%nat) by reflexivity.
    unfold drain. apply run_microtasks_idle. reflexivity. }
  rewrite Hparked, save_body_state.
  set (parked := park 0 n _).
  split; [reflexivity|]. split; [reflexivity|].
  assert (Hresumed : exists settled0,
             host_completes host 0 parked = run_microtasks host n settled0
             /\ microtasks settled0 = repeat SaveResumed n
             /\ in_flight settled0 = []
             /\ writes_issued settled0 = 1%nat).
  { unfold host_completes.
    rewrite bool_decide_eq_true_2 by (apply list_elem_of_here).
    unfold drain.
    match goal with
    | |- context [run_microtasks host _ ?r] => set (completed := r)
    end.
    assert (Hfuel : (length (microtasks completed) + length (suspended completed))%nat
                    = S n).
    { unfold completed, parked. cbn [microtasks suspended length park state_of fst].
      rewrite ?app_nil_l, repeat_length. reflexivity. }
    rewrite Hfuel.
    rewrite (run_microtasks_step host n (WriteSettled 0) [] completed eq_refl).
    eexists. split; [reflexivity|].
    split; [|split; reflexivity].
    match goal with
    | |- microtasks ?r = _ =>
        change (microtasks r)
          with ([] ++ map (fun _ : nat => SaveResumed)
                          (filter (fun q => q = 0%nat) (repeat 0%nat n)))
    end.
    rewrite parked_all_resume. reflexivity. }
  destruct Hresumed as (settled0 & -> & Hq & Hin & Hw).
  destruct (resumed_saves_all_write host n n settled0 (le_n n) Hq) as [H1 H2].
  rewrite H1, H2, Hin, Hw. split; reflexivity.
Qed.

(** *** Completion of a write nobody waits for *)

Lemma filter_eq_absent (w : nat) (ps : list nat) :
  w ∉ ps -> filter (fun p => p = w) ps = [] /\ filter (fun p => p <> w) ps = ps.
Proof.
  induction ps as [|p ps IH]; intros Hw; [split; reflexivity|].
  apply not_elem_of_cons in Hw. destruct Hw as [Hne Hw].
  destruct (IH Hw) as [H1 H2].
  rewrite !filter_cons, decide_False by congruence.
  rewrite decide_True by congruence. rewrite H1, H2. split; reflexivity.
Qed.

Lemma host_completes_unparked (host : Host) (w : nat) (rt : Runtime) :
  microtasks rt = [] -> w ∈ in_flight rt -> w ∉ suspended rt ->
  host_completes host w rt
  = {| model := with_saving false (with_savePromise None (model rt));
       uuid_draws := uuid_draws rt; now_reads := now_reads rt;
       perf_reads := perf_reads rt; writes_issued := writes_issued rt;
       in_flight := filter (fun v => v <> w) (in_flight rt);
       suspended := suspended rt;
       microtasks := [];
       timers := timers rt;
       trace := trace rt ++ [WriteEnd w; PromiseSet None; SavingSet false] |}.
Proof.
  intros Hq Hin Hs. destruct (filter_eq_absent w (suspended rt) Hs) as [Hnone Hall].
  unfold host_completes. rewrite bool_decide_eq_true_2 by exact Hin.
  unfold drain. rewrite Hq. cbn [app microtasks suspended length Nat.add].
  erewrite (run_microtasks_step host _ (WriteSettled w) []); [|reflexivity].
  rewrite run_microtasks_idle.
  - unfold run_task, settle. js_unfold. cbn. rewrite Hnone, Hall.
    rewrite <- !app_assoc. reflexivity.
  - unfold run_task, settle. js_unfold. cbn. rewrite Hnone. reflexivity.
Qed.

(** When the host completes a write on which no call of [save] is parked,
    the handle is set to null and the saving flag to false, whatever
    other writes are still in flight; no write is started. *)
Theorem completion_clears_handle_and_flag (host : Host) (w : nat) (rt : Runtime) :
  microtasks rt = [] -> w ∈ in_flight rt -> w ∉ suspended rt ->
  let rt' := host_completes host w rt in
  savePromise (model rt') = None
  /\ saving (model rt') = false
  /\ in_flight rt' = filter (fun v => v <> w) (in_flight rt)
  /\ writes_issued rt' = writes_issued rt
  /\ nodes (model rt') = nodes (model rt)
  /\ files (model rt') = files (model rt)
  /\ tags (model rt') = tags (model rt).
Proof.
  intros Hq Hin Hs. cbv zeta. rewrite (host_completes_unparked host w rt Hq Hin Hs).
  repeat split.
Qed.

(** After three calls of [save] and the completion of write 0, writes 1
    and 2 are in flight; when write 1 completes, the flag says that
    nothing is being saved while write 2 is still in flight. *)
Lemma completion_clears_handle_and_flag_witness :
  let overlapping :=
    host_completes example_host 0 (script example_host (three_saves example_host) initial) in
  in_flight overlapping = [1%nat; 2%nat]
  /\ in_flight (host_completes example_host 1 overlapping) = [2%nat]
  /\ savePromise (model (host_completes example_host 1 overlapping)) = None
  /\ saving (model (host_completes example_host 1 overlapping)) = false.
Proof.
  cbv zeta.
  set (overlapping := host_completes example_host 0 _).
  assert (Hq : microtasks overlapping = []) by (vm_compute; reflexivity).
  assert (Hin : 1%nat ∈ in_flight overlapping)
    by (vm_compute; apply list_elem_of_here).
  assert (Hs : 1%nat ∉ suspended overlapping)
    by (vm_compute; apply not_elem_of_nil).
  destruct (completion_clears_handle_and_flag example_host 1 overlapping Hq Hin Hs)
    as (Hp & Hf & Hi & _).
  split; [vm_compute; reflexivity|].
  split; [rewrite Hi; vm_compute; reflexivity|].
  split; [exact Hp|exact Hf].
Defined.

(** *** Status timeouts *)

Lemma script_save_idle (host : Host) (rt : Runtime) :
  savePromise (model rt) = None -> microtasks rt = [] ->
  script host (save host) rt = state_of (save_body host rt).
Proof.
  intros Hp Hq. unfold script, save. js_unfold. rewrite Hp.
  unfold drain. apply run_microtasks_idle.
  rewrite save_body_state. exact Hq.
Qed.

Lemma timer_fires_status (host : Host) (sid : ID) (rt : Runtime) :
  microtasks rt = [] -> sid ∈ timers rt ->
  status (model (timer_fires host sid rt))
  = match status (model rt) with
    | Some s => if str_eqb (status_id s) sid then None else Some s
    | None => None
    end.
Proof.
  intros Hq Hin. unfold timer_fires. rewrite bool_decide_eq_true_2 by exact Hin.
  cbn [model]. destruct (status (model rt)) as [s|] eqn:Hs.
  - destruct (str_eqb (status_id s) sid).
    + unfold script, drain. rewrite run_microtasks_idle by exact Hq. reflexivity.
    + unfold drain. rewrite run_microtasks_idle by exact Hq. exact Hs.
  - unfold drain. rewrite run_microtasks_idle by exact Hq. exact Hs.
Qed.

(** The timeout that [save] sets clears the "Saved!" status of that
    save.  If the write completes and a later save has set its own
    "Saved!" status by the time the timeout of the first fires, the
    timeout leaves the newer status in place, provided the two status ids
    differ. *)
Theorem stale_timeout_keeps_newer_status (host : Host) (rt : Runtime) :
  savePromise (model rt) = None ->
  microtasks rt = [] ->
  suspended rt = [] ->
  uuid_src host (S (uuid_draws rt)) <> uuid_src host (S (S (S (uuid_draws rt)))) ->
  let statusID := uuid_src host (S (uuid_draws rt)) in
  let first := script host (save host) rt in
  let second := script host (save host) (host_completes host (writes_issued rt) first) in
  (exists elapsed, status (model first)
                   = Some {| status_id := statusID; message := Saved elapsed |})
  /\ status (model (timer_fires host statusID first)) = None
  /\ (exists elapsed, status (model second)
        = Some {| status_id := uuid_src host (S (S (S (uuid_draws rt))));
                  message := Saved elapsed |})
  /\ status (model (timer_fires host statusID second)) = status (model second).
Proof.
  intros Hp Hq Hs Hfresh. cbv zeta.
  rewrite (script_save_idle host rt Hp Hq), save_body_state. cbn [state_of fst].
  set (first := Build_Runtime _ _ _ _ _ _ _ _ _ _).
  rewrite (host_completes_unparked host (writes_issued rt) first);
    [|exact Hq
     |apply elem_of_app; right; apply list_elem_of_here
     |cbn [suspended first]; rewrite Hs; apply not_elem_of_nil].
  rewrite script_save_idle by (cbn; trivial).
  rewrite save_body_state. cbn [state_of fst].
  set (second := Build_Runtime _ _ _ _ _ _ _ _ _ _).
  split; [eexists; reflexivity|].
  split.
  { rewrite timer_fires_status.
    - cbn [status model first status_id]. unfold str_eqb.
      rewrite bool_decide_eq_true_2 by reflexivity. reflexivity.
    - exact Hq.
    - apply elem_of_app. right. apply list_elem_of_here. }
  split; [eexists; reflexivity|].
  rewrite timer_fires_status.
  - cbn [status model second status_id uuid_draws first with_saving with_savePromise].
    unfold str_eqb. rewrite bool_decide_eq_false_2; [reflexivity|].
    intros E. apply Hfresh. symmetry. exact E.
  - reflexivity.
  - cbn [timers second first]. apply elem_of_app. left.
    apply elem_of_app. right. apply list_elem_of_here.
Qed.

(** On a fresh model with the example host, whose ids are distinct. *)
Lemma stale_timeout_keeps_newer_status_witness :
  let statusID := uuid_src example_host 1 in
  let first := script example_host (save example_host) initial in
  let second := script example_host (save example_host)
                  (host_completes example_host 0 first) in
  status (model (timer_fires example_host statusID first)) = None
  /\ status (model (timer_fires example_host statusID second)) = status (model second)
  /\ status (model second)
     = Some {| status_id := lit "id3"; message := Saved 1 |}.
Proof.
  destruct (stale_timeout_keeps_newer_status example_host initial)
    as (_ & H1 & _ & H2).
  - reflexivity.
  - reflexivity.
  - reflexivity.
  - vm_compute. discriminate.
  - cbv zeta. split; [exact H1|]. split; [exact H2|]. vm_compute. reflexivity.
Defined.

(** ** Identifiers that nothing carries *)

Lemma find_absent {A B} (key : A -> B) `{EqDecision B} (p : A -> bool) (k : B)
    (l : list A) :
  (forall x, p x = true -> key x = k) -> ~ In k (map key l) -> find p l = None.
Proof.
  intros Hp Hk. destruct (find p l) as [x|] eqn:Hf; [|reflexivity].
  apply find_some in Hf. destruct Hf as [Hin Px]. exfalso. apply Hk.
  rewrite <- (Hp x Px). apply in_map, Hin.
Qed.

Lemma find_node_absent id ns :
  ~ In id (map node_id ns) -> find (has_node_id id) ns = None.
Proof.
  apply (find_absent node_id). intros x. apply has_node_id_true.
Qed.

Lemma find_file_absent id fs :
  ~ In id (map file_id fs) -> find (has_file_id id) fs = None.
Proof.
  apply (find_absent file_id). intros x. apply has_file_id_true.
Qed.

Lemma is_node_has_node_id id n : is_node (Some id) n = has_node_id id n.
Proof.
  unfold is_node, has_node_id, opt_str_eqb, str_eqb.
  apply bool_decide_ext. split; congruence.
Qed.

Lemma find_is_node id ns : find (is_node (Some id)) ns = find (has_node_id id) ns.
Proof.
  induction ns as [|n ns IH]; [reflexivity|].
  simpl. rewrite is_node_has_node_id, IH. reflexivity.
Qed.

Lemma find_slot_none {A} (p : A -> bool) (l : list A) :
  find p l = None -> find_slot p l = None.
Proof.
  rewrite find_slot_find. destruct (find_slot p l) as [r|] eqn:Hr; [|reflexivity].
  destruct (find_slot_some _ _ _ Hr) as (x & -> & _). discriminate.
Qed.

(** When no node has the id, [getNode] returns undefined, [removeNode],
    [setParent] and [createTree] throw a TypeError and [getPath] (for an
    id other than the reserved one) throws an Error; each leaves the whole
    state as it was. *)
Theorem missing_node_id (host : Host) (rt : Runtime) (id : ID) :
  ~ In id (map node_id (nodes (model rt))) ->
  getNode (Some id) rt = (rt, Normal None)
  /\ removeNode host id rt = (rt, Throw TypeError)
  /\ (forall parent, setParent host id parent rt = (rt, Throw TypeError))
  /\ (forall fuel d, createTree (S fuel) (Some id) d rt = (rt, Throw TypeError))
  /\ (id <> ReservedID.Trash ->
      forall fuel, getPath (S fuel) id rt = (rt, Throw Error)).
Proof.
  intros Hid. pose proof (find_node_absent id _ Hid) as Hf.
  split; [|split; [|split; [|split]]].
  - unfold getNode. js_unfold.
    change (fun n => opt_str_eqb (Some (node_id n)) (Some id)) with (is_node (Some id)).
    rewrite find_is_node, Hf. reflexivity.
  - pose proof (removeNode_run host id rt) as H. unfold nodes_of in H.
    rewrite Hf in H. exact H.
  - intros parent. pose proof (setParent_run host id parent rt) as H.
    unfold nodes_of in H. rewrite Hf in H. exact H.
  - intros fuel d. rewrite createTree_unfold.
    rewrite (find_slot_none (is_node (Some id))); [reflexivity|].
    rewrite find_is_node. exact Hf.
  - intros Hd fuel. rewrite (getPath_not_trash _ _ _ Hd). simpl. rewrite Hf.
    reflexivity.
Qed.

Lemma missing_node_id_witness :
  removeNode example_host (lit "nowhere") example_with_directories
  = (example_with_directories, Throw TypeError)
  /\ getPath 1 (lit "nowhere") example_with_directories
     = (example_with_directories, Throw Error).
Proof.
  destruct (missing_node_id example_host example_with_directories (lit "nowhere"))
    as (_ & H1 & _ & _ & H2).
  - vm_compute. intros [H|[H|[H|[]]]]; discriminate.
  - split; [exact H1|]. apply H2. vm_compute. discriminate.
Defined.

(** When no file record has the id, [getFile] returns undefined and
    [removeFile] throws a TypeError without calling the bridge; a node
    that owns that file cannot be removed: [removeNode] throws a
    TypeError and the node stays. *)
Theorem missing_file_id (host : Host) (rt : Runtime) (fileID : ID) :
  ~ In fileID (map file_id (files (model rt))) ->
  getFile fileID rt = (rt, Normal None)
  /\ removeFile host fileID rt = (rt, Throw TypeError)
  /\ (forall id found,
        find (has_node_id id) (nodes (model rt)) = Some found ->
        owned_file found = Some fileID ->
        removeNode host id rt = (rt, Throw TypeError)).
Proof.
  intros Hid. pose proof (find_file_absent fileID _ Hid) as Hf.
  split; [|split].
  - unfold getFile. js_unfold. rewrite Hf. reflexivity.
  - pose proof (removeFile_run host fileID rt) as H. rewrite Hf in H. exact H.
  - intros id found Hn Ho. pose proof (removeNode_run host id rt) as H.
    unfold nodes_of in H. rewrite Hn, Ho, Hf in H. exact H.
Qed.

(** Removing the file of an image node first, through [removeFile],
    leaves the node in the store with a file id that no record has; with
    unique file ids that node can then no longer be removed. *)
Theorem removeFile_strands_owner (host : Host) (rt : Runtime) (id fileID : ID)
    (found : Node) :
  find (has_node_id id) (nodes (model rt)) = Some found ->
  owned_file found = Some fileID ->
  In fileID (map file_id (files (model rt))) ->
  NoDup (map file_id (files (model rt))) ->
  exists rt1,
    removeFile host fileID rt = (rt1, Normal tt)
    /\ nodes (model rt1) = nodes (model rt)
    /\ removeNode host id rt1 = (rt1, Throw TypeError).
Proof.
  intros Hn Ho Hin Hnd.
  apply in_map_iff in Hin. destruct Hin as (x & Hx & Hin).
  destruct (find_present (has_file_id fileID) (files (model rt))) as (f & Hf).
  { exists x. split; [exact Hin|]. apply has_file_id_true, Hx. }
  pose proof (removeFile_run host fileID rt) as H. rewrite Hf in H.
  destruct H as (rt1 & E & Hn1 & Hf1 & _).
  exists rt1. split; [exact E|]. split; [exact Hn1|].
  pose proof (removeNode_run host id rt1) as H.
  unfold nodes_of in *. rewrite Hn1, Hn, Ho, Hf1 in H.
  rewrite (remove_first_gone fileID _ Hnd) in H. exact H.
Qed.

Lemma missing_file_id_witness :
  removeFile example_host (lit "nofile") example_with_directories
  = (example_with_directories, Throw TypeError).
Proof.
  destruct (missing_file_id example_host example_with_directories (lit "nofile"))
    as (_ & H & _).
  - vm_compute. intros [].
  - exact H.
Defined.

Lemma removeFile_strands_owner_witness :
  exists rt1,
    removeFile example_host (lit "f1") example_with_image = (rt1, Normal tt)
    /\ nodes (model rt1) = nodes (model example_with_image)
    /\ removeNode example_host (lit "id0") rt1 = (rt1, Throw TypeError).
Proof.
  eapply (removeFile_strands_owner example_host example_with_image (lit "id0") (lit "f1")).
  - vm_compute. reflexivity.
  - vm_compute. reflexivity.
  - vm_compute. left. reflexivity.
  - vm_compute. repeat constructor. intros H. inversion H.
Defined.

(** ** What a removal leaves *)

Lemma find_map_blind {A} (p : A -> bool) (g : A -> A) (l : list A) :
  (forall x, p (g x) = p x) -> find p (map g l) = option_map g (find p l).
Proof.
  intros Hp. induction l as [|x l IH]; [reflexivity|].
  simpl. rewrite Hp. destruct (p x); [reflexivity|exact IH].
Qed.

Lemma find_remove_first_other {A} (p q : A -> bool) (l : list A) :
  (forall x, q x = true -> p x = false) ->
  find q (remove_first p l) = find q l.
Proof.
  intros Hpq. induction l as [|x l IH]; [reflexivity|].
  simpl. destruct (p x) eqn:Px.
  - destruct (q x) eqn:Qx; [|reflexivity]. rewrite (Hpq x Qx) in Px. discriminate.
  - simpl. rewrite IH. reflexivity.
Qed.

Lemma remove_first_node_gone id ns :
  NoDup (map node_id ns) ->
  find (has_node_id id) (remove_first (has_node_id id) ns) = None.
Proof.
  induction ns as [|n ns IH]; simpl; [reflexivity|].
  intros Hnd. apply NoDup_cons in Hnd. destruct Hnd as [Hn Hnd].
  destruct (has_node_id id n) eqn:Hp.
  - apply has_node_id_true in Hp. apply find_node_absent.
    rewrite <- Hp. intros Hin. apply Hn, list_elem_of_In, Hin.
  - simpl. rewrite Hp. apply IH, Hnd.
Qed.

Lemma with_index_renumber k n : with_index 0 (renumber k n) = with_index 0 n.
Proof. unfold renumber. destruct (index n >? k); reflexivity. Qed.

Lemma removeNode_normal (host : Host) (rt rt' : Runtime) (id : ID) :
  removeNode host id rt = (rt', Normal tt) ->
  exists found,
    find (has_node_id id) (nodes (model rt)) = Some found
    /\ nodes (model rt')
       = map (renumber (index found)) (remove_first (has_node_id id) (nodes (model rt)))
    /\ tags (model rt') = tags (model rt).
Proof.
  intros Hrun. pose proof (removeNode_run host id rt) as H. unfold nodes_of in H.
  destruct (find (has_node_id id) (nodes (model rt))) as [found|];
    [|rewrite H in Hrun; discriminate].
  exists found. split; [reflexivity|].
  destruct (owned_file found) as [fileID|].
  - destruct (find (has_file_id fileID) (files (model rt)));
      [|rewrite H in Hrun; discriminate].
    destruct H as (rt1 & E & Hn & _ & Ht & _). rewrite E in Hrun.
    injection Hrun as <-. split; [exact Hn|exact Ht].
  - destruct H as (rt1 & E & Hn & _ & Ht & _). rewrite E in Hrun.
    injection Hrun as <-. split; [exact Hn|exact Ht].
Qed.

(** A removal that completes takes exactly one node out, the first with
    the id; the other nodes stay in their order with every field but
    [index] as it was, so that the children of a removed directory keep
    their [parentID]; lookups of other ids find the same node up to its
    index; with unique ids a lookup of the removed id finds nothing. *)
Theorem removeNode_frame (host : Host) (rt rt' : Runtime) (id : ID) :
  removeNode host id rt = (rt', Normal tt) ->
  S (length (nodes (model rt'))) = length (nodes (model rt))
  /\ map (with_index 0) (nodes (model rt'))
     = map (with_index 0) (remove_first (has_node_id id) (nodes (model rt)))
  /\ tags (model rt') = tags (model rt)
  /\ (forall other, other <> id ->
        option_map (with_index 0) (find (has_node_id other) (nodes (model rt')))
        = option_map (with_index 0) (find (has_node_id other) (nodes (model rt))))
  /\ (NoDup (map node_id (nodes (model rt))) ->
      completion_of (getNode (Some id) rt') = Normal None).
Proof.
  intros Hrun. destruct (removeNode_normal host rt rt' id Hrun) as (found & Hf & Hn & Ht).
  rewrite Hn. split; [|split; [|split; [exact Ht|split]]].
  - rewrite length_map. eapply remove_first_length. exact Hf.
  - rewrite map_map. apply map_ext. intros n. apply with_index_renumber.
  - intros other Hne.
    rewrite (find_map_blind (has_node_id other) (renumber (index found))).
    + rewrite find_remove_first_other.
      * destruct (find (has_node_id other) (nodes (model rt))); simpl;
          [rewrite with_index_renumber|]; reflexivity.
      * intros x Qx. apply has_node_id_true in Qx.
        destruct (has_node_id id x) eqn:Px; [|reflexivity].
        apply has_node_id_true in Px. congruence.
    + intros x. unfold renumber. destruct (index x >? index found); reflexivity.
  - intros Hnd. unfold getNode. js_unfold. rewrite Hn. simpl.
    change (fun n => opt_str_eqb (Some (node_id n)) (Some id)) with (is_node (Some id)).
    rewrite find_is_node, (find_map_blind (has_node_id id) (renumber (index found))).
    + rewrite (remove_first_node_gone id _ Hnd). reflexivity.
    + intros x. unfold renumber. destruct (index x >? index found); reflexivity.
Qed.

Lemma removeNode_frame_witness :
  let removed := state_of (removeNode example_host (lit "id0") example_with_directories) in
  map node_id (nodes (model removed)) = [lit "id1"; lit "id2"]
  /\ map parentID (nodes (model removed)) = [Some (lit "id0"); Some (lit "id1")]
  /\ S (length (nodes (model removed))) = length (nodes (model example_with_directories)).
Proof.
  cbv zeta.
  set (removed := state_of (removeNode example_host (lit "id0") example_with_directories)).
  assert (E : removeNode example_host (lit "id0") example_with_directories
              = (removed, Normal tt)) by (vm_compute; reflexivity).
  destruct (removeNode_frame example_host example_with_directories removed (lit "id0") E)
    as (Hlen & _).
  split; [vm_compute; reflexivity|]. split; [vm_compute; reflexivity|exact Hlen].
Defined.

(** Removing a directory does not remove or re-parent what is in it:
    with unique ids, a node whose [parentID] was the removed id is still
    there with that [parentID], and its path can no longer be resolved:
    [getPath] on it throws an Error as soon as it may take two steps. *)
Theorem removeNode_orphans_children (host : Host) (rt rt' : Runtime) (id cid : ID)
    (child : Node) :
  removeNode host id rt = (rt', Normal tt) ->
  NoDup (map node_id (nodes (model rt))) ->
  find (has_node_id cid) (nodes (model rt)) = Some child ->
  parentID child = Some id ->
  cid <> id ->
  cid <> ReservedID.Trash ->
  (exists child', find (has_node_id cid) (nodes (model rt')) = Some child'
                  /\ parentID child' = Some id
                  /\ variant child' = variant child)
  /\ forall fuel, getPath (S (S fuel)) cid rt' = (rt', Throw Error).
Proof.
  intros Hrun Hnd Hc Hp Hne Htrash.
  destruct (removeNode_normal host rt rt' id Hrun) as (found & Hf & Hn & _).
  assert (Hblind : forall i x, has_node_id i (renumber (index found) x) = has_node_id i x).
  { intros i x. unfold renumber. destruct (index x >? index found); reflexivity. }
  assert (Hc' : find (has_node_id cid) (nodes (model rt'))
                = Some (renumber (index found) child)).
  { rewrite Hn, (find_map_blind _ _ _ (Hblind cid)), find_remove_first_other, Hc;
      [reflexivity|].
    intros x Qx. apply has_node_id_true in Qx.
    destruct (has_node_id id x) eqn:Px; [|reflexivity].
    apply has_node_id_true in Px. congruence. }
  assert (Hgone : find (has_node_id id) (nodes (model rt')) = None).
  { rewrite Hn, (find_map_blind _ _ _ (Hblind id)), (remove_first_node_gone id _ Hnd).
    reflexivity. }
  assert (Hp' : parentID (renumber (index found) child) = Some id).
  { unfold renumber. destruct (index child >? index found); exact Hp. }
  split.
  - exists (renumber (index found) child). split; [exact Hc'|]. split; [exact Hp'|].
    unfold renumber. destruct (index child >? index found); reflexivity.
  - intros fuel. rewrite (getPath_not_trash _ _ _ Htrash). simpl.
    rewrite Hc', Hp', Hgone. reflexivity.
Qed.

Lemma removeNode_orphans_children_witness :
  let removed := state_of (removeNode example_host (lit "id0") example_with_directories) in
  getPath 2 (lit "id1") example_with_directories
  = (example_with_directories, Normal (lit "/A/B"))
  /\ getPath 2 (lit "id1") removed = (removed, Throw Error).
Proof.
  cbv zeta.
  set (removed := state_of (removeNode example_host (lit "id0") example_with_directories)).
  assert (E : removeNode example_host (lit "id0") example_with_directories
              = (removed, Normal tt)) by (vm_compute; reflexivity).
  destruct (removeNode_orphans_children example_host example_with_directories removed
              (lit "id0") (lit "id1") dir_B E) as (_ & H).
  - vm_compute. repeat constructor; intros H; inversion H; subst;
      repeat match goal with
             | H : _ ∈ _ |- _ => inversion H; clear H; subst
             end.
  - vm_compute. reflexivity.
  - reflexivity.
  - vm_compute. discriminate.
  - vm_compute. discriminate.
  - split; [vm_compute; reflexivity|]. exact (H 0%nat).
Defined.

(** ** Lookups after an addition *)

Lemma find_snoc {A} (p : A -> bool) (l : list A) (x : A) :
  find p (l ++ [x])
  = match find p l with
    | Some y => Some y
    | None => if p x then Some x else None
    end.
Proof.
  induction l as [|y l IH]; simpl; [reflexivity|].
  destruct (p y); [reflexivity|exact IH].
Qed.

Lemma getNode_completion id rt :
  completion_of (getNode (Some id) rt)
  = Normal (find (has_node_id id) (nodes (model rt))).
Proof.
  unfold getNode. js_unfold. simpl.
  change (fun n => opt_str_eqb (Some (node_id n)) (Some id)) with (is_node (Some id)).
  rewrite find_is_node. reflexivity.
Qed.

Lemma appends_found (m : Js Node) :
  appends_indexed m (fun n => n) -> added_node_found m.
Proof.
  intros Hm rt. destruct (Hm rt) as (rt' & n & E & Hn & _). unfold nodes_of in Hn.
  exists rt', n. split; [exact E|]. split; [exact Hn|].
  split; [|split].
  - intros id Hne. rewrite !getNode_completion, Hn, find_snoc.
    destruct (find (has_node_id id) (nodes (model rt))); [reflexivity|].
    destruct (has_node_id id n) eqn:Hp; [|reflexivity].
    apply has_node_id_true in Hp. congruence.
  - intros Hfresh. rewrite getNode_completion, Hn, find_snoc.
    rewrite (find_node_absent _ _ Hfresh).
    rewrite (proj2 (has_node_id_true (node_id n) n) eq_refl). reflexivity.
  - intros old. rewrite !getNode_completion, Hn, find_snoc.
    intros [= ->]. reflexivity.
Qed.

(** After any of the four typed constructors, [getNode] answers as before
    for every id other than that of the new node; for the id of the new
    node it returns the new node if the id was not in use, and otherwise
    the older node that has it: a new node never takes the place of an
    existing one in lookups. *)
Theorem constructors_lookup (host : Host) (t : Timestamp) (parent : option ID)
    (tgs : option (list jsstring)) :
  (forall text, added_node_found (addTextNode host text t parent tgs))
  /\ (forall file, added_node_found (addImageNode host file t parent tgs))
  /\ (forall dir, added_node_found (addDirectoryNode host dir t parent tgs))
  /\ (forall anchor, added_node_found (addAnchorNode host anchor t parent tgs)).
Proof.
  split; [|split; [|split]]; intros x; apply appends_found.
  - apply addTextNode_appends.
  - apply addImageNode_appends.
  - apply addDirectoryNode_appends.
  - apply addAnchorNode_appends.
Qed.

(** ** Tags *)

(** [createTag] always appends a tag with the drawn id and the given
    name, and touches neither nodes nor files; it never merges: if a tag
    with a name the collator finds equal exists, [findTag] keeps returning
    that older tag, and otherwise it returns the new one; lookups of names
    the collator tells from the new name are as before; [getTag] on the
    new id returns the new tag if the id was not in use. *)
Theorem createTag_appends (host : Host) (rt : Runtime) (nm : jsstring) :
  let created := {| tag_id := uuid_src host (uuid_draws rt); tag_name := nm |} in
  exists rt',
    createTag host nm rt = (rt', Normal (tag_id created))
    /\ tags (model rt') = tags (model rt) ++ [created]
    /\ nodes (model rt') = nodes (model rt)
    /\ files (model rt') = files (model rt)
    /\ completion_of (findTag nm rt')
       = Normal (Some (default created
                         (find (fun t => JsString.equal_accent (tag_name t) nm)
                               (tags (model rt)))))
    /\ (forall other, JsString.equal_accent nm other = false ->
          completion_of (findTag other rt') = completion_of (findTag other rt))
    /\ (~ In (tag_id created) (map tag_id (tags (model rt))) ->
        completion_of (getTag (tag_id created) rt') = Normal (Some created)).
Proof.
  cbv zeta. unfold createTag, uuidv4. js_unfold. simpl.
  after_save host. exists rt'. split; [reflexivity|].
  unfold nodes_of in *. simpl in *.
  assert (Htags : tags (model rt')
                  = tags (model rt)
                    ++ [{| tag_id := uuid_src host (uuid_draws rt); tag_name := nm |}])
    by congruence.
  split; [exact Htags|]. split; [congruence|]. split; [congruence|].
  split; [|split].
  - unfold findTag. js_unfold. simpl. rewrite Htags, find_snoc.
    destruct (find _ (tags (model rt))); [reflexivity|].
    simpl. rewrite equal_accent_refl. reflexivity.
  - intros other Hne. unfold findTag. js_unfold. simpl. rewrite Htags, find_snoc.
    destruct (find _ (tags (model rt))); [reflexivity|].
    simpl. rewrite Hne. reflexivity.
  - intros Hfresh. unfold getTag. js_unfold. simpl. rewrite Htags, find_snoc.
    rewrite (find_absent tag_id (fun t => str_eqb (tag_id t) (uuid_src host (uuid_draws rt)))
               _ _ (fun x H => proj1 (bool_decide_eq_true _) H) Hfresh).
    simpl. unfold str_eqb. rewrite bool_decide_eq_true_2 by reflexivity. reflexivity.
Qed.

(** ** Adding, then removing *)

Lemma remove_first_snoc {A} (p : A -> bool) (l : list A) (x : A) :
  find p l = None -> p x = true -> remove_first p (l ++ [x]) = l.
Proof.
  intros Hl Px. induction l as [|y l IH]; simpl.
  - rewrite Px. reflexivity.
  - simpl in Hl. destruct (p y); [discriminate|]. rewrite (IH Hl). reflexivity.
Qed.

Lemma renumber_dense_last ns :
  dense ns -> map (renumber (Z.of_nat (length ns))) ns = ns.
Proof.
  intros Hd. transitivity (map (fun n : Node => n) ns); [|apply map_id].
  apply map_ext_in. intros n Hn. unfold renumber.
  assert (Hin : In (index n) (indices_below (length ns))).
  { eapply Permutation_in; [exact Hd|]. apply in_map, Hn. }
  unfold indices_below in Hin. apply in_map_iff in Hin.
  destruct Hin as (k & Hk & Hks). apply in_seq in Hks.
  destruct (Z.gtb_spec (index n) (Z.of_nat (length ns))); [lia|reflexivity].
Qed.

Lemma addImageNode_run (host : Host) (file : File) (t : Timestamp)
    (parent : option ID) (tgs : option (list jsstring)) (rt : Runtime) :
  let node := {| node_id := uuid_src host (uuid_draws rt);
                 variant := ImageNode (file_id file) None;
                 created := t; modified := t; node_tags := drop_empty tgs;
                 index := Z.of_nat (length (nodes (model rt)));
                 parentID := parent; depth := None |} in
  exists rt',
    addImageNode host file t parent tgs rt = (rt', Normal node)
    /\ nodes (model rt') = nodes (model rt) ++ [node]
    /\ files (model rt') = files (model rt) ++ [file]
    /\ tags (model rt') = tags (model rt)
    /\ blobs_removed (trace rt') = blobs_removed (trace rt).
Proof.
  cbv zeta. unfold addImageNode, addFile, addNode, getNextIndex, uuidv4.
  js_unfold. simpl. after_save host. exists rt'. split; [reflexivity|].
  unfold nodes_of in *. simpl in *. repeat split; congruence.
Qed.

(** In a store whose index values are dense, adding an image node with
    its file and then removing that node gives back the nodes, files and
    tags there were, provided the drawn node id and the file id were not
    in use; the bridge is asked once to remove the file. *)
Theorem add_then_remove_image (host : Host) (file : File) (t : Timestamp)
    (parent : option ID) (tgs : option (list jsstring)) (rt : Runtime) :
  dense (nodes (model rt)) ->
  ~ In (uuid_src host (uuid_draws rt)) (map node_id (nodes (model rt))) ->
  ~ In (file_id file) (map file_id (files (model rt))) ->
  exists rt1 node rt2,
    addImageNode host file t parent tgs rt = (rt1, Normal node)
    /\ removeNode host (node_id node) rt1 = (rt2, Normal tt)
    /\ nodes (model rt2) = nodes (model rt)
    /\ files (model rt2) = files (model rt)
    /\ tags (model rt2) = tags (model rt)
    /\ blobs_removed (trace rt2) = blobs_removed (trace rt) ++ [file_id file].
Proof.
  intros Hd Hnode Hfile.
  destruct (addImageNode_run host file t parent tgs rt) as (rt1 & E1 & Hn1 & Hf1 & Ht1 & Hb1).
  set (node := Build_Node _ _ _ _ _ _ _ _) in *.
  assert (Hfn : find (has_node_id (node_id node)) (nodes (model rt)) = None)
    by exact (find_node_absent _ _ Hnode).
  pose proof (find_file_absent _ _ Hfile) as Hff.
  assert (Hpn : has_node_id (node_id node) node = true)
    by (apply has_node_id_true; reflexivity).
  assert (Hpf : has_file_id (file_id file) file = true)
    by (apply has_file_id_true; reflexivity).
  pose proof (removeNode_run host (node_id node) rt1) as H. unfold nodes_of in H.
  rewrite Hn1, find_snoc, Hfn, Hpn in H.
  change (owned_file node) with (Some (file_id file)) in H.
  rewrite Hf1, find_snoc, Hff, Hpf in H.
  destruct H as (rt2 & E2 & Hn2 & Hf2 & Ht2 & Hb2).
  exists rt1, node, rt2. split; [exact E1|]. split; [exact E2|].
  rewrite (remove_first_snoc _ _ _ Hfn Hpn) in Hn2.
  rewrite (remove_first_snoc _ _ _ Hff Hpf) in Hf2.
  change (index node) with (Z.of_nat (length (nodes (model rt)))) in Hn2.
  rewrite (renumber_dense_last _ Hd) in Hn2.
  repeat split; congruence.
Qed.

Lemma add_then_remove_image_witness :
  exists rt1 node rt2,
    addImageNode example_host example_file 9 None None example_with_directories
    = (rt1, Normal node)
    /\ removeNode example_host (node_id node) rt1 = (rt2, Normal tt)
    /\ nodes (model rt2) = nodes (model example_with_directories)
    /\ files (model rt2) = files (model example_with_directories)
    /\ tags (model rt2) = tags (model example_with_directories)
    /\ blobs_removed (trace rt2)
       = blobs_removed (trace example_with_directories) ++ [file_id example_file].
Proof.
  apply add_then_remove_image.
  - rewrite example_with_directories_nodes. unfold dense. vm_compute. reflexivity.
  - vm_compute. intros [H|[H|[H|[]]]]; discriminate.
  - vm_compute. intros [].
Defined.

(** ** More on the navigation tree *)







(** A later call of [createTree] on the same id, with any depth, on the
    model as an earlier call that returned left it, returns the same
    tree. *)
Theorem createTree_again (fuel : nat) (parent : option ID) (d d2 : Z)
    (rt rt' : Runtime) (t : NestedNodeArray) :
  createTree fuel parent d rt = (rt', Normal t) ->
  exists rt'', createTree fuel parent d2 rt' = (rt'', Normal t).
Proof.
  intros E. pose proof (createTree_state_similar _ _ _ _ _ _ E) as Hs.
  pose proof (createTree_keeps_frozen fuel parent d rt) as Hk. rewrite E in Hk.
  destruct (createTree_similar fuel parent d d2 rt rt' rt' t Hs Hk E) as (rt'' & E2 & _).
  exists rt''. exact E2.
Qed.

Lemma createTree_again_witness :
  let first := createTree 3 (Some (lit "id0")) 0 example_loaded_tree in
  completion_of first = Normal (Nested 0 [Nested 1 []])
  /\ exists rt'', createTree 3 (Some (lit "id0")) 5 (state_of first)
                  = (rt'', Normal (Nested 0 [Nested 1 []])).
Proof.
  cbv zeta.
  set (after := state_of (createTree 3 (Some (lit "id0")) 0 example_loaded_tree)).
  assert (E : createTree 3 (Some (lit "id0")) 0 example_loaded_tree
              = (after, Normal (Nested 0 [Nested 1 []]))) by (vm_compute; reflexivity).
  split; [vm_compute; reflexivity|].
  exact (createTree_again 3 (Some (lit "id0")) 0 5 example_loaded_tree after _ E).
Defined.

(** ** A directory that is its own parent *)






Section SelfParent.

Context (ns : list Node) (d : ID) (r : nat) (node : Node).
Hypothesis Hslot : find_slot (is_node (Some d)) ns = Some r.
Hypothesis Hnode : ns !! r = Some node.
Hypothesis Hparent : parentID node = Some d.
Hypothesis Hdir : type node = Directory.



End SelfParent.

Lemma insert_first_match {A} (p : A -> bool) (l : list A) (x y : A) :
  find p l = Some x -> p y = true ->
  find p (<[Z.to_nat (findIndex p l) := y]> l) = Some y.
Proof.
  intros Hf Py. destruct (findIndex_split p l x Hf) as (l1 & l2 & -> & _ & Hl1 & ->).
  rewrite Nat2Z.id. clear Hf.
  induction Hl1 as [|z l1 Pz _ IH]; simpl.
  - rewrite Py. reflexivity.
  - rewrite Pz. exact IH.
Qed.




(** ** Paths that differ in case *)

Lemma upper_not_slash c :
  N.eqb (if (97 <=? c)%N && (c <=? 122)%N then (c - 32)%N else c) 47 = N.eqb c 47.
Proof.
  destruct ((97 <=? c)%N && (c <=? 122)%N) eqn:Hc; [|reflexivity].
  destruct (andb_prop _ _ Hc) as [H1 H2].
  apply N.leb_le in H1. apply N.leb_le in H2.
  destruct (N.eqb_spec (c - 32) 47); destruct (N.eqb_spec c 47); try reflexivity; lia.
Qed.

Lemma split_upper s :
  JsString.split 47 (JsString.to_upper_ascii s)
  = map JsString.to_upper_ascii (JsString.split 47 s).
Proof.
  induction s as [|c s IH]; [reflexivity|].
  cbn [JsString.to_upper_ascii map JsString.split].
  fold (JsString.to_upper_ascii s). rewrite upper_not_slash, IH.
  destruct (N.eqb c 47); [reflexivity|].
  destruct (JsString.split 47 s) as [|piece pieces]; reflexivity.
Qed.

Lemma filter_nonempty_upper (l : list jsstring) :
  filter (fun d : jsstring => (0 < length d)%nat) (map JsString.to_upper_ascii l)
  = map JsString.to_upper_ascii (filter (fun d : jsstring => (0 < length d)%nat) l).
Proof.
  induction l as [|d l IH]; [reflexivity|].
  assert (Hl : length (JsString.to_upper_ascii d) = length d)
    by (unfold JsString.to_upper_ascii; apply length_map).
  cbn [map]. rewrite !filter_cons, Hl.
  destruct (decide (0 < length d)%nat); cbn [map]; rewrite IH; reflexivity.
Qed.

Lemma is_directory_named_key parent dir dir' n :
  JsString.sort_key dir = JsString.sort_key dir' ->
  is_directory_named parent dir' n = is_directory_named parent dir n.
Proof.
  intros Hk. unfold is_directory_named, JsString.equal_accent.
  destruct (name n); [|reflexivity]. rewrite Hk. reflexivity.
Qed.

Lemma find_ext {A} (p q : A -> bool) (l : list A) :
  (forall x, p x = q x) -> find p l = find q l.
Proof.
  intros H. induction l as [|x l IH]; [reflexivity|].
  simpl. rewrite H, IH. reflexivity.
Qed.

(** Run on a store with the nodes a first run left, the loop over
    segments that the collator finds equal to those of the first run
    finds every one of them. *)
Lemma createDirectory_loop_again_key (host : Host) dirs dirs' :
  Forall2 (fun a b => JsString.sort_key a = JsString.sort_key b) dirs dirs' ->
  forall parent rt rt1 leaf,
    createDirectory_loop host dirs parent rt = (rt1, Normal leaf) ->
    forall s, nodes (model s) = nodes (model rt1) ->
      createDirectory_loop host dirs' parent s = (s, Normal leaf).
Proof.
  induction 1 as [|dir dir' dirs dirs' Hk _ IH]; intros parent rt rt1 leaf; simpl.
  - intros [= <- <-] s _. reflexivity.
  - intros Hrun s Hs.
    pose proof (createDirectory_step_run host parent dir rt) as Hstep.
    pose proof (createDirectory_step_run host parent dir' s) as Hagain.
    rewrite (find_ext _ _ _ (fun n => is_directory_named_key parent dir dir' n Hk))
      in Hagain.
    js_unfold.
    destruct (find (is_directory_named parent dir) (nodes (model rt))) as [n|] eqn:Hf.
    + rewrite Hstep in Hrun.
      destruct (createDirectory_loop_run host dirs (Some (node_id n)) rt)
        as (rt1' & leaf' & added & E & Hn & _).
      rewrite E in Hrun. injection Hrun as <- <-.
      rewrite Hs, Hn, (find_app_found _ _ _ _ Hf) in Hagain.
      rewrite Hagain. eapply IH; eassumption.
    + destruct Hstep as (rt' & n & E' & Hn' & Hv & Hp). rewrite E' in Hrun.
      destruct (createDirectory_loop_run host dirs (Some (node_id n)) rt')
        as (rt1' & leaf' & added & E & Hn & _).
      rewrite E in Hrun. injection Hrun as <- <-.
      rewrite Hs, Hn, Hn', <- app_assoc in Hagain. simpl in Hagain.
      rewrite (find_app_fresh _ _ _ _ Hf (is_directory_named_new _ _ _ Hv Hp))
        in Hagain.
      rewrite Hagain. eapply IH; eassumption.
Qed.

Lemma upper_same_keys (l : list jsstring) :
  Forall2 (fun a b => JsString.sort_key a = JsString.sort_key b)
          l (map JsString.to_upper_ascii l).
Proof.
  induction l as [|d l IH]; constructor; [|exact IH].
  symmetry. apply sort_key_upper.
Qed.

(** Directory paths are matched without regard to case: after
    [createDirectory(path)], a call with the upper-cased path, on any
    store that has the nodes the first call left, creates no node and
    returns the same leaf id. *)
Theorem createDirectory_ignores_case (host : Host) (path : jsstring) (rt : Runtime) :
  exists rt1 leaf,
    createDirectory host path rt = (rt1, Normal leaf)
    /\ forall s, nodes (model s) = nodes (model rt1) ->
         exists s', createDirectory host (JsString.to_upper_ascii path) s
                    = (s', Normal leaf)
                    /\ nodes (model s') = nodes (model s).
Proof.
  destruct (createDirectory_run host path rt)
    as (rt0 & rt1 & leaf & added & Eloop & E & H01 & _ & _).
  exists rt1, leaf. split; [exact E|]. intros s Hs.
  destruct (createDirectory_run host (JsString.to_upper_ascii path) s)
    as (s0 & s1 & leaf' & added' & Eloop' & E' & H01' & _ & _).
  rewrite split_upper, filter_nonempty_upper in Eloop'.
  assert (Heq : (s0, Normal leaf') = (s, Normal leaf)).
  { rewrite <- Eloop'.
    exact (createDirectory_loop_again_key host _ _ (upper_same_keys _) _ _ _ _ Eloop s
             (eq_trans Hs H01)). }
  injection Heq as -> ->. exists s1. split; [exact E'|exact H01'].
Qed.

(** ** What a removal persists first *)

Lemma removeFile_idle (host : Host) (fileID : ID) (rt : Runtime) (f : File) :
  savePromise (model rt) = None ->
  find (has_file_id fileID) (files (model rt)) = Some f ->
  removeFile host fileID rt
  = save_body host
      (with_model (with_files (remove_first (has_file_id fileID) (files (model rt))))
                  (log (BlobRemoved (file_id f)) rt)).
Proof.
  intros Hp Hf. unfold removeFile. js_unfold. rewrite findIndex_find, Hf.
  cbn -[save_body save]. rewrite (splice1_findIndex _ _ _ Hf).
  unfold save. js_unfold. cbn -[save_body]. rewrite Hp. reflexivity.
Qed.

(** With no save pending, removing a node that owns a file starts exactly
    one write, and the document of that write is the store between the
    two halves of the removal: the file record is gone but the node is
    still listed.  The save of the finished removal is parked behind that
    write. *)
Theorem removeNode_writes_intermediate (host : Host) (rt : Runtime) (id fileID : ID)
    (found : Node) (f : File) :
  savePromise (model rt) = None ->
  find (has_node_id id) (nodes (model rt)) = Some found ->
  owned_file found = Some fileID ->
  find (has_file_id fileID) (files (model rt)) = Some f ->
  exists rt',
    removeNode host id rt = (rt', Normal tt)
    /\ writes_issued rt' = S (writes_issued rt)
    /\ suspended rt' = suspended rt ++ [writes_issued rt]
    /\ In (WriteStart (writes_issued rt)
             {| lib_nodes := nodes (model rt);
                lib_files := remove_first (has_file_id fileID) (files (model rt));
                lib_tags := tags (model rt);
                lib_version := LIBRARY_VERSION |})
          (trace rt')
    /\ In found (nodes (model rt))
    /\ nodes (model rt')
       = map (renumber (index found)) (remove_first (has_node_id id) (nodes (model rt))).
Proof.
  intros Hp Hn Ho Hf.
  assert (Hfinish : forall rt0 : Runtime,
             rt0 = state_of (removeFile host fileID rt) ->
             exists rt',
               save host (with_model (with_nodes (map (renumber (index found))
                  (splice1 (findIndex (has_node_id id) (nodes (model rt0)))
                           (nodes (model rt0))))) rt0) = (rt', Normal tt)
               /\ writes_issued rt' = S (writes_issued rt)
               /\ suspended rt' = suspended rt ++ [writes_issued rt]
               /\ In (WriteStart (writes_issued rt)
                        {| lib_nodes := nodes (model rt);
                           lib_files := remove_first (has_file_id fileID) (files (model rt));
                           lib_tags := tags (model rt);
                           lib_version := LIBRARY_VERSION |})
                     (trace rt')
               /\ In found (nodes (model rt))
               /\ nodes (model rt')
                  = map (renumber (index found))
                        (remove_first (has_node_id id) (nodes (model rt)))).
  { intros rt0 ->. rewrite (removeFile_idle host fileID rt f Hp Hf), save_body_state.
    cbn [state_of fst model nodes with_model with_files log].
    rewrite (splice1_findIndex _ _ _ Hn).
    eexists. split; [reflexivity|].
    cbn. split; [reflexivity|]. split; [reflexivity|].
    split; [|split; [eapply find_some; exact Hn|reflexivity]].
    apply in_or_app. right. right. right. left. reflexivity. }
  unfold removeNode. js_unfold. rewrite findIndex_find, Hn.
  unfold owned_file in Ho.
  destruct (variant found) as [c|fid dsc|anchor|nm] eqn:Hv; try discriminate.
  - injection Ho as ->.
    rewrite (removeFile_idle host fileID rt f Hp Hf), save_body_state.
    cbn [fst snd].
    specialize (Hfinish _ eq_refl).
    rewrite (removeFile_idle host fileID rt f Hp Hf), save_body_state in Hfinish.
    exact Hfinish.
  - rewrite Ho.
    rewrite (removeFile_idle host fileID rt f Hp Hf), save_body_state.
    cbn [fst snd].
    specialize (Hfinish _ eq_refl).
    rewrite (removeFile_idle host fileID rt f Hp Hf), save_body_state in Hfinish.
    exact Hfinish.
Qed.

Lemma removeNode_writes_intermediate_witness :
  exists rt',
    removeNode example_host (lit "id0")
      (host_completes example_host 0 example_with_image) = (rt', Normal tt)
    /\ writes_issued rt' = 2%nat
    /\ suspended rt' = [1%nat]
    /\ map node_id (nodes (model rt')) = []
    /\ exists doc, In (WriteStart 1 doc) (trace rt')
                   /\ map node_id (lib_nodes doc) = [lit "id0"]
                   /\ lib_files doc = [].
Proof.
  set (rt := host_completes example_host 0 example_with_image).
  destruct (removeNode_writes_intermediate example_host rt (lit "id0") (lit "f1"))
    with (found := Build_Node (lit "id0") (ImageNode (lit "f1") None) 2 2 None 0 None None)
         (f := example_file)
    as (rt' & E & Hw & Hs & Hin & _ & Hn).
  - vm_compute. reflexivity.
  - vm_compute. reflexivity.
  - reflexivity.
  - vm_compute. reflexivity.
  - exists rt'. split; [exact E|]. split; [exact Hw|]. split; [exact Hs|].
    split; [rewrite Hn; vm_compute; reflexivity|].
    eexists. split; [exact Hin|]. split; vm_compute; reflexivity.
Defined.

Lemma Resolves_app ns extra d chain :
  Resolves ns d chain -> Resolves (ns ++ extra) d chain.
Proof.
  induction 1 as [d n Hf Hp | d n p chain Hf Hp _ IH].
  - apply Resolves_root; [apply find_app_found|]; assumption.
  - eapply Resolves_step; [apply find_app_found; eassumption|eassumption|exact IH].
Qed.

Lemma chain_to_app ns extra parent chain :
  chain_to ns parent chain -> chain_to (ns ++ extra) parent chain.
Proof. destruct parent; simpl; [apply Resolves_app|auto]. Qed.

Lemma chain_to_extend ns parent chain n :
  chain_to ns parent chain ->
  find (has_node_id (node_id n)) ns = Some n -> parentID n = parent ->
  chain_to ns (Some (node_id n)) (chain ++ [n]).
Proof.
  intros Hc Hf Hp. destruct parent as [p|]; simpl in *.
  - eapply Resolves_step; eassumption.
  - subst chain. apply Resolves_root; assumption.
Qed.

Lemma find_unique_id ns n :
  NoDup (map node_id ns) -> In n ns -> find (has_node_id (node_id n)) ns = Some n.
Proof.
  induction ns as [|m ns IH]; intros Hnd Hin; [destruct Hin|].
  simpl in Hnd. apply NoDup_cons in Hnd. destruct Hnd as [Hm Hnd].
  simpl. destruct (has_node_id (node_id n) m) eqn:E.
  - apply has_node_id_true in E. destruct Hin as [->|Hin]; [reflexivity|].
    exfalso. apply Hm. rewrite E. apply list_elem_of_In, in_map, Hin.
  - destruct Hin as [->|Hin]; [|auto].
    rewrite (proj2 (has_node_id_true _ _) eq_refl) in E. discriminate.
Qed.

Lemma is_directory_named_like parent dir n :
  is_directory_named parent dir n = true ->
  directory_like n dir /\ parentID n = parent.
Proof.
  unfold is_directory_named, directory_like, opt_str_eqb. intros H.
  apply andb_true_iff in H. destruct H as [H Hn].
  apply andb_true_iff in H. destruct H as [Ht Hp].
  apply bool_decide_eq_true in Ht. apply bool_decide_eq_true in Hp.
  split; [split; [exact Ht|]|exact Hp].
  destruct (name n) as [s|]; [eauto|discriminate].
Qed.

Lemma fresh_ids_fewer host k rt : fresh_ids host (S k) rt -> fresh_ids host k rt.
Proof.
  unfold fresh_ids. rewrite seq_S, map_app, app_assoc. intros H.
  apply NoDup_app in H. apply H.
Qed.

Lemma fresh_ids_store host k rt : fresh_ids host k rt -> NoDup (map node_id (nodes_of rt)).
Proof. unfold fresh_ids. intros H. apply NoDup_app in H. apply H. Qed.

Lemma createDirectory_step_new (host : Host) parent dir rt :
  find (is_directory_named parent dir) (nodes (model rt)) = None ->
  exists rt' n,
    createDirectory_step host parent dir rt = (rt', Normal (Some (node_id n)))
    /\ nodes_of rt' = nodes_of rt ++ [n]
    /\ variant n = DirectoryNode dir
    /\ parentID n = parent
    /\ node_id n = uuid_src host (uuid_draws rt)
    /\ uuid_draws rt' = S (uuid_draws rt).
Proof.
  intros Hf. unfold createDirectory_step, findDirectory. js_unfold. rewrite Hf.
  unfold now, addDirectoryNode, addNode, getNextIndex, uuidv4, nodes_of. js_unfold. simpl.
  eexists.
  exists {| node_id := uuid_src host (uuid_draws rt); variant := DirectoryNode dir;
            created := bridge_now host (now_reads rt);
            modified := bridge_now host (now_reads rt); node_tags := None;
            index := Z.of_nat (length (nodes (model rt)));
            parentID := parent; depth := None |}.
  split; [reflexivity|]. repeat split.
Qed.

Lemma createDirectory_loop_chain (host : Host) dirs :
  forall parent rt chain,
    fresh_ids host (length dirs) rt ->
    chain_to (nodes_of rt) parent chain ->
    exists rt1 leaf added,
      createDirectory_loop host dirs parent rt = (rt1, Normal leaf)
      /\ chain_to (nodes_of rt1) leaf (chain ++ added)
      /\ Forall2 directory_like added dirs
      /\ (dirs <> [] -> leaf <> None).
Proof.
  induction dirs as [|dir dirs IH]; intros parent rt chain Hfresh Hc; simpl.
  - exists rt, parent, []. rewrite app_nil_r. repeat split; auto.
  - pose proof (createDirectory_step_run host parent dir rt) as Hs.
    pose proof (createDirectory_step_new host parent dir rt) as Hnew.
    js_unfold.
    destruct (find (is_directory_named parent dir) (nodes (model rt))) as [n|] eqn:Hf.
    + rewrite Hs. clear Hnew.
      destruct (find_some _ _ Hf) as [Hin Hnamed].
      apply is_directory_named_like in Hnamed. destruct Hnamed as [Hlike Hp].
      assert (Hid : find (has_node_id (node_id n)) (nodes_of rt) = Some n).
      { apply find_unique_id; [eapply fresh_ids_store; eassumption|exact Hin]. }
      destruct (IH (Some (node_id n)) rt (chain ++ [n]))
        as (rt1 & leaf & added & E & Hc1 & Hl & Hne).
      { apply fresh_ids_fewer, Hfresh. }
      { eapply chain_to_extend; eassumption. }
      exists rt1, leaf, (n :: added). split; [exact E|].
      split; [rewrite <- app_assoc in Hc1; exact Hc1|].
      split; [constructor; assumption|].
      intros _. destruct dirs as [|d' dirs'].
      * simpl in E. injection E as _ <-. discriminate.
      * apply Hne. discriminate.
    + clear Hs. destruct (Hnew eq_refl) as (rt' & n & -> & Hn' & Hv & Hp & Hid & Hu).
      assert (Hfresh' : fresh_ids host (length dirs) rt').
      { unfold fresh_ids in *. rewrite Hn', Hu, map_app, <- app_assoc. simpl.
        rewrite Hid. exact Hfresh. }
      assert (Hfind : find (has_node_id (node_id n)) (nodes_of rt') = Some n).
      { apply find_unique_id; [eapply fresh_ids_store; eassumption|].
        rewrite Hn'. apply in_or_app. right. left. reflexivity. }
      destruct (IH (Some (node_id n)) rt' (chain ++ [n]))
        as (rt1 & leaf & added & E & Hc1 & Hl & Hne).
      { exact Hfresh'. }
      { eapply chain_to_extend; [|exact Hfind|exact Hp].
        rewrite Hn'. apply chain_to_app, Hc. }
      exists rt1, leaf, (n :: added). split; [exact E|].
      split; [rewrite <- app_assoc in Hc1; exact Hc1|].
      split.
      * constructor; [|exact Hl]. split; [unfold type; rewrite Hv; reflexivity|].
        exists dir. split; [unfold name; rewrite Hv; reflexivity|].
        apply equal_accent_refl.
      * intros _. destruct dirs as [|d' dirs'].
        -- simpl in E. injection E as _ <-. discriminate.
        -- apply Hne. discriminate.
Qed.

Lemma Resolves_length ns d chain : Resolves ns d chain -> (0 < length chain)%nat.
Proof. destruct 1; rewrite ?length_app; simpl; lia. Qed.

(** Round trip of [createDirectory] and [getPath]. When the ids of
    the store are distinct and the ids drawn for the new directories are
    fresh, [createDirectory(path)] returns undefined exactly when the path
    has no non-empty segment; otherwise it returns the id of a directory
    whose parent chain, from the root down, has one directory per segment,
    each with a name that the collator equates with its segment, so that
    [getPath] on the returned id gives "/" followed by these names joined
    by "/". *)
Theorem createDirectory_then_getPath (host : Host) (path : jsstring) (rt : Runtime) :
  let dirs := filter (fun d => (0 < length d)%nat) (JsString.split 47 path) in
  fresh_ids host (length dirs) rt ->
  exists rt1 leaf chain,
    createDirectory host path rt = (rt1, Normal leaf)
    /\ chain_to (nodes_of rt1) leaf chain
    /\ Forall2 directory_like chain dirs
    /\ (leaf = None <-> dirs = [])
    /\ forall d, leaf = Some d -> d <> ReservedID.Trash ->
         forall fuel, (length dirs <= fuel)%nat ->
           getPath fuel d rt1
           = (rt1, Normal (lit "/" ++ JsString.join (lit "/") (map name chain))).
Proof.
  intros dirs Hfresh.
  destruct (createDirectory_loop_chain host dirs None rt [] Hfresh eq_refl)
    as (rt0 & leaf & chain & E & Hc & Hl & Hne).
  simpl in Hc.
  destruct (save_run host rt0) as (rt1 & Es & Hs).
  pose proof (store_nodes _ _ Hs) as Hn1.
  exists rt1, leaf, chain.
  split.
  { unfold createDirectory. fold dirs. js_unfold. rewrite E, Es. reflexivity. }
  split; [rewrite Hn1; exact Hc|].
  split; [exact Hl|].
  split.
  { split.
    - intros ->. destruct dirs; [reflexivity|]. exfalso. apply Hne; [discriminate|reflexivity].
    - intros Hd. rewrite Hd in E. simpl in E. injection E as _ <-. reflexivity. }
  intros d -> Hd fuel Hfuel. rewrite getPath_not_trash by exact Hd.
  simpl in Hc. unfold nodes_of in Hn1. rewrite Hn1.
  rewrite (getPath_loop_resolves _ _ _ Hc)
    by (rewrite (Forall2_length _ _ _ Hl); exact Hfuel).
  rewrite app_nil_r. reflexivity.
Qed.

(** "a/b/x" on the store with A, B and C: A and B are found under other
    case, x is created. *)
Lemma createDirectory_then_getPath_witness :
  fresh_ids example_host 3 example_with_directories
  /\ exists rt1 leaf chain,
       createDirectory example_host (lit "a/b/x") example_with_directories
       = (rt1, Normal leaf)
       /\ chain_to (nodes_of rt1) leaf chain
       /\ Forall2 directory_like chain [lit "a"; lit "b"; lit "x"]
       /\ (leaf = None <-> [lit "a"; lit "b"; lit "x"] = [])
       /\ forall d, leaf = Some d -> d <> ReservedID.Trash ->
            forall fuel, (3 <= fuel)%nat ->
              getPath fuel d rt1
              = (rt1, Normal (lit "/" ++ JsString.join (lit "/") (map name chain))).
Proof.
  assert (H : fresh_ids example_host 3 example_with_directories).
  { apply (bool_decide_unpack _). vm_compute. exact I. }
  split; [exact H|].
  exact (createDirectory_then_getPath example_host (lit "a/b/x")
           example_with_directories H).
Defined.

Lemma find_insert_other {A} (p : A -> bool) (l : list A) (i : nat) (x y : A) :
  l !! i = Some x -> p x = false -> p y = false ->
  find p (<[i := y]> l) = find p l.
Proof.
  revert i. induction l as [|z l IH]; intros i Hi Px Py; [reflexivity|].
  destruct i as [|i]; simpl in *.
  - injection Hi as ->. rewrite Px, Py. reflexivity.
  - destruct (p z); [reflexivity|]. apply IH; assumption.
Qed.

Lemma find_insert_other_id ns i old new d n :
  ns !! i = Some old -> node_id new = node_id old ->
  find (has_node_id d) ns = Some n -> node_id n <> node_id old ->
  find (has_node_id d) (<[i := new]> ns) = Some n.
Proof.
  intros Hi Hid Hf Hne. pose proof (find_some _ _ Hf) as [_ Hd].
  apply has_node_id_true in Hd.
  rewrite (find_insert_other _ _ _ old); [exact Hf|exact Hi| |];
    apply not_true_is_false; rewrite has_node_id_true; congruence.
Qed.

Lemma Resolves_insert ns i old new p chain :
  ns !! i = Some old -> node_id new = node_id old ->
  Resolves ns p chain ->
  Forall (fun c => node_id c <> node_id old) chain ->
  Resolves (<[i := new]> ns) p chain.
Proof.
  intros Hi Hid. induction 1 as [d n Hf Hp | d n q chain Hf Hp _ IH]; intros Hall.
  - apply Forall_inv in Hall.
    apply Resolves_root; [|exact Hp]. eapply find_insert_other_id; eassumption.
  - apply Forall_app in Hall. destruct Hall as [Hall Hn]. apply Forall_inv in Hn.
    eapply Resolves_step; [|exact Hp|apply IH, Hall].
    eapply find_insert_other_id; eassumption.
Qed.

(** Moving a node composes with [getPath]: when the new parent's
    chain resolves and does not pass through the moved node,
    [setParent(id, parent)] completes and [getPath(id)] is then the
    parent's path extended by the name of the moved node. *)
Theorem setParent_then_getPath (host : Host) (rt : Runtime) (id parent : ID)
    (n : Node) (chain : list Node) :
  find (has_node_id id) (nodes_of rt) = Some n ->
  Resolves (nodes_of rt) parent chain ->
  Forall (fun c => node_id c <> id) chain ->
  id <> ReservedID.Trash ->
  exists rt',
    setParent host id parent rt = (rt', Normal tt)
    /\ Resolves (nodes_of rt') id (chain ++ [with_parentID (Some parent) n])
    /\ forall fuel, (length chain < fuel)%nat ->
         getPath fuel id rt'
         = (rt', Normal (lit "/"
                         ++ JsString.join (lit "/") (map name chain ++ [name n]))).
Proof.
  intros Hf Hc Hall Hid.
  pose proof (setParent_run host id parent rt) as H. rewrite Hf in H.
  destruct H as (rt' & i & E & Hi & Hn & Hn' & _ & _).
  pose proof (find_some _ _ Hf) as [_ Hnid]. apply has_node_id_true in Hnid.
  assert (Hr : Resolves (nodes_of rt') id (chain ++ [with_parentID (Some parent) n])).
  { rewrite Hn'. eapply Resolves_step.
    - rewrite <- (Nat2Z.id i), <- Hi. eapply insert_first_match; [exact Hf|].
      apply has_node_id_true. exact Hnid.
    - reflexivity.
    - eapply Resolves_insert; [exact Hn|reflexivity|exact Hc|].
      rewrite Hnid. exact Hall. }
  exists rt'. split; [exact E|]. split; [exact Hr|].
  intros fuel Hfuel. rewrite getPath_not_trash by exact Hid.
  unfold nodes_of in Hr.
  rewrite (getPath_loop_resolves _ _ _ Hr)
    by (rewrite length_app; simpl; lia).
  rewrite app_nil_r, map_app. reflexivity.
Qed.

(** In the store with directories A, B, C (C under B under A), moving C
    ("id2") under A ("id0"). *)
Lemma setParent_then_getPath_witness :
  find (has_node_id (lit "id2")) (nodes_of example_with_directories) = Some dir_C
  /\ Resolves (nodes_of example_with_directories) (lit "id0") [dir_A]
  /\ Forall (fun c => node_id c <> lit "id2") [dir_A]
  /\ lit "id2" <> ReservedID.Trash
  /\ exists rt',
       setParent example_host (lit "id2") (lit "id0") example_with_directories
       = (rt', Normal tt)
       /\ Resolves (nodes_of rt') (lit "id2")
            ([dir_A] ++ [with_parentID (Some (lit "id0")) dir_C])
       /\ forall fuel, (1 < fuel)%nat ->
            getPath fuel (lit "id2") rt'
            = (rt', Normal (lit "/" ++ JsString.join (lit "/")
                              (map name [dir_A] ++ [name dir_C]))).
Proof.
  assert (H1 : find (has_node_id (lit "id2")) (nodes_of example_with_directories)
               = Some dir_C) by (vm_compute; reflexivity).
  assert (H2 : Resolves (nodes_of example_with_directories) (lit "id0") [dir_A])
    by (apply Resolves_root; vm_compute; reflexivity).
  assert (H3 : Forall (fun c => node_id c <> lit "id2") [dir_A])
    by (repeat constructor; vm_compute; discriminate).
  assert (H4 : lit "id2" <> ReservedID.Trash) by (vm_compute; discriminate).
  split; [exact H1|]. split; [exact H2|]. split; [exact H3|]. split; [exact H4|].
  exact (setParent_then_getPath example_host example_with_directories
           (lit "id2") (lit "id0") dir_C [dir_A] H1 H2 H3 H4).
Defined.

(** ** The save handle over a run *)

Lemma maintains_bind {A B} (I : Runtime -> Prop) (m : Js A) (k : A -> Js B) :
  maintains I m -> (forall a, maintains I (k a)) -> maintains I (m ≫= k).
Proof.
  intros Hm Hk rt HI. unfold mbind, Js_bind. specialize (Hm rt HI).
  destruct (m rt) as [rt' [a|e|]]; simpl in *; auto.
  apply Hk. exact Hm.
Qed.

Lemma maintains_ret {A} (I : Runtime -> Prop) (a : A) : maintains I (mret a).
Proof. intros rt H. exact H. Qed.

Lemma maintains_throw {A} (I : Runtime -> Prop) (e : Exn) : maintains I (@throw A e).
Proof. intros rt H. exact H. Qed.

Lemma maintains_get {A} (I : Runtime -> Prop) (f : Model -> A) : maintains I (get f).
Proof. intros rt H. exact H. Qed.

Lemma quiescent_ext rt rt' :
  save_state rt' = save_state rt -> quiescent rt -> quiescent rt'.
Proof.
  unfold save_state, quiescent, handle_ok. intros [= E1 E2 E3 E4 E5 E6].
  rewrite E1, E2, E3, E4, E5, E6. auto.
Qed.

Lemma maintains_same {A} (m : Js A) : keeps save_state m -> maintains quiescent m.
Proof. intros H rt. apply quiescent_ext, H. Qed.

Lemma save_cases (host : Host) (rt : Runtime) :
  state_of (save host rt)
  = match savePromise (model rt) with
    | Some p => state_of (suspend_on p rt)
    | None => state_of (save_body host rt)
    end.
Proof.
  unfold save. js_unfold. destruct (savePromise (model rt)); reflexivity.
Qed.

Lemma save_body_handle_ok (host : Host) (rt : Runtime) :
  handle_ok rt -> handle_ok (state_of (save_body host rt)).
Proof.
  intros (_ & Hh & Hs & Hw). rewrite save_body_state.
  unfold handle_ok, state_of; cbn [fst model saving savePromise writes_issued
                                    in_flight suspended].
  split; [split; [discriminate|reflexivity]|].
  split.
  { intros w [= <-]. split; [reflexivity|]. apply elem_of_app. right. left. }
  split.
  { intros p Hp. apply elem_of_app. left. apply Hs, Hp. }
  intros w Hin. apply elem_of_app in Hin. destruct Hin as [Hin|Hin].
  - specialize (Hw w Hin). lia.
  - apply list_elem_of_singleton in Hin. lia.
Qed.

Lemma save_body_microtasks (host : Host) (rt : Runtime) :
  microtasks (state_of (save_body host rt)) = microtasks rt.
Proof. rewrite save_body_state. reflexivity. Qed.

Lemma save_quiescent (host : Host) : maintains quiescent (save host).
Proof.
  intros rt [Hq Hok]. rewrite save_cases.
  destruct (savePromise (model rt)) as [p|] eqn:Hp.
  - destruct Hok as (Hf & Hh & Hs & Hw).
    split; [exact Hq|]. unfold handle_ok, suspend_on; simpl.
    split; [exact Hf|]. split; [exact Hh|]. split; [|exact Hw].
    intros q Hin. apply elem_of_app in Hin. destruct Hin as [Hin|Hin].
    + apply Hs, Hin.
    + apply list_elem_of_singleton in Hin. subst q. apply (Hh p Hp).
  - split.
    + rewrite save_body_microtasks. exact Hq.
    + apply save_body_handle_ok, Hok.
Qed.

Ltac maintains_with leaf :=
  repeat (cbv beta zeta;
          lazymatch goal with
          | |- maintains _ (mret _) => apply maintains_ret
          | |- maintains _ (throw _) => apply maintains_throw
          | |- maintains _ (get _) => apply maintains_get
          | |- maintains _ (save _) => apply save_quiescent
          | |- maintains _ (_ ≫= _) => apply maintains_bind; [|intros ?]
          | |- maintains _ (match ?x with _ => _ end) => destruct x
          | |- maintains _ _ =>
              first [leaf | apply maintains_same; intros ?; reflexivity]
          end).

Section Quiescence.

Context (host : Host).

Lemma addTextNode_quiescent text t parent tgs :
  maintains quiescent (addTextNode host text t parent tgs).
Proof. unfold addTextNode, addNode, getNextIndex. maintains_with fail. Qed.

Lemma addImageNode_quiescent file t parent tgs :
  maintains quiescent (addImageNode host file t parent tgs).
Proof. unfold addImageNode, addFile, addNode, getNextIndex. maintains_with fail. Qed.

Lemma addDirectoryNode_quiescent dir t parent tgs :
  maintains quiescent (addDirectoryNode host dir t parent tgs).
Proof. unfold addDirectoryNode, addNode, getNextIndex. maintains_with fail. Qed.

Lemma addAnchorNode_quiescent anchor t parent tgs :
  maintains quiescent (addAnchorNode host anchor t parent tgs).
Proof. unfold addAnchorNode, addFile, addNode, getNextIndex. maintains_with fail. Qed.

Lemma removeFile_quiescent fileID : maintains quiescent (removeFile host fileID).
Proof. unfold removeFile. maintains_with fail. Qed.

Lemma removeNode_quiescent id : maintains quiescent (removeNode host id).
Proof.
  unfold removeNode. maintains_with ltac:(apply removeFile_quiescent).
Qed.

Lemma setParent_quiescent id parent : maintains quiescent (setParent host id parent).
Proof. unfold setParent. maintains_with fail. Qed.

Lemma createTag_quiescent nm : maintains quiescent (createTag host nm).
Proof. unfold createTag. maintains_with fail. Qed.

Lemma createDirectory_loop_quiescent dirs :
  forall parent, maintains quiescent (createDirectory_loop host dirs parent).
Proof.
  induction dirs as [|dir dirs IH]; intros parent; simpl.
  - apply maintains_ret.
  - apply maintains_bind; [|intros ?; apply IH].
    unfold createDirectory_step, findDirectory.
    maintains_with ltac:(apply addDirectoryNode_quiescent).
Qed.

Lemma createDirectory_quiescent path : maintains quiescent (createDirectory host path).
Proof.
  unfold createDirectory. maintains_with ltac:(apply createDirectory_loop_quiescent).
Qed.

Lemma script_quiescent {A} (m : Js A) rt :
  maintains quiescent m -> quiescent rt -> quiescent (script host m rt).
Proof.
  intros Hm Hq. specialize (Hm rt Hq). unfold script, drain.
  rewrite run_microtasks_idle; [exact Hm|apply Hm].
Qed.

Lemma resumed_handle_ok fuel : forall rt,
  Forall (fun t => t = SaveResumed) (microtasks rt) -> handle_ok rt ->
  handle_ok (run_microtasks host fuel rt).
Proof.
  induction fuel as [|fuel IH]; intros rt Hall Hok; [exact Hok|].
  destruct (microtasks rt) as [|t q] eqn:Hq.
  - rewrite run_microtasks_idle by exact Hq. exact Hok.
  - rewrite (run_microtasks_step host fuel t q rt Hq).
    apply Forall_cons in Hall. destruct Hall as [-> Hall].
    cbn [run_task]. apply IH.
    + rewrite save_body_microtasks. exact Hall.
    + apply (save_body_handle_ok host (with_microtasks q rt)). exact Hok.
Qed.

Lemma write_settled_fields w s :
  let s' := state_of (run_task host (WriteSettled w) s) in
  saving (model s') = false
  /\ savePromise (model s') = None
  /\ writes_issued s' = writes_issued s
  /\ in_flight s' = in_flight s
  /\ suspended s' = filter (fun p => p <> w) (suspended s)
  /\ microtasks s'
     = microtasks s
       ++ map (fun _ => SaveResumed) (filter (fun p => p = w) (suspended s)).
Proof. repeat split. Qed.

Lemma host_completes_quiescent w rt :
  quiescent rt -> quiescent (host_completes host w rt).
Proof.
  intros [Hq Hok]. unfold host_completes. case_bool_decide as Hw; [|split; assumption].
  split; [apply drain_empties|].
  unfold drain. cbn [microtasks suspended]. rewrite Hq.
  cbn [app length Nat.add]. erewrite run_microtasks_step by reflexivity.
  destruct Hok as (Hf & Hh & Hs & Hlt).
  match goal with
  | |- context [state_of (run_task host (WriteSettled w) ?s)] =>
      destruct (write_settled_fields w s) as (E1 & E2 & E3 & E4 & E5 & E6);
      set (s1 := state_of (run_task host (WriteSettled w) s)) in *
  end.
  cbn [with_microtasks model writes_issued in_flight suspended microtasks app]
    in E1, E2, E3, E4, E5, E6.
  apply resumed_handle_ok.
  - rewrite E6. apply Forall_forall. intros t Hin.
    apply list_elem_of_In, in_map_iff in Hin.
    destruct Hin as (? & <- & _). reflexivity.
  - unfold handle_ok. rewrite E1, E2, E3, E4, E5.
    split; [split; [discriminate|intros H; exfalso; apply H; reflexivity]|].
    split; [discriminate|].
    split.
    + intros p Hp. apply list_elem_of_filter in Hp. destruct Hp as [Hne Hp].
      apply list_elem_of_filter. split; [exact Hne|apply Hs, Hp].
    + intros v Hv. apply list_elem_of_filter in Hv. apply Hlt, Hv.
Qed.

Lemma timer_fires_quiescent sid rt :
  quiescent rt -> quiescent (timer_fires host sid rt).
Proof.
  intros Hq. unfold timer_fires. case_bool_decide as Hs; [|exact Hq].
  cbv zeta.
  set (rt' := {| model := model rt; uuid_draws := uuid_draws rt;
                 now_reads := now_reads rt; perf_reads := perf_reads rt;
                 writes_issued := writes_issued rt; in_flight := in_flight rt;
                 suspended := suspended rt; microtasks := microtasks rt;
                 timers := filter (fun s => s <> sid) (timers rt);
                 trace := trace rt |}).
  assert (Hq' : quiescent rt') by (apply (quiescent_ext rt); [reflexivity|exact Hq]).
  assert (Hd : quiescent (drain host rt')).
  { unfold drain. rewrite run_microtasks_idle; [exact Hq'|apply Hq']. }
  assert (Hc : quiescent (script host (clearStatus) rt')).
  { apply script_quiescent; [|exact Hq']. unfold clearStatus. maintains_with fail. }
  change (status (model rt')) with (status (model rt)).
  destruct (status (model rt)) as [s|]; [|exact Hd].
  destruct (str_eqb (status_id s) sid); assumption.
Qed.

Lemma step_quiescent s rt : quiescent rt -> quiescent (step host s rt).
Proof.
  intros Hq. destruct s; simpl.
  - apply script_quiescent; [apply addTextNode_quiescent|exact Hq].
  - apply script_quiescent; [apply addImageNode_quiescent|exact Hq].
  - apply script_quiescent; [apply addDirectoryNode_quiescent|exact Hq].
  - apply script_quiescent; [apply addAnchorNode_quiescent|exact Hq].
  - apply script_quiescent; [apply removeNode_quiescent|exact Hq].
  - apply script_quiescent; [apply setParent_quiescent|exact Hq].
  - apply script_quiescent; [apply createDirectory_quiescent|exact Hq].
  - apply script_quiescent; [apply createTag_quiescent|exact Hq].
  - apply script_quiescent; [apply save_quiescent|exact Hq].
  - apply host_completes_quiescent, Hq.
  - apply timer_fires_quiescent, Hq.
Qed.

Lemma run_quiescent steps : forall rt, quiescent rt -> quiescent (run host steps rt).
Proof.
  unfold run. induction steps as [|s steps IH]; intros rt Hq; simpl; [exact Hq|].
  apply IH, step_quiescent, Hq.
Qed.

End Quiescence.

(** Whatever methods are called, writes completed and timeouts
    fired, from the empty model: between two events no job is queued, the
    [saving] flag is up exactly when [savePromise] is set, a set handle
    names the write issued last and that write is in flight, and every
    parked call of [save] awaits a write that is in flight (its resumption
    is still to come). *)
Theorem run_keeps_handle (host : Host) (steps : list Step) :
  let rt := run host steps initial in
  microtasks rt = []
  /\ (saving (model rt) = true <-> savePromise (model rt) <> None)
  /\ (forall w, savePromise (model rt) = Some w ->
        writes_issued rt = S w /\ w ∈ in_flight rt)
  /\ (forall p, p ∈ suspended rt -> p ∈ in_flight rt)
  /\ (forall w, w ∈ in_flight rt -> (w < writes_issued rt)%nat).
Proof.
  apply (run_quiescent host steps initial). split; [reflexivity|].
  unfold handle_ok. simpl.
  split; [split; [discriminate|intros H; exfalso; apply H; reflexivity]|].
  split; [discriminate|].
  split; intros ? H; inversion H.
Qed.

(** ** Changes reach a write *)

Lemma documents_snoc tr e :
  documents (tr ++ [e])
  = documents tr ++ match e with WriteStart _ doc => [doc] | _ => [] end.
Proof. unfold documents. rewrite omap_app. simpl. destruct e; reflexivity. Qed.

Lemma written_ext rt rt' :
  documents (trace rt') = documents (trace rt) -> document rt' = document rt ->
  written rt -> written rt'.
Proof. unfold written. intros -> ->. auto. Qed.

Lemma flushed_ext rt rt' :
  documents (trace rt') = documents (trace rt) -> document rt' = document rt ->
  suspended rt' = suspended rt ->
  flushed rt -> flushed rt'.
Proof.
  unfold flushed. intros Hd Hs -> H Hn. apply (written_ext rt); auto.
Qed.

Lemma save_body_written (host : Host) (rt : Runtime) :
  written (state_of (save_body host rt)).
Proof.
  rewrite save_body_state. unfold written, state_of; cbn [fst trace].
  unfold documents. rewrite omap_app. cbn [omap]. simpl. rewrite last_snoc.
  reflexivity.
Qed.

Lemma save_body_suspended (host : Host) (rt : Runtime) :
  suspended (state_of (save_body host rt)) = suspended rt.
Proof. rewrite save_body_state. reflexivity. Qed.

Lemma save_flushes (host : Host) : establishes flushed (save host).
Proof.
  intros rt. rewrite save_cases.
  destruct (savePromise (model rt)) as [p|].
  - unfold flushed, suspend_on. simpl. intros H.
    apply app_eq_nil in H. destruct H as [_ H]. discriminate.
  - intros _. apply save_body_written.
Qed.

Lemma establishes_bind {A B} (I : Runtime -> Prop) (m : Js A) (k : A -> Js B) :
  always_returns m -> (forall a, establishes I (k a)) -> establishes I (m ≫= k).
Proof.
  intros Hm Hk rt. unfold mbind, Js_bind.
  destruct (Hm rt) as (rt' & a & ->). apply Hk.
Qed.

Lemma establishes_then {A B} (I : Runtime -> Prop) (m : Js A) (k : A -> Js B) :
  establishes I m -> (forall a, maintains I (k a)) -> establishes I (m ≫= k).
Proof.
  intros Hm Hk rt. unfold mbind, Js_bind. specialize (Hm rt).
  destruct (m rt) as [rt' [a|e|]]; simpl in *; auto.
  apply Hk. exact Hm.
Qed.

Lemma maintains_then {A B} (I : Runtime -> Prop) (m : Js A) (k : A -> Js B) :
  maintains I m -> (forall a, establishes I (k a)) -> maintains I (m ≫= k).
Proof.
  intros Hm Hk rt HI. unfold mbind, Js_bind. specialize (Hm rt HI).
  destruct (m rt) as [rt' [a|e|]]; simpl in *; auto.
  apply Hk.
Qed.

Lemma establishes_maintains {A} (I : Runtime -> Prop) (m : Js A) :
  establishes I m -> maintains I m.
Proof. intros H rt _. apply H. Qed.

Ltac establishes_auto host :=
  repeat (cbv beta zeta;
          lazymatch goal with
          | |- establishes _ (save _) => apply save_flushes
          | |- establishes _ (save _ ≫= _) =>
              apply establishes_then;
              [apply save_flushes|intros ?; apply maintains_ret]
          | |- establishes _ (_ ≫= _) =>
              apply establishes_bind;
              [intros ?; do 2 eexists; reflexivity|intros ?]
          end).

Section Flushing.

Context (host : Host).

Lemma addTextNode_flushes text t parent tgs :
  establishes flushed (addTextNode host text t parent tgs).
Proof. unfold addTextNode. establishes_auto host. Qed.

Lemma addImageNode_flushes file t parent tgs :
  establishes flushed (addImageNode host file t parent tgs).
Proof. unfold addImageNode. establishes_auto host. Qed.

Lemma addAnchorNode_flushes anchor t parent tgs :
  establishes flushed (addAnchorNode host anchor t parent tgs).
Proof. unfold addAnchorNode. establishes_auto host. Qed.

Lemma createTag_flushes nm : establishes flushed (createTag host nm).
Proof. unfold createTag. establishes_auto host. Qed.

Lemma createDirectory_flushes path : establishes flushed (createDirectory host path).
Proof.
  unfold createDirectory. cbv zeta. apply establishes_bind.
  - intros rt. destruct (createDirectory_loop_run host
      (filter (fun d => (0 < length d)%nat) (JsString.split 47 path)) None rt)
      as (rt1 & leaf & added & E & _). eauto.
  - intros leaf. establishes_auto host.
Qed.

Lemma removeFile_flushed fileID : maintains flushed (removeFile host fileID).
Proof.
  unfold removeFile. apply maintains_bind; [apply maintains_get|intros fs].
  cbv zeta. destruct (at_index fs (findIndex (has_file_id fileID) fs));
    [|apply maintains_throw].
  apply establishes_maintains. establishes_auto host.
Qed.

Lemma removeNode_flushed id : maintains flushed (removeNode host id).
Proof.
  unfold removeNode. apply maintains_bind; [apply maintains_get|intros ns].
  cbv zeta. destruct (at_index ns (findIndex (has_node_id id) ns)) as [found|];
    [|apply maintains_throw].
  apply maintains_then; [|intros ?; establishes_auto host].
  destruct (variant found) as [?|? ?|anchor|?];
    try apply maintains_ret; try apply removeFile_flushed.
  destruct (contentImageFileID anchor);
    [apply removeFile_flushed|apply maintains_ret].
Qed.

Lemma setParent_flushed id parent : maintains flushed (setParent host id parent).
Proof.
  unfold setParent. apply maintains_bind; [apply maintains_get|intros ns].
  cbv zeta. destruct (at_index ns (findIndex (has_node_id id) ns));
    [|apply maintains_throw].
  apply establishes_maintains. establishes_auto host.
Qed.

Lemma script_flushed {A} (m : Js A) rt :
  maintains quiescent m -> maintains flushed m ->
  quiescent rt -> flushed rt -> flushed (script host m rt).
Proof.
  intros Hq Hf Hrt Hfl. unfold script, drain.
  rewrite run_microtasks_idle; [apply Hf, Hfl|apply Hq, Hrt].
Qed.

Lemma resumed_written fuel : forall rt,
  Forall (fun t => t = SaveResumed) (microtasks rt) -> written rt ->
  written (run_microtasks host fuel rt).
Proof.
  induction fuel as [|fuel IH]; intros rt Hall Hw; [exact Hw|].
  destruct (microtasks rt) as [|t q] eqn:Hq.
  - rewrite run_microtasks_idle by exact Hq. exact Hw.
  - rewrite (run_microtasks_step host fuel t q rt Hq).
    apply Forall_cons in Hall. destruct Hall as [-> Hall].
    cbn [run_task]. apply IH.
    + rewrite save_body_microtasks. exact Hall.
    + apply save_body_written.
Qed.

Lemma resumed_flush fuel rt q :
  microtasks rt = SaveResumed :: q -> Forall (fun t => t = SaveResumed) q ->
  written (run_microtasks host (S fuel) rt).
Proof.
  intros Hq Hall. rewrite (run_microtasks_step host fuel _ q rt Hq).
  cbn [run_task]. apply resumed_written.
  - rewrite save_body_microtasks. exact Hall.
  - apply save_body_written.
Qed.

Lemma write_settled_store w s :
  let s' := state_of (run_task host (WriteSettled w) s) in
  documents (trace s') = documents (trace s) /\ document s' = document s.
Proof.
  split; [|reflexivity].
  change (documents ((trace s ++ [PromiseSet None]) ++ [SavingSet false])
          = documents (trace s)).
  rewrite !documents_snoc, !app_nil_r. reflexivity.
Qed.

Lemma host_completes_flushed w rt :
  quiescent rt -> flushed rt -> flushed (host_completes host w rt).
Proof.
  intros [Hq _] Hfl. unfold host_completes. case_bool_decide as Hw; [|exact Hfl].
  unfold drain. cbn [microtasks suspended]. rewrite Hq.
  cbn [app length Nat.add]. erewrite run_microtasks_step by reflexivity.
  match goal with
  | |- context [state_of (run_task host (WriteSettled w) ?s)] =>
      destruct (write_settled_fields host w s) as (_ & _ & _ & _ & E5 & E6);
      destruct (write_settled_store w s) as (D1 & D2);
      set (s1 := state_of (run_task host (WriteSettled w) s)) in *
  end.
  cbn [with_microtasks model writes_issued in_flight suspended microtasks app trace]
    in E5, E6, D1.
  rewrite documents_snoc, app_nil_r in D1.
  change (document s1 = document rt) in D2.
  destruct (filter (fun p => p = w) (suspended rt)) as [|p ps] eqn:Hpark.
  - rewrite run_microtasks_idle by exact E6.
    intros Hs1. apply (written_ext rt); [exact D1|exact D2|]. apply Hfl.
    pose proof (length_settle_split w (suspended rt)) as Hlen.
    rewrite Hpark, <- E5, Hs1 in Hlen. simpl in Hlen.
    destruct (suspended rt); [reflexivity|discriminate].
  - intros _.
    destruct (suspended rt) as [|p0 rest] eqn:Hsus; [discriminate|].
    cbn [length]. eapply resumed_flush; [exact E6|].
    apply Forall_forall. intros t Hin.
    apply list_elem_of_In, in_map_iff in Hin. destruct Hin as (? & <- & _).
    reflexivity.
Qed.

Lemma timer_fires_flushed sid rt :
  quiescent rt -> flushed rt -> flushed (timer_fires host sid rt).
Proof.
  intros Hq Hfl. unfold timer_fires. case_bool_decide as Hs; [|exact Hfl].
  cbv zeta.
  set (rt' := {| model := model rt; uuid_draws := uuid_draws rt;
                 now_reads := now_reads rt; perf_reads := perf_reads rt;
                 writes_issued := writes_issued rt; in_flight := in_flight rt;
                 suspended := suspended rt; microtasks := microtasks rt;
                 timers := filter (fun s => s <> sid) (timers rt);
                 trace := trace rt |}).
  assert (Hq' : quiescent rt') by (apply (quiescent_ext rt); [reflexivity|exact Hq]).
  assert (Hfl' : flushed rt') by exact Hfl.
  assert (Hd : flushed (drain host rt')).
  { unfold drain. rewrite run_microtasks_idle; [exact Hfl'|apply Hq']. }
  assert (Hc : flushed (script host clearStatus rt')).
  { apply script_flushed; [| |exact Hq'|exact Hfl'].
    - unfold clearStatus. maintains_with fail.
    - intros s. apply flushed_ext; [|reflexivity|reflexivity].
      unfold clearStatus. js_unfold. cbn [fst log trace].
      rewrite documents_snoc, app_nil_r. reflexivity. }
  change (status (model rt')) with (status (model rt)).
  destruct (status (model rt)) as [s|]; [|exact Hd].
  destruct (str_eqb (status_id s) sid); assumption.
Qed.

Lemma step_flushed s rt :
  ends_with_save s = true ->
  quiescent rt -> flushed rt -> flushed (step host s rt).
Proof.
  intros Hs Hq Hfl. destruct s; simpl.
  - apply script_flushed; [apply addTextNode_quiescent| |exact Hq|exact Hfl].
    apply establishes_maintains, addTextNode_flushes.
  - apply script_flushed; [apply addImageNode_quiescent| |exact Hq|exact Hfl].
    apply establishes_maintains, addImageNode_flushes.
  - discriminate.
  - apply script_flushed; [apply addAnchorNode_quiescent| |exact Hq|exact Hfl].
    apply establishes_maintains, addAnchorNode_flushes.
  - apply script_flushed; [apply removeNode_quiescent| |exact Hq|exact Hfl].
    apply removeNode_flushed.
  - apply script_flushed; [apply setParent_quiescent| |exact Hq|exact Hfl].
    apply setParent_flushed.
  - apply script_flushed; [apply createDirectory_quiescent| |exact Hq|exact Hfl].
    apply establishes_maintains, createDirectory_flushes.
  - apply script_flushed; [apply createTag_quiescent| |exact Hq|exact Hfl].
    apply establishes_maintains, createTag_flushes.
  - apply script_flushed; [apply save_quiescent| |exact Hq|exact Hfl].
    apply establishes_maintains, save_flushes.
  - apply host_completes_flushed; assumption.
  - apply timer_fires_flushed; assumption.
Qed.

Lemma run_flushed steps : forall rt,
  forallb ends_with_save steps = true ->
  quiescent rt -> flushed rt ->
  quiescent (run host steps rt) /\ flushed (run host steps rt).
Proof.
  unfold run. induction steps as [|s steps IH]; intros rt Hall Hq Hfl; simpl;
    [split; assumption|].
  simpl in Hall. apply andb_true_iff in Hall. destruct Hall as [Hs Hall].
  apply IH; [exact Hall|apply step_quiescent, Hq|apply step_flushed; assumption].
Qed.

End Flushing.

(** No change is left unwritten by the methods that end with a call
    of [save] (all but a direct call of [addDirectoryNode]): after any run
    of such calls, completed writes and fired timeouts from the empty
    model, if no call of [save] is parked then the last document passed
    to [bridge.writeLibrary] is the store as it is (and the store is empty
    if none was passed). *)
Theorem run_changes_reach_a_write (host : Host) (steps : list Step) :
  forallb ends_with_save steps = true ->
  let rt := run host steps initial in
  suspended rt = [] ->
  match last (documents (trace rt)) with
  | Some doc => doc = document rt
  | None => document rt = empty_library
  end.
Proof.
  intros Hall rt.
  destruct (run_flushed host steps initial Hall) as [_ Hfl].
  - split; [reflexivity|]. unfold handle_ok. simpl.
    split; [split; [discriminate|intros H; exfalso; apply H; reflexivity]|].
    split; [discriminate|]. split; intros ? H; inversion H.
  - intros _. reflexivity.
  - exact Hfl.
Qed.

(** Two additions and a removal whose calls of [save] park behind the
    first write, then the completion of that write. *)
Lemma run_changes_reach_a_write_witness :
  let steps := [AddText (lit "hello") 1 None None;
                AddImage example_file 2 None None;
                RemoveNode (lit "id0");
                HostCompletes 0] in
  let rt := run example_host steps initial in
  forallb ends_with_save steps = true
  /\ suspended rt = []
  /\ match last (documents (trace rt)) with
     | Some doc => doc = document rt
     | None => document rt = empty_library
     end.
Proof.
  intros steps rt.
  assert (H1 : forallb ends_with_save steps = true) by (vm_compute; reflexivity).
  assert (H2 : suspended rt = []) by (vm_compute; reflexivity).
  split; [exact H1|]. split; [exact H2|].
  exact (run_changes_reach_a_write example_host steps H1 H2).
Defined.

(** [addDirectoryNode] is the one constructor that does not call
    [save]: it appends the directory and returns it, starts no write and
    parks no call, so that on a store whose last written document was up
    to date the new directory is not in the last document written. *)
Theorem addDirectoryNode_not_saved (host : Host) (rt : Runtime) (dir : jsstring)
    (t : Timestamp) (parent : option ID) (tgs : option (list jsstring)) :
  written rt ->
  exists rt' n,
    addDirectoryNode host dir t parent tgs rt = (rt', Normal n)
    /\ nodes (model rt') = nodes (model rt) ++ [n]
    /\ trace rt' = trace rt
    /\ writes_issued rt' = writes_issued rt
    /\ suspended rt' = suspended rt
    /\ ~ written rt'.
Proof.
  intros Hw. unfold addDirectoryNode, addNode, getNextIndex, uuidv4. js_unfold.
  do 2 eexists. split; [reflexivity|]. cbn [model nodes with_model with_nodes trace
    writes_issued suspended].
  split; [reflexivity|]. split; [reflexivity|]. split; [reflexivity|].
  split; [reflexivity|].
  unfold written in *. cbn [trace with_model].
  destruct (last (documents (trace rt))) as [doc|]; intros Hw'.
  - pose proof (eq_trans (eq_sym Hw) Hw') as Hd.
    apply (f_equal lib_nodes) in Hd. simpl in Hd.
    apply (f_equal length) in Hd. rewrite length_app in Hd. simpl in Hd. lia.
  - apply (f_equal lib_nodes) in Hw'. simpl in Hw'.
    apply (f_equal length) in Hw'. rewrite length_app in Hw'. simpl in Hw'. lia.
Qed.

Lemma addDirectoryNode_not_saved_witness :
  written initial
  /\ exists rt' n,
       addDirectoryNode example_host (lit "A") 1 None None initial = (rt', Normal n)
       /\ nodes (model rt') = nodes (model initial) ++ [n]
       /\ trace rt' = trace initial
       /\ writes_issued rt' = writes_issued initial
       /\ suspended rt' = suspended initial
       /\ ~ written rt'.
Proof.
  assert (H : written initial) by reflexivity.
  split; [exact H|].
  exact (addDirectoryNode_not_saved example_host initial (lit "A") 1 None None H).
Defined.

(** * The earlier version of the model *)

Lemma legacy_maintains_bind {A B} (I : Legacy.Runtime -> Prop)
    (m : Legacy.Js A) (k : A -> Legacy.Js B) :
  Legacy.maintains I m -> (forall a, Legacy.maintains I (k a)) ->
  Legacy.maintains I (@mbind Legacy.Js Legacy.Js_bind A B k m).
Proof.
  intros Hm Hk rt HI. unfold mbind, Legacy.Js_bind. specialize (Hm rt HI).
  destruct (m rt) as [rt' [a|e|]]; simpl in *; auto.
  apply Hk. exact Hm.
Qed.

Lemma legacy_maintains_ret {A} (I : Legacy.Runtime -> Prop) (a : A) :
  Legacy.maintains I (@mret Legacy.Js Legacy.Js_ret A a).
Proof. intros rt H. exact H. Qed.

Lemma legacy_maintains_throw {A} (I : Legacy.Runtime -> Prop) (e : Exn) :
  Legacy.maintains I (@Legacy.throw A e).
Proof. intros rt H. exact H. Qed.

Lemma legacy_maintains_get {A} (I : Legacy.Runtime -> Prop) (f : Legacy.Model -> A) :
  Legacy.maintains I (Legacy.get f).
Proof. intros rt H. exact H. Qed.

Ltac legacy_maintains leaf :=
  repeat (cbv beta zeta;
          lazymatch goal with
          | |- Legacy.maintains _ (@mret _ _ _ _) => apply legacy_maintains_ret
          | |- Legacy.maintains _ (Legacy.throw _) => apply legacy_maintains_throw
          | |- Legacy.maintains _ (Legacy.get _) => apply legacy_maintains_get
          | |- Legacy.maintains _ (@mbind _ _ _ _ _ _) =>
              apply legacy_maintains_bind; [|intros ?]
          | |- Legacy.maintains _ (match ?x with _ => _ end) => destruct x
          | |- Legacy.maintains _ _ => leaf
          end).

Section LegacyScripts.

Context (host : Legacy.Host) (I : Legacy.Runtime -> Prop).

(** [I] is kept by [save] and by the call of [bridge.removeFile], and
    reads nothing of the collections and the counters of the host. *)
Hypothesis I_save : Legacy.maintains I Legacy.save.
Hypothesis I_blob : forall f rt, I rt -> I (Legacy.log (Legacy.BlobRemoved f) rt).
Hypothesis I_ext : forall rt rt',
  Legacy.saving (Legacy.model rt') = Legacy.saving (Legacy.model rt) ->
  Legacy.in_flight rt' = Legacy.in_flight rt ->
  Legacy.trace rt' = Legacy.trace rt ->
  I rt -> I rt'.

Lemma legacy_maintains_same {A} (m : Legacy.Js A) :
  (forall rt,
      Legacy.saving (Legacy.model (Legacy.state_of (m rt)))
      = Legacy.saving (Legacy.model rt)
      /\ Legacy.in_flight (Legacy.state_of (m rt)) = Legacy.in_flight rt
      /\ Legacy.trace (Legacy.state_of (m rt)) = Legacy.trace rt) ->
  Legacy.maintains I m.
Proof. intros H rt. destruct (H rt) as (E1 & E2 & E3). apply I_ext; assumption. Qed.

Ltac legacy_leaf :=
  first [ apply I_save
        | apply legacy_maintains_same; intros ?; split; [reflexivity|split; reflexivity]
        | intros ? ?; apply I_blob; assumption ].

Lemma legacy_removeFile_maintains fileID : Legacy.maintains I (Legacy.removeFile fileID).
Proof. unfold Legacy.removeFile. legacy_maintains legacy_leaf. Qed.

Lemma legacy_step_maintains s rt :
  Legacy.is_script s = true -> I rt -> I (Legacy.step host s rt).
Proof.
  intros Hs. revert rt. destruct s; try discriminate; intros rt; simpl.
  - revert rt. change (Legacy.maintains I (Legacy.addTextNode host text tgs)).
    unfold Legacy.addTextNode, Legacy.addNode. legacy_maintains legacy_leaf.
  - revert rt. change (Legacy.maintains I (Legacy.addImageNode host file tgs)).
    unfold Legacy.addImageNode, Legacy.addNode, Legacy.addFile.
    legacy_maintains legacy_leaf.
  - revert rt. change (Legacy.maintains I (Legacy.removeNode id)).
    unfold Legacy.removeNode.
    legacy_maintains ltac:(first [apply legacy_removeFile_maintains | legacy_leaf]).
  - apply legacy_removeFile_maintains.
  - revert rt. change (Legacy.maintains I (Legacy.createTag host nm)).
    unfold Legacy.createTag. legacy_maintains legacy_leaf.
  - revert rt. change (Legacy.maintains I (Legacy.createDirectory path)).
    unfold Legacy.createDirectory. legacy_maintains legacy_leaf.
  - apply I_save.
Qed.

End LegacyScripts.

Lemma legacy_save_busy (rt : Legacy.Runtime) :
  Legacy.saving (Legacy.model rt) = true -> Legacy.save rt = (rt, Normal tt).
Proof.
  intros H. unfold Legacy.save, mbind, Legacy.Js_bind, Legacy.get. rewrite H.
  reflexivity.
Qed.

Lemma legacy_save_idle (rt : Legacy.Runtime) :
  Legacy.saving (Legacy.model rt) = false ->
  Legacy.save rt
  = ({| Legacy.model := Legacy.with_saving true (Legacy.model rt);
        Legacy.uuid_draws := Legacy.uuid_draws rt;
        Legacy.date_reads := Legacy.date_reads rt;
        Legacy.writes_issued := S (Legacy.writes_issued rt);
        Legacy.in_flight := Legacy.in_flight rt ++ [Legacy.writes_issued rt];
        Legacy.trace :=
          (Legacy.trace rt ++ [Legacy.SavingSet true])
          ++ [Legacy.WriteStart (Legacy.writes_issued rt)
                {| Legacy.lib_nodes := Legacy.nodes (Legacy.model rt);
                   Legacy.lib_files := Legacy.files (Legacy.model rt);
                   Legacy.lib_tags := Legacy.tags (Legacy.model rt) |}] |},
     Normal tt).
Proof.
  intros H. unfold Legacy.save, mbind, Legacy.Js_bind, Legacy.get. rewrite H.
  reflexivity.
Qed.

Lemma legacy_open_after_snoc open tr e :
  Legacy.open_after open (tr ++ [e])
  = Legacy.next_open (Legacy.open_after open tr) e.
Proof. unfold Legacy.open_after. rewrite fold_left_app. reflexivity. Qed.

Lemma legacy_in_flight_after_snoc tr e : forall open,
  Legacy.in_flight_after open (tr ++ [e])
  = Legacy.in_flight_after open tr
    ++ [Legacy.next_open (Legacy.open_after open tr) e].
Proof.
  induction tr as [|x tr IH]; intros open; simpl; [reflexivity|].
  rewrite IH. reflexivity.
Qed.

Lemma legacy_serialized_snoc tr e :
  Legacy.serialized (tr ++ [e])
  = Legacy.serialized tr
    && (length (Legacy.next_open (Legacy.open_after [] tr) e) <=? 1)%nat.
Proof.
  unfold Legacy.serialized. rewrite legacy_in_flight_after_snoc, forallb_app. simpl.
  rewrite andb_true_r. reflexivity.
Qed.

Lemma legacy_documents_snoc tr e :
  Legacy.documents (tr ++ [e])
  = Legacy.documents tr
    ++ match e with Legacy.WriteStart _ doc => [doc] | _ => [] end.
Proof.
  unfold Legacy.documents. rewrite omap_app. simpl. destruct e; reflexivity.
Qed.

Lemma legacy_one_write_save : Legacy.maintains Legacy.one_write Legacy.save.
Proof.
  intros rt (Ho & Hs & Hl & Hf).
  destruct (Legacy.saving (Legacy.model rt)) eqn:Hsv.
  - rewrite legacy_save_busy by exact Hsv. simpl. unfold Legacy.one_write.
    rewrite Hsv. auto.
  - rewrite legacy_save_idle by exact Hsv.
    assert (Hnil : Legacy.in_flight rt = []).
    { destruct (Legacy.in_flight rt); [reflexivity|].
      assert (false = true) by (apply Hf; discriminate). discriminate. }
    unfold Legacy.one_write, Legacy.state_of; cbn [fst Legacy.model Legacy.trace
      Legacy.in_flight Legacy.with_saving Legacy.saving].
    rewrite !legacy_open_after_snoc, !legacy_serialized_snoc, !legacy_open_after_snoc.
    rewrite Ho, Hs, Hnil. simpl.
    split; [reflexivity|]. split; [reflexivity|]. split; [lia|].
    split; [discriminate|reflexivity].
Qed.

Lemma legacy_one_write_blob f rt :
  Legacy.one_write rt -> Legacy.one_write (Legacy.log (Legacy.BlobRemoved f) rt).
Proof.
  intros (Ho & Hs & Hl & Hf). unfold Legacy.one_write, Legacy.log;
    cbn [Legacy.model Legacy.trace Legacy.in_flight].
  rewrite legacy_open_after_snoc, legacy_serialized_snoc. simpl.
  rewrite Ho, Hs. simpl.
  split; [reflexivity|]. split; [apply Nat.leb_le, Hl|]. split; assumption.
Qed.

Lemma legacy_one_write_ext rt rt' :
  Legacy.saving (Legacy.model rt') = Legacy.saving (Legacy.model rt) ->
  Legacy.in_flight rt' = Legacy.in_flight rt ->
  Legacy.trace rt' = Legacy.trace rt ->
  Legacy.one_write rt -> Legacy.one_write rt'.
Proof. unfold Legacy.one_write. intros -> -> ->. auto. Qed.

Lemma legacy_one_write_completes w rt :
  Legacy.one_write rt -> Legacy.one_write (Legacy.host_completes w rt).
Proof.
  intros Hok. unfold Legacy.host_completes. case_bool_decide as Hw; [|exact Hok].
  destruct Hok as (Ho & Hs & Hl & Hf).
  destruct (Legacy.in_flight rt) as [|v [|v' rest]] eqn:Hin.
  - inversion Hw.
  - apply list_elem_of_singleton in Hw. subst v.
    unfold Legacy.one_write, Legacy.log, Legacy.with_model;
      cbn [Legacy.model Legacy.trace Legacy.in_flight Legacy.with_saving Legacy.saving].
    rewrite !legacy_open_after_snoc, !legacy_serialized_snoc, !legacy_open_after_snoc.
    rewrite Ho, Hs. simpl.
    assert (E : filter (fun v => v <> w) [w] = []).
    { rewrite filter_cons_False by (intros H; apply H; reflexivity). reflexivity. }
    rewrite E. simpl. split; [reflexivity|]. split; [reflexivity|]. split; [lia|].
    split; [discriminate|intros H; exfalso; apply H; reflexivity].
  - simpl in Hl. lia.
Qed.

Lemma legacy_run_one_write (host : Legacy.Host) steps : forall rt,
  Legacy.one_write rt -> Legacy.one_write (Legacy.run host steps rt).
Proof.
  unfold Legacy.run. induction steps as [|s steps IH]; intros rt Hok; simpl; [exact Hok|].
  apply IH. destruct (Legacy.is_script s) eqn:Hs.
  - apply (legacy_step_maintains host Legacy.one_write legacy_one_write_save
             legacy_one_write_blob legacy_one_write_ext s rt Hs Hok).
  - destruct s; try discriminate. simpl. apply legacy_one_write_completes, Hok.
Qed.

(** In the earlier version of the model, whatever methods are
    called and whatever writes the host completes, from the empty model:
    no write starts while another is in flight, at most one write is in
    flight between two events, and the [saving] flag is up exactly when
    one is. *)
Theorem legacy_writes_serialized (host : Legacy.Host) (steps : list Legacy.Step) :
  let rt := Legacy.run host steps Legacy.initial in
  Legacy.serialized (Legacy.trace rt) = true
  /\ (length (Legacy.in_flight rt) <= 1)%nat
  /\ (Legacy.saving (Legacy.model rt) = true <-> Legacy.in_flight rt <> []).
Proof.
  destruct (legacy_run_one_write host steps Legacy.initial) as (_ & Hs & Hl & Hf).
  { unfold Legacy.one_write. simpl. split; [reflexivity|]. split; [reflexivity|].
    split; [lia|]. split; [discriminate|intros H; exfalso; apply H; reflexivity]. }
  auto.
Qed.

Lemma legacy_busy_save docs : Legacy.maintains (Legacy.busy docs) Legacy.save.
Proof. intros rt [Hs Hd]. rewrite legacy_save_busy by exact Hs. split; assumption. Qed.

Lemma legacy_busy_blob docs f rt :
  Legacy.busy docs rt -> Legacy.busy docs (Legacy.log (Legacy.BlobRemoved f) rt).
Proof.
  intros [Hs Hd]. split; [exact Hs|]. unfold Legacy.log; cbn [Legacy.trace].
  rewrite legacy_documents_snoc, app_nil_r. exact Hd.
Qed.

Lemma legacy_busy_ext docs rt rt' :
  Legacy.saving (Legacy.model rt') = Legacy.saving (Legacy.model rt) ->
  Legacy.in_flight rt' = Legacy.in_flight rt ->
  Legacy.trace rt' = Legacy.trace rt ->
  Legacy.busy docs rt -> Legacy.busy docs rt'.
Proof. unfold Legacy.busy. intros -> _ ->. auto. Qed.

Lemma legacy_run_busy (host : Legacy.Host) docs steps : forall rt,
  forallb Legacy.is_script steps = true ->
  Legacy.busy docs rt -> Legacy.busy docs (Legacy.run host steps rt).
Proof.
  unfold Legacy.run. induction steps as [|s steps IH]; intros rt Hall Hb; simpl;
    [exact Hb|].
  simpl in Hall. apply andb_true_iff in Hall. destruct Hall as [Hs Hall].
  apply IH; [exact Hall|].
  apply (legacy_step_maintains host (Legacy.busy docs) (legacy_busy_save docs)
           (legacy_busy_blob docs) (legacy_busy_ext docs) s rt Hs Hb).
Qed.

Lemma legacy_completes_documents w rt :
  Legacy.documents (Legacy.trace (Legacy.host_completes w rt))
  = Legacy.documents (Legacy.trace rt).
Proof.
  unfold Legacy.host_completes. case_bool_decide; [|reflexivity].
  unfold Legacy.log, Legacy.with_model; cbn [Legacy.trace].
  rewrite !legacy_documents_snoc, !app_nil_r. reflexivity.
Qed.

(** In the earlier version, a call of [save] made while a write is
    under way returns without writing and leaves nothing behind: whatever
    methods are called while the flag is up, no document is written, the
    flag stays up, and the completion of the write starts no write
    either.  What these calls changed is written only by a later call
    that finds the flag down. *)
Theorem legacy_changes_during_write_unsaved (host : Legacy.Host)
    (rt : Legacy.Runtime) (steps : list Legacy.Step) (w : nat) :
  Legacy.saving (Legacy.model rt) = true ->
  forallb Legacy.is_script steps = true ->
  let rt' := Legacy.run host steps rt in
  Legacy.saving (Legacy.model rt') = true
  /\ Legacy.documents (Legacy.trace rt') = Legacy.documents (Legacy.trace rt)
  /\ Legacy.documents (Legacy.trace (Legacy.host_completes w rt'))
     = Legacy.documents (Legacy.trace rt).
Proof.
  intros Hs Hall rt'.
  destruct (legacy_run_busy host (Legacy.documents (Legacy.trace rt)) steps rt Hall)
    as [Hs' Hd]; [split; [exact Hs|reflexivity]|].
  split; [exact Hs'|]. split; [exact Hd|].
  rewrite legacy_completes_documents. exact Hd.
Qed.

(** In the earlier version, with no write under way, [removeNode]
    on an image node whose file is in the store removes the file and the
    node, but the one document it writes is the store between the two
    removals: it still lists the node, without its file.  The call of
    [save] at the end of [removeNode] finds the flag up and returns, and
    the completion of the write starts no other. *)
Theorem legacy_removeNode_image_document (rt : Legacy.Runtime) (id fileID : ID)
    (found : Legacy.Node) (file : Legacy.File) :
  Legacy.saving (Legacy.model rt) = false ->
  find (Legacy.has_node_id id) (Legacy.nodes (Legacy.model rt)) = Some found ->
  Legacy.variant found = Legacy.ImageNode fileID ->
  find (Legacy.has_file_id fileID) (Legacy.files (Legacy.model rt)) = Some file ->
  exists rt',
    Legacy.removeNode id rt = (rt', Normal tt)
    /\ Legacy.nodes (Legacy.model rt')
       = remove_first (Legacy.has_node_id id) (Legacy.nodes (Legacy.model rt))
    /\ Legacy.files (Legacy.model rt')
       = remove_first (Legacy.has_file_id fileID) (Legacy.files (Legacy.model rt))
    /\ Legacy.documents (Legacy.trace rt')
       = Legacy.documents (Legacy.trace rt)
         ++ [{| Legacy.lib_nodes := Legacy.nodes (Legacy.model rt);
                Legacy.lib_files :=
                  remove_first (Legacy.has_file_id fileID)
                    (Legacy.files (Legacy.model rt));
                Legacy.lib_tags := Legacy.tags (Legacy.model rt) |}]
    /\ forall w,
         Legacy.documents (Legacy.trace (Legacy.host_completes w rt'))
         = Legacy.documents (Legacy.trace rt').
Proof.
  intros Hs Hn Hv Hf.
  unfold Legacy.removeNode, Legacy.removeFile, mbind, Legacy.Js_bind, Legacy.get,
    Legacy.update, mret, Legacy.Js_ret.
  rewrite findIndex_find, Hn, Hv, findIndex_find, Hf.
  cbn [Legacy.log Legacy.with_model Legacy.model Legacy.files Legacy.with_files].
  rewrite (splice1_findIndex _ _ _ Hf).
  rewrite legacy_save_idle by exact Hs.
  cbn [Legacy.model Legacy.with_saving Legacy.nodes Legacy.with_nodes Legacy.log
       Legacy.with_model Legacy.with_files Legacy.files Legacy.tags Legacy.trace
       Legacy.uuid_draws Legacy.date_reads Legacy.writes_issued Legacy.in_flight].
  rewrite (splice1_findIndex _ _ _ Hn).
  rewrite legacy_save_busy by reflexivity.
  eexists. split; [reflexivity|].
  cbn [Legacy.model Legacy.nodes Legacy.files Legacy.trace Legacy.with_saving
       Legacy.with_model Legacy.with_nodes Legacy.tags Legacy.uuid_draws].
  split; [reflexivity|]. split; [reflexivity|].
  split; [|intros w; apply legacy_completes_documents].
  rewrite !legacy_documents_snoc, !app_nil_r. reflexivity.
Qed.

(** A second note is added while the write of the first is under way:
    the store has two nodes, the only document written has one. *)
Lemma legacy_changes_during_write_unsaved_witness :
  let steps := [Legacy.AddText (lit "b") None] in
  let rt' := Legacy.run Legacy.example_host steps Legacy.example_writing in
  Legacy.saving (Legacy.model Legacy.example_writing) = true
  /\ forallb Legacy.is_script steps = true
  /\ (Legacy.saving (Legacy.model rt') = true
      /\ Legacy.documents (Legacy.trace rt')
         = Legacy.documents (Legacy.trace Legacy.example_writing)
      /\ Legacy.documents (Legacy.trace (Legacy.host_completes 0 rt'))
         = Legacy.documents (Legacy.trace Legacy.example_writing))
  /\ length (Legacy.nodes (Legacy.model rt')) = 2%nat
  /\ map (fun d => length (Legacy.lib_nodes d))
         (Legacy.documents (Legacy.trace (Legacy.host_completes 0 rt')))
     = [1%nat].
Proof.
  intros steps rt'.
  assert (H1 : Legacy.saving (Legacy.model Legacy.example_writing) = true)
    by (vm_compute; reflexivity).
  assert (H2 : forallb Legacy.is_script steps = true) by (vm_compute; reflexivity).
  split; [exact H1|]. split; [exact H2|].
  split.
  - exact (legacy_changes_during_write_unsaved Legacy.example_host
             Legacy.example_writing steps 0%nat H1 H2).
  - split; vm_compute; reflexivity.
Defined.

(** The image node "id0" of [Legacy.example_with_image] owns the file
    "f1". *)
Lemma legacy_removeNode_image_document_witness :
  let rt := Legacy.example_with_image in
  let found := {| Legacy.node_id := lit "id0";
                  Legacy.variant := Legacy.ImageNode (lit "f1");
                  Legacy.node_tags := None;
                  Legacy.created := 1000; Legacy.modified := 1000 |} in
  Legacy.saving (Legacy.model rt) = false
  /\ find (Legacy.has_node_id (lit "id0")) (Legacy.nodes (Legacy.model rt)) = Some found
  /\ Legacy.variant found = Legacy.ImageNode (lit "f1")
  /\ find (Legacy.has_file_id (lit "f1")) (Legacy.files (Legacy.model rt))
     = Some Legacy.example_file
  /\ exists rt',
       Legacy.removeNode (lit "id0") rt = (rt', Normal tt)
       /\ Legacy.nodes (Legacy.model rt')
          = remove_first (Legacy.has_node_id (lit "id0")) (Legacy.nodes (Legacy.model rt))
       /\ Legacy.files (Legacy.model rt')
          = remove_first (Legacy.has_file_id (lit "f1")) (Legacy.files (Legacy.model rt))
       /\ Legacy.documents (Legacy.trace rt')
          = Legacy.documents (Legacy.trace rt)
            ++ [{| Legacy.lib_nodes := Legacy.nodes (Legacy.model rt);
                   Legacy.lib_files :=
                     remove_first (Legacy.has_file_id (lit "f1"))
                       (Legacy.files (Legacy.model rt));
                   Legacy.lib_tags := Legacy.tags (Legacy.model rt) |}]
       /\ forall w,
            Legacy.documents (Legacy.trace (Legacy.host_completes w rt'))
            = Legacy.documents (Legacy.trace rt').
Proof.
  intros rt found.
  assert (H1 : Legacy.saving (Legacy.model rt) = false) by (vm_compute; reflexivity).
  assert (H2 : find (Legacy.has_node_id (lit "id0")) (Legacy.nodes (Legacy.model rt))
               = Some found) by (vm_compute; reflexivity).
  assert (H3 : Legacy.variant found = Legacy.ImageNode (lit "f1")) by reflexivity.
  assert (H4 : find (Legacy.has_file_id (lit "f1")) (Legacy.files (Legacy.model rt))
               = Some Legacy.example_file) by (vm_compute; reflexivity).
  split; [exact H1|]. split; [exact H2|]. split; [exact H3|]. split; [exact H4|].
  exact (legacy_removeNode_image_document rt (lit "id0") (lit "f1") found
           Legacy.example_file H1 H2 H3 H4).
Defined.

(** * The navigation tree on the snapshots that the methods publish *)

Lemma published_ext rt rt' : snapshot rt' = snapshot rt -> published rt -> published rt'.
Proof. unfold snapshot, published. intros [= -> ->]. auto. Qed.

Lemma published_same {A} (m : Js A) : keeps snapshot m -> maintains published m.
Proof. intros H rt. apply published_ext, H. Qed.

Lemma save_body_snapshot (host : Host) : keeps snapshot (save_body host).
Proof. intros rt. rewrite save_body_state. reflexivity. Qed.

Lemma save_snapshot (host : Host) : keeps snapshot (save host).
Proof.
  intros rt. rewrite save_cases.
  destruct (savePromise (model rt)); [reflexivity|apply save_body_snapshot].
Qed.

Ltac published_auto leaf :=
  repeat (cbv beta zeta;
          lazymatch goal with
          | |- maintains _ (mret _) => apply maintains_ret
          | |- maintains _ (throw _) => apply maintains_throw
          | |- maintains _ (get _) => apply maintains_get
          | |- maintains _ (save _) => apply published_same, save_snapshot
          | |- maintains _ (_ ≫= _) => apply maintains_bind; [|intros ?]
          | |- maintains _ (match ?x with _ => _ end) => destruct x
          | |- maintains _ _ =>
              first [ leaf
                    | apply published_same; intros ?; reflexivity
                    | intros ? ?; right; reflexivity ]
          end).

Section Published.

Context (host : Host).

Lemma addTextNode_published text t parent tgs :
  maintains published (addTextNode host text t parent tgs).
Proof. unfold addTextNode, addNode, getNextIndex. published_auto fail. Qed.

Lemma addImageNode_published file t parent tgs :
  maintains published (addImageNode host file t parent tgs).
Proof. unfold addImageNode, addFile, addNode, getNextIndex. published_auto fail. Qed.

Lemma addDirectoryNode_published dir t parent tgs :
  maintains published (addDirectoryNode host dir t parent tgs).
Proof. unfold addDirectoryNode, addNode, getNextIndex. published_auto fail. Qed.

Lemma addAnchorNode_published anchor t parent tgs :
  maintains published (addAnchorNode host anchor t parent tgs).
Proof. unfold addAnchorNode, addFile, addNode, getNextIndex. published_auto fail. Qed.

Lemma removeFile_published fileID : maintains published (removeFile host fileID).
Proof. unfold removeFile. published_auto fail. Qed.

Lemma removeNode_published id : maintains published (removeNode host id).
Proof. unfold removeNode. published_auto ltac:(apply removeFile_published). Qed.

Lemma setParent_published id parent : maintains published (setParent host id parent).
Proof. unfold setParent. published_auto fail. Qed.

Lemma createTag_published nm : maintains published (createTag host nm).
Proof. unfold createTag. published_auto fail. Qed.

Lemma createDirectory_loop_published dirs :
  forall parent, maintains published (createDirectory_loop host dirs parent).
Proof.
  induction dirs as [|dir dirs IH]; intros parent; simpl.
  - apply maintains_ret.
  - apply maintains_bind; [|intros ?; apply IH].
    unfold createDirectory_step, findDirectory.
    published_auto ltac:(apply addDirectoryNode_published).
Qed.

Lemma createDirectory_published path : maintains published (createDirectory host path).
Proof.
  unfold createDirectory. published_auto ltac:(apply createDirectory_loop_published).
Qed.

Lemma run_task_snapshot t : keeps snapshot (run_task host t).
Proof. destruct t; [intros rt; reflexivity|apply save_body_snapshot]. Qed.

Lemma run_microtasks_snapshot fuel : forall rt,
  snapshot (run_microtasks host fuel rt) = snapshot rt.
Proof.
  induction fuel as [|fuel IH]; intros rt; [reflexivity|].
  destruct (microtasks rt) as [|t q] eqn:Hq.
  - rewrite run_microtasks_idle by exact Hq. reflexivity.
  - rewrite (run_microtasks_step host fuel t q rt Hq), IH.
    apply (run_task_snapshot t (with_microtasks q rt)).
Qed.

Lemma script_published {A} (m : Js A) rt :
  maintains published m -> published rt -> published (script host m rt).
Proof.
  intros Hm Hp. unfold script, drain.
  eapply published_ext; [apply run_microtasks_snapshot|]. apply Hm, Hp.
Qed.

Lemma step_published s rt : published rt -> published (step host s rt).
Proof.
  intros Hp. destruct s; simpl.
  - apply script_published; [apply addTextNode_published|exact Hp].
  - apply script_published; [apply addImageNode_published|exact Hp].
  - apply script_published; [apply addDirectoryNode_published|exact Hp].
  - apply script_published; [apply addAnchorNode_published|exact Hp].
  - apply script_published; [apply removeNode_published|exact Hp].
  - apply script_published; [apply setParent_published|exact Hp].
  - apply script_published; [apply createDirectory_published|exact Hp].
  - apply script_published; [apply createTag_published|exact Hp].
  - apply script_published; [apply published_same, save_snapshot|exact Hp].
  - unfold host_completes. case_bool_decide; [|exact Hp]. unfold drain.
    eapply published_ext; [apply run_microtasks_snapshot|exact Hp].
  - unfold timer_fires. case_bool_decide; [|exact Hp]. cbv zeta.
    match goal with
    | |- context [drain host ?r] =>
        assert (Hr : published r) by exact Hp;
        assert (Hd : published (drain host r))
          by (unfold drain; eapply published_ext;
              [apply run_microtasks_snapshot|exact Hr]);
        assert (Hc : published (script host clearStatus r))
          by (apply script_published; [|exact Hr];
              unfold clearStatus; published_auto fail)
    end.
    simpl. destruct (status (model rt)) as [st|]; [|exact Hd].
    destruct (str_eqb (status_id st) statusID); assumption.
Qed.

Lemma run_published steps : forall rt, published rt -> published (run host steps rt).
Proof.
  unfold run. induction steps as [|s steps IH]; intros rt Hp; simpl; [exact Hp|].
  apply IH, step_published, Hp.
Qed.

End Published.

Lemma createTree_published fuel parent d rt :
  published rt -> createTree (S fuel) parent d rt = (rt, Throw TypeError).
Proof.
  intros [Hn|Hfr]; [|apply createTree_frozen, Hfr].
  rewrite createTree_unfold, Hn. reflexivity.
Qed.

(** C8. The tree of directories is not returned on any store that the
    methods have built.  [createTree] assigns
    [node.depth] on the object that [getNode] returned; the objects of
    every snapshot published by [addNode], [removeNode] and [setParent]
    are frozen by [produce], so the assignment throws.  After any
    sequence of method calls, completed writes and fired timeouts from the
    empty model, [createTree] throws a TypeError on every id and depth,
    and changes nothing.  So it does on directory D with child directory
    E and a text note T in D, where [getNode] finds D. *)
Theorem createTree_throws_after_any_run :
  (forall (host : Host) (steps : list Step) (parent : option ID) (d : Z) (fuel : nat),
      let rt := run host steps initial in
      createTree (S fuel) parent d rt = (rt, Throw TypeError))
  /\ map type (nodes (model example_with_tree)) = [Directory; Directory; Text]
  /\ getNode (Some (lit "id0")) example_with_tree
     = (example_with_tree, Normal (Some dir_D))
  /\ forall fuel,
       createTree (S fuel) (Some (lit "id0")) 0 example_with_tree
       = (example_with_tree, Throw TypeError).
Proof.
  assert (H : forall (host : Host) (steps : list Step) (parent : option ID) (d : Z)
                     (fuel : nat),
             createTree (S fuel) parent d (run host steps initial)
             = (run host steps initial, Throw TypeError)).
  { intros host steps parent d fuel. apply createTree_published, run_published.
    left. reflexivity. }
  split; [exact H|]. split; [vm_compute; reflexivity|].
  split; [vm_compute; reflexivity|].
  intros fuel. apply H.
Qed.

(** C10. The write of [createTree] does not reach a published snapshot.
    When the objects of the snapshot are frozen, as [produce] leaves them,
    and [getNode(parentID)] returns a node, [createTree(model, parentID,
    depth)] throws a TypeError at the assignment [node.depth = depth]: the
    snapshot is left as it was, and [getNode] still returns the node as
    it was, with the depth it had (none, if none was written before). *)
Theorem createTree_frozen_not_written (rt : Runtime) (parent : option ID) (d : Z)
    (node : Node) (fuel : nat) :
  nodes_frozen (model rt) = true ->
  getNode parent rt = (rt, Normal (Some node)) ->
  let after := state_of (createTree (S fuel) parent d rt) in
  completion_of (createTree (S fuel) parent d rt) = Throw TypeError
  /\ nodes (model after) = nodes (model rt)
  /\ getNode parent after = (after, Normal (Some node))
  /\ (depth node = None ->
      forall n, completion_of (getNode parent after) = Normal (Some n) ->
                depth n <> Some d).
Proof.
  intros Hfr Hget after. unfold after. rewrite (createTree_frozen fuel parent d rt Hfr).
  unfold state_of, completion_of; cbn [fst snd].
  split; [reflexivity|]. split; [reflexivity|]. split; [exact Hget|].
  intros Hd n Hn. rewrite Hget in Hn. cbn [snd] in Hn. injection Hn as <-.
  rewrite Hd. discriminate.
Qed.

(** On the store with D, E and T that the methods built: [getNode("id0")]
    returns D, which carries no depth, before and after the call. *)
Lemma createTree_frozen_not_written_witness :
  nodes_frozen (model example_with_tree) = true
  /\ getNode (Some (lit "id0")) example_with_tree
     = (example_with_tree, Normal (Some dir_D))
  /\ depth dir_D = None
  /\ (let after := state_of (createTree 3 (Some (lit "id0")) 0 example_with_tree) in
      completion_of (createTree 3 (Some (lit "id0")) 0 example_with_tree)
      = Throw TypeError
      /\ nodes (model after) = nodes (model example_with_tree)
      /\ getNode (Some (lit "id0")) after = (after, Normal (Some dir_D))
      /\ (depth dir_D = None ->
          forall n, completion_of (getNode (Some (lit "id0")) after) = Normal (Some n) ->
                    depth n <> Some 0)).
Proof.
  assert (H1 : nodes_frozen (model example_with_tree) = true)
    by (vm_compute; reflexivity).
  assert (H2 : getNode (Some (lit "id0")) example_with_tree
               = (example_with_tree, Normal (Some dir_D)))
    by (vm_compute; reflexivity).
  split; [exact H1|]. split; [exact H2|]. split; [reflexivity|].
  exact (createTree_frozen_not_written example_with_tree (Some (lit "id0")) 0 dir_D
           2 H1 H2).
Defined.
